(** * generators.js: python-like generators for javascript

    A shallow embedding of [src/generators.js] and the properties of its
    generators: the composition primitives ([zip], [count], [enumerate],
    [cycle], [take]) and the combinatorial generators ([product],
    [permutations], [combinations], [partitions]). *)

From Stdlib Require Import String.
From Stdlib Require Import List ZArith Lia Bool Arith.
From Stdlib Require Import Permutation Sorted.
Import ListNotations.

Set Implicit Arguments.

(** ** Numbers

    The numeric arguments of the library are integers, [Infinity] (the
    default count of [cycle] and [repeat]) or what [undefined] becomes in
    arithmetic and comparisons, [NaN] ([sizes[0]] on an empty array). *)

Inductive number : Type :=
| Int (z : Z)
| Infinity
| NaN.

Module Num.

(** [a < b] *)
Definition lt (a b : number) : bool :=
  match a, b with
  | Int x, Int y => (x <? y)%Z
  | Int _, Infinity => true
  | _, _ => false
  end.

(** [a <= b] *)
Definition le (a b : number) : bool :=
  match a, b with
  | Int x, Int y => (x <=? y)%Z
  | Int _, Infinity => true
  | Infinity, Infinity => true
  | _, _ => false
  end.

(** [a > b] *)
Definition gt (a b : number) : bool := lt b a.

(** [a == b]; [undefined == k] is false for a number [k], as [NaN == k]. *)
Definition eq (a b : number) : bool :=
  match a, b with
  | Int x, Int y => (x =? y)%Z
  | Infinity, Infinity => true
  | _, _ => false
  end.

(** [a - 1] *)
Definition pred (a : number) : number :=
  match a with
  | Int x => Int (x - 1)
  | Infinity => Infinity
  | NaN => NaN
  end.

(** [array.length] *)
Definition length {A : Type} (l : list A) : number :=
  Int (Z.of_nat (List.length l)).

End Num.

(** ** Generators

    A generator body runs on a store of type [St], yields values of type [B]
    and ends by returning, by throwing, or not at all within the budget of
    the run. A run is recorded as the values yielded, in order, as they are
    at the moment of the [yield], and the way the run ended. *)

Inductive error : Type :=
| RangeError (msg : string)
| TypeError (msg : string).

(** The messages of the two RangeErrors that the library throws. *)
Definition range_message : string :=
  "n must be greater than 0 and less than the iteratable length".

Definition sum_message : string :=
  "sum of sizes must be equal to the iterator length".

(** The message of the RangeError with which the engine refuses a call
    that its call stack has no room for. *)
Definition stack_message : string :=
  "Maximum call stack size exceeded".

Inductive outcome (X : Type) : Type :=
| Done (x : X)
| Threw (e : error)
| Timeout.

Arguments Done {X} x.
Arguments Threw {X} e.
Arguments Timeout {X}.

Definition trace (B X : Type) : Type := (list B * outcome X)%type.

Definition Gen (St B X : Type) : Type := St -> trace B (X * St).

Module G.
Section Ops.
Context {St B : Type}.

Definition ret {X} (x : X) : Gen St B X :=
  fun s => ([], Done (x, s)).

Definition bind {X Y} (m : Gen St B X) (k : X -> Gen St B Y) : Gen St B Y :=
  fun s =>
    match m s with
    | (out, Done (x, s')) =>
        let (out', r) := k x s' in (out ++ out', r)
    | (out, Threw e) => (out, Threw e)
    | (out, Timeout) => (out, Timeout)
    end.

(** [yield b] *)
Definition yield (b : B) : Gen St B unit :=
  fun s => ([b], Done (tt, s)).

(** [throw e] *)
Definition throw {X} (e : error) : Gen St B X :=
  fun _ => ([], Threw e).

(** the budget of the run is used up *)
Definition timeout {X} : Gen St B X :=
  fun _ => ([], Timeout).

Definition get : Gen St B St :=
  fun s => ([], Done (s, s)).

Definition modify (f : St -> St) : Gen St B unit :=
  fun s => ([], Done (tt, f s)).

(** a step that yields nothing and ends as [r] does *)
Definition lift {X} (r : outcome X) : Gen St B X :=
  fun s =>
    match r with
    | Done x => ([], Done (x, s))
    | Threw e => ([], Threw e)
    | Timeout => ([], Timeout)
    end.

(** iterating an array: [yield* array] *)
Definition of_array (l : list B) : Gen St B unit :=
  fun s => (l, Done (tt, s)).

End Ops.

(** what a consumer without access to the store sees of a run *)
Definition run {St B X} (m : Gen St B X) (s : St) : trace B X :=
  match m s with
  | (out, Done (x, _)) => (out, Done x)
  | (out, Threw e) => (out, Threw e)
  | (out, Timeout) => (out, Timeout)
  end.

End G.

Declare Scope gen_scope.
Delimit Scope gen_scope with gen.
Notation "x <- m ;; k" := (G.bind m (fun x => k))
  (at level 61, m at next level, right associativity) : gen_scope.
Notation "m ;; k" := (G.bind m (fun _ => k))
  (at level 61, right associativity) : gen_scope.
Open Scope gen_scope.

(** The values yielded and the end of a run. *)
Definition yielded {B X} (t : trace B X) : list B := fst t.
Definition ending {B X} (t : trace B X) : outcome X := snd t.

(** ** Iterables and iterators

    An iterator is either over a finite remainder or never exhausted. An
    iterable is an array, which hands out a fresh iterator at every
    [Symbol.iterator] call, or an iterator object (a generator), which
    hands out itself. *)

Inductive cursor (V : Type) : Type :=
| Finite (rest : list V)
| Infinite (f : nat -> V).

Arguments Finite {V} rest.
Arguments Infinite {V} f.

Inductive iterable (V : Type) : Type :=
| Arr (l : list V)
| Iter (c : cursor V).

Arguments Arr {V} l.
Arguments Iter {V} c.

Section Iteration.
Context {V : Type}.

(** [it.next()]: [None] is [{done: true}] *)
Definition next (c : cursor V) : option V * cursor V :=
  match c with
  | Finite [] => (None, Finite [])
  | Finite (x :: rest) => (Some x, Finite rest)
  | Infinite f => (Some (f 0), Infinite (fun k => f (S k)))
  end.

(** [iterable[Symbol.iterator]()] *)
Definition iterator (i : iterable V) : cursor V :=
  match i with
  | Arr l => Finite l
  | Iter c => c
  end.

Definition is_done (r : option V) : bool :=
  match r with
  | Some _ => false
  | None => true
  end.

(** [result.map((r) => r.value)] for results that are not done *)
Definition values (result : list (option V)) : list V :=
  flat_map (fun r => match r with Some v => [v] | None => [] end) result.

(** One round of the loop of [zip]: every iterator is advanced once; the
    tuple of the values is yielded if none of them is done. *)
Definition zip_next (iterators : list (cursor V))
  : option (list V) * list (cursor V) :=
  let result := map next iterators in
  if forallb (fun r => negb (is_done (fst r))) result
  then (Some (values (map fst result)), map snd result)
  else (None, map snd result).

(** [zip(...iterables)], its loop run for at most [fuel] rounds *)
Fixpoint zip_loop (fuel : nat) (iterators : list (cursor V))
  : trace (list V) unit :=
  match fuel with
  | O => ([], Timeout)
  | S fuel' =>
      match zip_next iterators with
      | (Some tuple, iterators') =>
          let (out, r) := zip_loop fuel' iterators' in (tuple :: out, r)
      | (None, _) => ([], Done tt)
      end
  end.

Definition zip (fuel : nat) (iterables : list (iterable V))
  : trace (list V) unit :=
  zip_loop fuel (map iterator iterables).

End Iteration.

(** [count(start, step)]: the value after [k] rounds of [start += step],
    the sums taken as sums of integers. They are the sums of the code as
    long as they stay within [2^53] in magnitude, as the positions do that
    [take] counts from 0; [Double.count] below has the sums of the code
    beyond that as well. *)
Definition count (start step : Z) : cursor Z :=
  Infinite (fun k => Nat.iter k (fun s => (s + step)%Z) start).

(** A sequence seen through a function applied to each of its values. *)
Definition cursor_map {V W : Type} (g : V -> W) (c : cursor V) : cursor W :=
  match c with
  | Finite rest => Finite (map g rest)
  | Infinite f => Infinite (fun k => g (f k))
  end.

Section Take.
Context {A : Type}.

(** The iterators that [enumerate(iterable, start)] hands to [zip]:
    [zip(count(start), iterable)]. Its tuples hold a number, then an
    item. *)
Definition enumerate (i : iterable A) (start : Z)
  : list (cursor (Z + A)) :=
  [cursor_map inl (count start 1); cursor_map inr (iterator i)].

(** The loop of [take] over [enumerate(iterable)], for at most [fuel]
    rounds: [idx] is the index waited for, [indices] the iterator of the
    indices. A tuple of [enumerate] is [[i, v]]; the last case of the
    destructuring is for tuples of another shape, which [enumerate] does
    not yield. *)
Fixpoint take_loop (fuel : nat) (e : list (cursor (Z + A))) (idx : Z)
  (indices : cursor Z) : trace A unit :=
  match fuel with
  | O => ([], Timeout)
  | S fuel' =>
      match zip_next e with
      | (None, _) => ([], Done tt)
      | (Some [inl i; inr v], e') =>
          if (i =? idx)%Z then
            match next indices with
            | (None, _) => ([v], Done tt)
            | (Some idx', indices') =>
                let (out, r) := take_loop fuel' e' idx' indices' in
                (v :: out, r)
            end
          else take_loop fuel' e' idx indices
      | (Some _, _) => ([], Threw (TypeError "not a pair"))
      end
  end.

(** [take(iterable, indices)] *)
Definition take (fuel : nat) (i : iterable A) (indices : iterable Z)
  : trace A unit :=
  match next (iterator indices) with
  | (None, _) => ([], Done tt)
  | (Some idx, indices') => take_loop fuel (enumerate i 0) idx indices'
  end.

End Take.

Section Cycle.
Context {V : Type}.

(** [yield* iterable] on the store that holds the iterable: an array is
    walked from its start every time, an iterator object from where it
    is, and is left exhausted; one that is never exhausted is followed
    for [fuel] values. *)
Definition yield_star (fuel : nat) : Gen (iterable V) V unit :=
  fun i =>
    match i with
    | Arr l => (l, Done (tt, Arr l))
    | Iter (Finite rest) => (rest, Done (tt, Iter (Finite [])))
    | Iter (Infinite f) => (map f (seq 0 fuel), Timeout)
    end.

(** [while (n-- > 0) { yield* iterable }], for at most [fuel] rounds *)
Fixpoint cycle_loop (fuel : nat) (n : number) : Gen (iterable V) V unit :=
  match fuel with
  | O => G.timeout
  | S fuel' =>
      if Num.gt n (Int 0)
      then yield_star fuel' ;; cycle_loop fuel' (Num.pred n)
      else G.ret tt
  end.

(** [cycle(iterable, n = Infinity)] *)
Definition cycle (fuel : nat) (i : iterable V) (n : number) : trace V unit :=
  G.run (cycle_loop fuel n) i.

End Cycle.

(** ** Helpers of the combinatorial generators *)

(** [[...iterable]]; also [Array.isArray(iterable) ? iterable :
    [...iterable]] and [i.next ? [...i] : i], which leave an array as it
    is. Spreading an iterator that is never exhausted does not return. *)
Definition spread {A : Type} (i : iterable A) : outcome (list A) :=
  match i with
  | Arr l => Done l
  | Iter (Finite rest) => Done rest
  | Iter (Infinite _) => Timeout
  end.

(** A generator that first turns its iterable into an array. *)
Definition with_array {A B : Type} (i : iterable A)
  (g : list A -> trace B unit) : trace B unit :=
  match spread i with
  | Done array => g array
  | Threw e => ([], Threw e)
  | Timeout => ([], Timeout)
  end.

(** A value that can be spread behind an item: [[item, ...p]]. *)
Class Spread (A B : Type) : Type := spread_cons : A -> B -> B.

#[global] Instance list_Spread (A : Type) : Spread A (list A) := cons.

Section Helpers.
Context {St : Type}.

(** [prefix(item, iterable)] *)
Definition prefix {A B : Type} `{Spread A B} (item : A)
  (g : Gen St B unit) : Gen St B unit :=
  fun s => let (out, r) := g s in (map (spread_cons item) out, r).

(** [itermap(iterable, callbackFn)] *)
Definition itermap {B C : Type} (g : Gen St B unit) (callbackFn : B -> C)
  : Gen St C unit :=
  fun s => let (out, r) := g s in (map callbackFn out, r).

(** [for (let item of array) { body }] *)
Fixpoint for_each {A B : Type} (array : list A)
  (body : A -> Gen St B unit) : Gen St B unit :=
  match array with
  | [] => G.ret tt
  | item :: array' => body item ;; for_each array' body
  end.

(** [for (let c of g) { body }] for a generator [g] that keeps its store
    to itself, given by its run: the body runs at every value, and the
    loop ends as [g] does. *)
Definition for_of {B C : Type} (g : trace B unit)
  (body : B -> Gen St C unit) : Gen St C unit :=
  for_each (yielded g) body ;; G.lift (ending g).

(** [iterables.map(f)] for an [f] that may not return *)
Fixpoint map_gen {A B C : Type} (f : A -> Gen St B C) (l : list A)
  : Gen St B (list C) :=
  match l with
  | [] => G.ret []
  | x :: l' => y <- f x ;; ys <- map_gen f l' ;; G.ret (y :: ys)
  end.

End Helpers.

(** ** [product] *)

Section Product.
Context {A : Type}.

(** [array_product(arrays)]; [arrays[0]] of no arrays is [undefined],
    which [for ... of] refuses. *)
Fixpoint array_product (arrays : list (list A)) : Gen unit (list A) unit :=
  match arrays with
  | [] => G.throw (TypeError "arrays[0] is not iterable")
  | [array0] => itermap (G.of_array array0) (fun item => [item])
  | array0 :: slice1 =>
      for_each array0 (fun item => prefix item (array_product slice1))
  end.

(** [product(...iterables)] *)
Definition product (iterables : list (iterable A)) : trace (list A) unit :=
  G.run (arrays <- map_gen (fun i => G.lift (spread i)) iterables ;;
         array_product arrays) tt.

End Product.

(** ** [permutations] *)

Section Permutations.
Context {A : Type}.
(** the value of a missing array element *)
Variable undefined : A.

(** [array.splice(i, 1)]: the items removed, and the array left *)
Definition splice_out (i : nat) (array : list A) : list A * list A :=
  (firstn 1 (skipn i array), firstn i array ++ skipn (i + 1) array).

(** [array.splice(i, 0, x)] *)
Definition splice_in (i : nat) (x : A) (array : list A) : list A :=
  firstn i array ++ x :: skipn i array.

(** [for (let i = ...; i < array.length; i++) { body }] on the store that
    holds the array, for at most [fuel] rounds *)
Fixpoint for_index {B : Type} (fuel : nat) (i : nat)
  (body : nat -> Gen (list A) B unit) : Gen (list A) B unit :=
  match fuel with
  | O => G.timeout
  | S fuel' =>
      array <- G.get ;;
      if i <? length array
      then body i ;; for_index fuel' (i + 1) body
      else G.ret tt
  end.

(** [array_permutations(array)]: the store is the array, which every
    call works on in place. *)
Fixpoint array_permutations (fuel : nat) : Gen (list A) (list A) unit :=
  match fuel with
  | O => G.timeout
  | S fuel' =>
      array <- G.get ;;
      if length array <=? 1
      then G.yield array
      else
        for_index fuel 0 (fun i =>
          array <- G.get ;;
          let (item, array') := splice_out i array in
          G.modify (fun _ => array') ;;
          prefix (hd undefined item) (array_permutations fuel') ;;
          G.modify (splice_in i (hd undefined item)))
  end.

(** [permutations(iterable)] *)
Definition permutations (fuel : nat) (i : iterable A)
  : trace (list A) unit :=
  with_array i (fun array => G.run (array_permutations fuel) array).

End Permutations.

(** ** [combinations] *)

(** A combination as [array_combinations] yields it: the items picked and,
    when the unused items are asked for, the array of those as the last
    element: [[...picked, unused]]. *)
Record combo (A : Type) : Type := Combo {
  picked : list A;
  last_unused : option (list A)
}.

Arguments Combo {A} picked last_unused.
Arguments picked {A} c.
Arguments last_unused {A} c.

#[global] Instance combo_Spread (A : Type) : Spread A (combo A) :=
  fun item c => Combo (item :: picked c) (last_unused c).

Section Combinations.
Context {A : Type}.
Variable undefined : A.

(** [array.toSpliced(i, 1)] *)
Definition toSpliced (i : nat) (array : list A) : list A :=
  firstn i array ++ skipn (i + 1) array.

(** [array.map((item, i) => f(item, i))] *)
Fixpoint mapi_from {B : Type} (i : nat) (f : A -> nat -> B)
  (array : list A) : list B :=
  match array with
  | [] => []
  | item :: array' => f item i :: mapi_from (i + 1) f array'
  end.

Definition mapi {B : Type} (f : A -> nat -> B) (array : list A) : list B :=
  mapi_from 0 f array.

(** [array_combinations(array, n, unused)]. The store is the value of
    [unused]: [None] for [false], or the contents of the one array that
    [combinations] creates and all calls share. [fuel] is the depth of
    calls that the call stack has room for: every call runs inside the
    [next()] of the call before it, and a call deeper than that is
    refused by the engine with its RangeError. *)
Fixpoint array_combinations (fuel : nat) (array : list A) (n : number)
  : Gen (option (list A)) (combo A) unit :=
  match fuel with
  | O => G.throw (RangeError stack_message)
  | S fuel' =>
      if Num.le n (Int 0) || Num.gt n (Num.length array)
      then G.throw (RangeError range_message)
      else
        unused <- G.get ;;
        match Num.eq n (Int 1), unused with
        | true, Some u =>
            G.of_array (mapi (fun item i =>
              Combo [item] (Some (u ++ toSpliced i array))) array)
        | true, None =>
            G.of_array (map (fun item => Combo [item] None) array)
        | false, _ =>
            if Num.eq n (Num.length array)
            then G.yield (Combo array unused)
            else
              let item := hd undefined array in
              let rest := tl array in
              prefix item (array_combinations fuel' rest (Num.pred n)) ;;
              G.modify (option_map (fun u => u ++ [item])) ;;
              array_combinations fuel' rest n ;;
              G.modify (option_map (@removelast A))
        end
  end.

(** [combinations(iterable, n, return_unused = false)] *)
Definition combinations (fuel : nat) (i : iterable A) (n : number)
  (return_unused : bool) : trace (combo A) unit :=
  with_array i (fun array =>
    G.run (array_combinations fuel array n)
      (if return_unused then Some [] else None)).

End Combinations.

(** ** [partitions] *)

Section Partitions.
Context {A : Type}.
Variable undefined : A.

(** [sizes[0]] *)
Definition first_size (sizes : list Z) : number :=
  match sizes with
  | [] => NaN
  | z :: _ => Int z
  end.

(** [array_partitions(array, sizes)]; [fuel] is the depth of calls that
    the call stack has room for, as in [array_combinations]. *)
Fixpoint array_partitions (fuel : nat) (array : list A) (sizes : list Z)
  : Gen unit (list (list A)) unit :=
  match fuel with
  | O => G.throw (RangeError stack_message)
  | S fuel' =>
      if (length sizes =? 1)%nat
      then
        if negb (Num.eq (first_size sizes) (Num.length array))
        then G.throw (RangeError sum_message)
        else G.yield [array]
      else
        for_of
          (combinations undefined fuel' (Arr array) (first_size sizes) true)
          (fun c =>
             match last_unused c with
             | Some unused =>
                 prefix (picked c) (array_partitions fuel' unused (tl sizes))
             | None => G.throw (TypeError "unused is not iterable")
             end)
  end.

(** [partitions(iterable, sizes)] *)
Definition partitions (fuel : nat) (i : iterable A) (sizes : list Z)
  : trace (list (list A)) unit :=
  with_array i (fun array => G.run (array_partitions fuel array sizes) tt).

End Partitions.
(** ** Sums of numbers that are integers

    A number of the code is a double. An integer of up to 53 bits is one,
    so every integer up to [2^53] in magnitude is; a longer one is a
    double only if the bits below its leading 53 are zero. The sum of two
    doubles is the double nearest to their sum and, of two that are as
    near, the one whose 53 bits end in zero: [2^53 + 1] is [2^53]. A sum
    that rounds to [2^1024] or beyond in magnitude is [Infinity] or
    [-Infinity], and stays so whatever is added to it that is finite. *)

Module Double.

(** The largest magnitude up to which every integer is a double. *)
Definition exact : Z := 2 ^ 53.

(** The least magnitude that is beyond all doubles. *)
Definition beyond : Z := 2 ^ 1024.

(** The value of a variable that starts as an integer and has integers
    added to it. *)
Inductive sum : Type :=
| Num (z : Z)
| Inf (negative : bool).

(** The nearest integer of at most 53 significant bits. *)
Definition round (z : Z) : Z :=
  let a := Z.abs z in
  if (a <=? exact)%Z then z
  else
    let e := (Z.log2 a - 52)%Z in
    let q := (a / 2 ^ e)%Z in
    let r := (a mod 2 ^ e)%Z in
    let half := (2 ^ (e - 1))%Z in
    let q' := if (half <? r)%Z || ((r =? half)%Z && Z.odd q)
              then (q + 1)%Z else q in
    (Z.sgn z * (q' * 2 ^ e))%Z.

(** The double for the sum [z] of two doubles that are integers. *)
Definition of_sum (z : Z) : sum :=
  let v := round z in
  if (beyond <=? Z.abs v)%Z then Inf (v <? 0)%Z else Num v.

(** [a += b] for an integer [b] *)
Definition add (a : sum) (b : Z) : sum :=
  match a with
  | Num z => of_sum (z + b)
  | Inf negative => Inf negative
  end.

(** [a < b] and [a > b] for an integer [b] *)
Definition lt (a : sum) (b : Z) : bool :=
  match a with
  | Num z => (z <? b)%Z
  | Inf negative => negative
  end.

Definition gt (a : sum) (b : Z) : bool :=
  match a with
  | Num z => (z >? b)%Z
  | Inf negative => negb negative
  end.

(** [count(start, step)] with the sums of the code: the value after [k]
    rounds of [start += step]. *)
Definition count (start step : Z) : cursor sum :=
  Infinite (fun k => Nat.iter k (fun s => add s step) (Num start)).

(** The iterators that [enumerate(iterable, start)] hands to [zip], with
    the sums of the code: [zip(count(start), iterable)]. *)
Definition enumerate {A : Type} (i : iterable A) (start : Z)
  : list (cursor (sum + A)) :=
  [cursor_map inl (count start 1); cursor_map inr (iterator i)].

End Double.

(** ** [range] and [repeat] *)

(** [for (let i = start; i < stop; i += step) { yield i }], for at most
    [fuel] rounds *)
Fixpoint range_up (fuel : nat) (i : Double.sum) (stop step : Z)
  : trace Double.sum unit :=
  match fuel with
  | O => ([], Timeout)
  | S fuel' =>
      if Double.lt i stop
      then let (out, r) := range_up fuel' (Double.add i step) stop step in
           (i :: out, r)
      else ([], Done tt)
  end.

(** [for (let i = start; i > stop; i += step) { yield i }], for at most
    [fuel] rounds *)
Fixpoint range_down (fuel : nat) (i : Double.sum) (stop step : Z)
  : trace Double.sum unit :=
  match fuel with
  | O => ([], Timeout)
  | S fuel' =>
      if Double.gt i stop
      then let (out, r) := range_down fuel' (Double.add i step) stop step in
           (i :: out, r)
      else ([], Done tt)
  end.

(** [range(start, stop, step = 1)] on numbers that are integers; [stop] is
    [None] when it is left out ([stop === undefined]). *)
Definition range (fuel : nat) (start : Z) (stop : option Z) (step : Z)
  : trace Double.sum unit :=
  let (start, stop) :=
    match stop with
    | None => (0%Z, start)
    | Some stop => (start, stop)
    end in
  if (step >? 0)%Z
  then range_up fuel (Double.Num start) stop step
  else range_down fuel (Double.Num start) stop step.

Module Repeat.

(** [repeat(item, n = Infinity)]: [while (n-- > 0) { yield item }], for at
    most [fuel] rounds *)
Fixpoint repeat {V : Type} (fuel : nat) (item : V) (n : number)
  : trace V unit :=
  match fuel with
  | O => ([], Timeout)
  | S fuel' =>
      if Num.gt n (Int 0)
      then let (out, r) := repeat fuel' item (Num.pred n) in (item :: out, r)
      else ([], Done tt)
  end.

End Repeat.

(** ** Calls that may get one iterator object more than once

    The iterator objects live in a store; an argument of a call is an
    array or the place of an iterator object in the store, so that two
    arguments can be the same object. *)

Module Shared.

Inductive argument (V : Type) : Type :=
| Array (l : list V)
| Object (place : nat).

Arguments Array {V} l.
Arguments Object {V} place.

Definition store (V : Type) : Type := list (cursor V).

Section Objects.
Context {V : Type}.

(** the store with the object at [place] replaced by [c] *)
Fixpoint update (place : nat) (c : cursor V) (h : store V) : store V :=
  match h, place with
  | [], _ => []
  | _ :: h', O => c :: h'
  | c0 :: h', S place' => c0 :: update place' c h'
  end.

(** [it.next()] on the object at [place]; a place without an object has
    no [next] method *)
Definition next_at {B : Type} (place : nat) : Gen (store V) B (option V) :=
  fun h =>
    match nth_error h place with
    | Some c => let (r, c') := next c in ([], Done (r, update place c' h))
    | None => ([], Threw (TypeError "it.next is not a function"))
    end.

(** [iterable[Symbol.iterator]()]: an array makes a new iterator object,
    an iterator object hands out itself *)
Definition iterator_of {B : Type} (a : argument V) : Gen (store V) B nat :=
  fun h =>
    match a with
    | Array l => ([], Done (length h, h ++ [Finite l]))
    | Object place => ([], Done (place, h))
    end.

(** [yield* it] for the object at [place]: what is left of it is yielded
    and the object is left exhausted; one that is never exhausted is
    followed for [fuel] values *)
Definition drain (fuel : nat) (place : nat) : Gen (store V) V unit :=
  fun h =>
    match nth_error h place with
    | Some (Finite rest) => (rest, Done (tt, update place (Finite []) h))
    | Some (Infinite f) => (map f (seq 0 fuel), Timeout)
    | None => ([], Threw (TypeError "it is not iterable"))
    end.

(** [chain(...iterables)]: [for (let it of iterables) { yield* it }] *)
Definition chain (fuel : nat) (iterables : list (argument V))
  : Gen (store V) V unit :=
  for_each iterables (fun it =>
    match it with
    | Array l => G.of_array l
    | Object place => drain fuel place
    end).

(** the loop of [zip], for at most [fuel] rounds: every iterator is
    advanced, one after the other; the tuple of the values is yielded if
    none of them is done *)
Fixpoint zip_loop (fuel : nat) (iterators : list nat)
  : Gen (store V) (list V) unit :=
  match fuel with
  | O => G.timeout
  | S fuel' =>
      result <- map_gen next_at iterators ;;
      if forallb (fun r => negb (is_done r)) result
      then G.yield (values result) ;; zip_loop fuel' iterators
      else G.ret tt
  end.

(** [zip(...iterables)] *)
Definition zip (fuel : nat) (iterables : list (argument V))
  : Gen (store V) (list V) unit :=
  iterators <- map_gen iterator_of iterables ;;
  zip_loop fuel iterators.

End Objects.

End Shared.

(** ** [combinations] and the array [unused] that its values share

    With [return_unused], the calls of [array_combinations] work on one
    array [unused]: they push to it and pop from it. A value yielded at
    [n == 1] ends with a new array [[...unused, ...rest]]; a value yielded
    at [n == array.length] ends with the array [unused] itself, which
    [prefix] hands on as it is: [[item, ...p]] copies [p], not its
    elements. Here a value says which of the two its last element is. *)

Module Aliased.

Inductive unused_part (A : Type) : Type :=
| Copied (l : list A)
| TheUnused.

Arguments Copied {A} l.
Arguments TheUnused {A}.

Record value (A : Type) : Type := Value {
  items : list A;
  unused_of : option (unused_part A)
}.

Arguments Value {A} items unused_of.
Arguments items {A} v.
Arguments unused_of {A} v.

#[global] Instance value_Spread (A : Type) : Spread A (value A) :=
  fun item c => Value (item :: items c) (unused_of c).

Section Combinations.
Context {A : Type}.
Variable undefined : A.

(** [array_combinations(array, n, unused)]; the store holds the contents
    of the array [unused], if there is one, and [fuel] is the depth of
    calls that the call stack has room for. *)
Fixpoint array_combinations (fuel : nat) (array : list A) (n : number)
  : Gen (option (list A)) (value A) unit :=
  match fuel with
  | O => G.throw (RangeError stack_message)
  | S fuel' =>
      if Num.le n (Int 0) || Num.gt n (Num.length array)
      then G.throw (RangeError range_message)
      else
        unused <- G.get ;;
        match Num.eq n (Int 1), unused with
        | true, Some u =>
            G.of_array (mapi (fun item i =>
              Value [item] (Some (Copied (u ++ toSpliced i array)))) array)
        | true, None =>
            G.of_array (map (fun item => Value [item] None) array)
        | false, _ =>
            if Num.eq n (Num.length array)
            then G.yield (Value array (option_map (fun _ => TheUnused) unused))
            else
              let item := hd undefined array in
              let rest := tl array in
              prefix item (array_combinations fuel' rest (Num.pred n)) ;;
              G.modify (option_map (fun u => u ++ [item])) ;;
              array_combinations fuel' rest n ;;
              G.modify (option_map (@removelast A))
        end
  end.

(** A value as its holder reads it when the array [unused] holds
    [contents]. *)
Definition read (contents : option (list A)) (c : value A) : combo A :=
  Combo (items c)
    match unused_of c with
    | Some (Copied l) => Some l
    | Some TheUnused => contents
    | None => None
    end.

(** [[...combinations(iterable, n, return_unused)]]: the values yielded,
    as they are read once the generator has returned. *)
Definition spread_combinations (fuel : nat) (i : iterable A) (n : number)
  (return_unused : bool) : outcome (list (combo A)) :=
  match spread i with
  | Done array =>
      match array_combinations fuel array n
              (if return_unused then Some [] else None) with
      | (out, Done (_, contents)) => Done (map (read contents) out)
      | (_, Threw e) => Threw e
      | (_, Timeout) => Timeout
      end
  | Threw e => Threw e
  | Timeout => Timeout
  end.

End Combinations.

End Aliased.

(** ** Mathematical definitions the properties are stated with *)

(** The number of [k]-element subsets of an [n]-element set, by Pascal's
    rule. *)
Fixpoint binomial (n k : nat) : nat :=
  match n, k with
  | _, O => 1
  | O, S _ => 0
  | S n', S k' => binomial n' k' + binomial n' k
  end.

(** The product of the factorials of the entries. *)
Fixpoint fact_product (sizes : list nat) : nat :=
  match sizes with
  | [] => 1
  | s :: sizes' => fact s * fact_product sizes'
  end.

(** The number of ways to split [n] items into groups of the given sizes,
    the first group chosen first. *)
Fixpoint split_count (sizes : list nat) (n : nat) : nat :=
  match sizes with
  | [] => 0
  | [_] => 1
  | s :: sizes' => binomial n s * split_count sizes' (n - s)
  end.

(** [sum(sizes)] *)
Definition total (sizes : list Z) : Z := fold_right Z.add 0%Z sizes.

(** A size vector with at least one entry, every entry but the last at
    least 1, and the last at least 0. *)
Definition proper_sizes (sizes : list Z) : Prop :=
  sizes <> []
  /\ Forall (fun s => (1 <= s)%Z) (removelast sizes)
  /\ (0 <= last sizes 0)%Z.

(** Lexicographic order of index vectors: position by position, leftmost
    first. *)
Inductive lex_lt : list nat -> list nat -> Prop :=
| lex_lt_nil y ys : lex_lt [] (y :: ys)
| lex_lt_head x y xs ys : x < y -> lex_lt (x :: xs) (y :: ys)
| lex_lt_tail x xs ys : lex_lt xs ys -> lex_lt (x :: xs) (x :: ys).

#[global] Hint Constructors lex_lt : core.

(** The index that [take] waits for and those to come are strictly
    increasing. *)
Definition ascending (idx : Z) (indices : cursor Z) : Prop :=
  match indices with
  | Finite l => StronglySorted Z.lt (idx :: l)
  | Infinite f => (idx < f O)%Z /\ forall k, (f k < f (S k))%Z
  end.

(** A strictly increasing sequence of indices that are not negative. *)
Definition increasing_indices (indices : cursor Z) : Prop :=
  ascending (-1) indices.

(** The indices to come that can lie within [m] items: all of them, or the
    first [m] of a sequence without end. *)
Definition leading (m : nat) (indices : cursor Z) : list Z :=
  match indices with
  | Finite l => l
  | Infinite f => map f (seq 0 m)
  end.

(** An index vector in [[0, n)], strictly increasing. *)
Definition increasing_below (n : nat) (iv : list nat) : Prop :=
  StronglySorted lt iv /\ Forall (fun i => i < n) iv.

Section Reference.
Context {A : Type}.

(** The [k]-element sublists of [l], each with the sublist of what it
    leaves out, those with the head of [l] first. *)
Fixpoint choose (k : nat) (l : list A) : list (list A * list A) :=
  match k, l with
  | O, _ => [([], l)]
  | S _, [] => []
  | S k', x :: l' =>
      map (fun cr => (x :: fst cr, snd cr)) (choose k' l')
      ++ map (fun cr => (fst cr, x :: snd cr)) (choose k l')
  end.

(** The combination that [array_combinations] yields for a sublist and
    what it leaves out, when the store holds [unused]. *)
Definition as_combo (unused : option (list A)) (cr : list A * list A)
  : combo A :=
  Combo (fst cr) (option_map (fun u => u ++ snd cr) unused).

(** The arrangements of [l], by the position of the item put first; [d]
    bounds the length of [l]. *)
Fixpoint arrangements (undefined : A) (d : nat) (l : list A)
  : list (list A) :=
  match d with
  | O => [l]
  | S d' =>
      if length l <=? 1 then [l]
      else flat_map (fun i =>
             map (cons (nth i l undefined))
               (arrangements undefined d' (toSpliced i l)))
           (seq 0 (length l))
  end.

(** The ways to split [l] into groups of the given sizes, in order: the
    first group is chosen, the rest is split in the same way. *)
Fixpoint splits (sizes : list nat) (l : list A) : list (list (list A)) :=
  match sizes with
  | [] => []
  | [_] => [[l]]
  | s :: sizes' =>
      flat_map (fun cr => map (cons (fst cr)) (splits sizes' (snd cr)))
        (choose s l)
  end.

(** The items of a pool at the positions of an index vector. *)
Definition pick (undefined : A) (pool : list A) (iv : list nat) : list A :=
  map (fun i => nth i pool undefined) iv.

(** The recursive definition of the cartesian product: of one sequence,
    each element as a singleton tuple; of more, for each element [a] of
    the first, in order, every tuple [a :: t] for [t] in the product of
    the remaining ones. *)
Fixpoint product_reference (seqs : list (list A)) : list (list A) :=
  match seqs with
  | [] => []
  | [seq1] => map (fun a => [a]) seq1
  | seq1 :: remaining =>
      flat_map (fun a => map (cons a) (product_reference remaining)) seq1
  end.

(** The element of [src] at index [i], if there is one. *)
Definition element_at (src : list A) (i : Z) : list A :=
  if (i <? 0)%Z then []
  else match nth_error src (Z.to_nat i) with
       | Some v => [v]
       | None => []
       end.

(** The elements that an iterable holds, when it is finite. *)
Definition holds (i : iterable A) (pool : list A) : Prop :=
  i = Arr pool \/ i = Iter (Finite pool).

End Reference.

(** The value that the [j]-th call of [next] gets from an iterator, if it
    is not done then. *)
Definition cursor_nth {V : Type} (c : cursor V) (j : nat) : option V :=
  match c with
  | Finite rest => nth_error rest j
  | Infinite f => Some (f j)
  end.

(** The tuple of the [j]-th values of the iterators. *)
Definition tuple_at {V : Type} (cs : list (cursor V)) (j : nat) : list V :=
  values (map (fun c => cursor_nth c j) cs).

(** The list cut into consecutive pairs; an odd last element is left out. *)
Fixpoint pairs {V : Type} (l : list V) : list (list V) :=
  match l with
  | a :: b :: l' => [a; b] :: pairs l'
  | _ => []
  end.

(** The number of steps of size [step > 0] that it takes to cover a
    distance: the distance over the step, rounded up, and 0 for a distance
    that is not positive. *)
Definition steps_between (distance step : Z) : nat :=
  Z.to_nat ((distance + step - 1) / step).

(** A tuple with its [j]-th member taken from the [j]-th sequence. *)
Definition member_wise {V : Type} (t : list V) (seqs : list (list V)) : Prop :=
  Forall2 (fun x s => In x s) t seqs.

(** What an argument holds in a store of finite iterator objects: an
    array itself, an object what is left of it. *)
Definition held {V : Type} (h : Shared.store V) (a : Shared.argument V)
  : list V :=
  match a with
  | Shared.Array l => l
  | Shared.Object place =>
      match nth_error h place with
      | Some (Finite rest) => rest
      | _ => []
      end
  end.

(** The places of the iterator objects among the arguments of a call. *)
Definition objects {V : Type} (args : list (Shared.argument V)) : list nat :=
  flat_map (fun a =>
    match a with
    | Shared.Array _ => []
    | Shared.Object place => [place]
    end) args.

(** The iterator object at a place of the store; a place without an object
    counts as an exhausted one. *)
Definition object_at {V : Type} (h : Shared.store V) (place : nat)
  : cursor V :=
  match nth_error h place with
  | Some c => c
  | None => Finite []
  end.

(** The iterator that a call gets for an argument: a new one over an array,
    or the object itself. *)
Definition cursor_in {V : Type} (h : Shared.store V)
  (a : Shared.argument V) : cursor V :=
  match a with
  | Shared.Array l => Finite l
  | Shared.Object place => object_at h place
  end.

(** A value of [array_combinations] carries the selection of a choice and,
    as its last element, the array [unused] itself or a copy of its
    contents [u] followed by what the choice leaves out. *)
Definition carries {A : Type} (u : list A) (c : Aliased.value A)
  (cr : list A * list A) : Prop :=
  Aliased.items c = fst cr
  /\ (Aliased.unused_of c = Some Aliased.TheUnused
      \/ Aliased.unused_of c = Some (Aliased.Copied (u ++ snd cr))).

(** ** Runs of generator bodies *)

Section GenLemmas.
Context {St B : Type}.

Lemma bind_done {X Y} (m : Gen St B X) (k : X -> Gen St B Y) s out x s' :
  m s = (out, Done (x, s')) ->
  G.bind m k s = (out ++ fst (k x s'), snd (k x s')).
Proof.
  intros Hm. unfold G.bind. rewrite Hm. destruct (k x s'); reflexivity.
Qed.

Lemma bind_threw {X Y} (m : Gen St B X) (k : X -> Gen St B Y) s out e :
  m s = (out, Threw e) -> G.bind m k s = (out, Threw e).
Proof. intros Hm. unfold G.bind. rewrite Hm. reflexivity. Qed.

Lemma bind_timeout {X Y} (m : Gen St B X) (k : X -> Gen St B Y) s out :
  m s = (out, Timeout) -> G.bind m k s = (out, Timeout).
Proof. intros Hm. unfold G.bind. rewrite Hm. reflexivity. Qed.

Lemma bind_get {Y} (k : St -> Gen St B Y) s :
  G.bind G.get k s = k s s.
Proof. unfold G.bind, G.get. destruct (k s s); reflexivity. Qed.

Lemma bind_modify {Y} (f : St -> St) (k : unit -> Gen St B Y) s :
  G.bind (G.modify f) k s = k tt (f s).
Proof. unfold G.bind, G.modify. destruct (k tt (f s)); reflexivity. Qed.

Lemma bind_ret {X Y} (x : X) (k : X -> Gen St B Y) s :
  G.bind (G.ret x) k s = k x s.
Proof. unfold G.bind, G.ret. destruct (k x s); reflexivity. Qed.

End GenLemmas.

Lemma prefix_done {St A B} `{Spread A B} (item : A) (g : Gen St B unit)
  s out r :
  g s = (out, r) -> prefix item g s = (map (spread_cons item) out, r).
Proof. intros Hg. unfold prefix. rewrite Hg. reflexivity. Qed.

(** ** [choose] and the run of [array_combinations] *)

Section ChooseLemmas.
Context {A : Type}.

Lemma choose_too_many (l : list A) :
  forall k, length l < k -> choose k l = [].
Proof.
  induction l as [|x l IH]; intros k Hk.
  - destruct k; [inversion Hk | reflexivity].
  - destruct k as [|k]; [inversion Hk|].
    simpl in Hk. cbn [choose].
    rewrite (IH k), (IH (S k)) by lia. reflexivity.
Qed.

Lemma choose_all (l : list A) : choose (length l) l = [(l, [])].
Proof.
  induction l as [|x l IH]; [reflexivity|].
  cbn [length choose]. rewrite IH, choose_too_many by lia. reflexivity.
Qed.

Lemma choose_zero (l : list A) : choose 0 l = [([], l)].
Proof. destruct l; reflexivity. Qed.

Lemma choose_one_unused (u : list A) (suffix : list A) :
  forall (pre : list A),
    mapi_from (length pre)
      (fun item i => Combo [item] (Some (u ++ toSpliced i (pre ++ suffix))))
      suffix
    = map (as_combo (Some (u ++ pre))) (choose 1 suffix).
Proof.
  induction suffix as [|x s IH]; intros pre; [reflexivity|].
  cbn [mapi_from choose]. rewrite choose_zero. cbn [map app].
  f_equal.
  - unfold as_combo, toSpliced; cbn [fst snd option_map].
    rewrite firstn_app, skipn_app, firstn_all, Nat.sub_diag.
    replace (length pre + 1 - length pre) with 1 by lia.
    rewrite skipn_all2 by lia.
    cbn. rewrite app_nil_r, <- app_assoc. reflexivity.
  - specialize (IH (pre ++ [x])).
    rewrite length_app in IH. cbn [length] in IH.
    rewrite <- app_assoc in IH. cbn [app] in IH.
    rewrite IH, map_map. apply map_ext. intros [c r].
    unfold as_combo; cbn [fst snd option_map].
    rewrite <- !app_assoc. reflexivity.
Qed.

Lemma choose_one_plain (l : list A) :
  map (fun item => Combo [item] None) l = map (as_combo None) (choose 1 l).
Proof.
  induction l as [|x l IH]; [reflexivity|].
  cbn [map choose]. rewrite choose_zero. cbn [map app].
  rewrite IH, map_map. reflexivity.
Qed.

Lemma as_combo_push (unused : option (list A)) (x : A) (cr : list A * list A) :
  as_combo (option_map (fun u => u ++ [x]) unused) cr
  = as_combo unused (fst cr, x :: snd cr).
Proof.
  unfold as_combo. destruct unused as [u|]; cbn; [|reflexivity].
  rewrite <- app_assoc. reflexivity.
Qed.

Lemma pop_push (unused : option (list A)) (x : A) :
  option_map (@removelast A) (option_map (fun u => u ++ [x]) unused)
  = unused.
Proof.
  destruct unused as [u|]; cbn; [|reflexivity].
  rewrite removelast_last. reflexivity.
Qed.

Variable undefined : A.

(** Within its range, [array_combinations] yields the sublists of the
    array of length [n], each with the store contents followed by what it
    leaves out, returns, and leaves the store as it was. *)
Lemma array_combinations_run (array : list A) :
  forall (fuel : nat) (n : Z) (unused : option (list A)),
    (1 <= n <= Z.of_nat (length array))%Z ->
    length array < fuel ->
    array_combinations undefined fuel array (Int n) unused
    = (map (as_combo unused) (choose (Z.to_nat n) array),
       Done (tt, unused)).
Proof.
  induction array as [|x rest IH]; intros fuel n unused Hn Hfuel.
  - simpl in Hn. lia.
  - destruct fuel as [|fuel']; [lia|].
    cbn [array_combinations].
    assert (Hguard : Num.le (Int n) (Int 0)
                     || Num.gt (Int n) (Num.length (x :: rest)) = false).
    { unfold Num.gt, Num.lt, Num.le, Num.length.
      apply orb_false_iff; split; lia. }
    rewrite Hguard, bind_get.
    cbn [length] in Hn, Hfuel.
    destruct (Z.eq_dec n 1) as [->|Hn1].
    + cbn [Num.eq]. rewrite Z.eqb_refl.
      change (Z.to_nat 1) with 1.
      destruct unused as [u|].
      * unfold G.of_array, mapi. f_equal.
        pose proof (choose_one_unused u (x :: rest) []) as H.
        cbn [length app] in H. rewrite app_nil_r in H. exact H.
      * unfold G.of_array. f_equal. apply choose_one_plain.
    + assert (Hne : Num.eq (Int n) (Int 1) = false).
      { cbn [Num.eq]. lia. }
      rewrite Hne.
      destruct (Z.eq_dec n (Z.of_nat (length (x :: rest)))) as [->|Hlen].
      * unfold Num.length. cbn [Num.eq]. rewrite Z.eqb_refl.
        rewrite Nat2Z.id, choose_all.
        unfold G.yield, as_combo. cbn [map fst snd].
        destruct unused; cbn [option_map]; rewrite ?app_nil_r; reflexivity.
      * assert (Hne' : Num.eq (Int n) (Num.length (x :: rest)) = false).
        { unfold Num.length. cbn [Num.eq]. lia. }
        rewrite Hne'. cbn [hd tl Num.pred]. cbn [length] in Hlen.
        assert (Hk : Z.to_nat n = S (Z.to_nat (n - 1))) by lia.
        rewrite Hk. cbn [choose]. rewrite <- Hk.
        erewrite bind_done;
          [|apply prefix_done; apply IH; lia].
        cbv beta. rewrite bind_modify.
        erewrite bind_done; [|apply IH; lia].
        unfold G.modify. cbn [fst snd].
        rewrite pop_push, app_nil_r, map_app, !map_map.
        f_equal. f_equal.
        apply map_ext. intros cr. apply as_combo_push.
Qed.

End ChooseLemmas.

(** ** Counting: binomial coefficients and factorials *)

Lemma binomial_too_many (n : nat) : forall k, n < k -> binomial n k = 0.
Proof.
  induction n as [|n IH]; intros [|k] Hk; try lia; [reflexivity|].
  cbn [binomial]. rewrite !IH by lia. reflexivity.
Qed.

Lemma binomial_all (n : nat) : binomial n n = 1.
Proof.
  induction n as [|n IH]; [reflexivity|].
  cbn [binomial]. rewrite IH, binomial_too_many by lia. reflexivity.
Qed.

Lemma binomial_zero (n : nat) : binomial n 0 = 1.
Proof. destruct n; reflexivity. Qed.

Lemma binomial_fact (n : nat) :
  forall k, k <= n -> binomial n k * (fact k * fact (n - k)) = fact n.
Proof.
  induction n as [|n IH]; intros k Hk.
  - replace k with 0 by lia. reflexivity.
  - destruct k as [|k].
    + rewrite binomial_zero, Nat.sub_0_r. cbn [fact]. lia.
    + cbn [binomial]. destruct (Nat.eq_dec k n) as [->|Hne].
      * rewrite binomial_all, binomial_too_many, Nat.sub_diag by lia.
        cbn [fact]. lia.
      * pose proof (IH k ltac:(lia)) as H1.
        pose proof (IH (S k) ltac:(lia)) as H2.
        replace (n - k) with (S (n - S k)) in H1 by lia.
        replace (S n - S k) with (S (n - S k)) by lia.
        set (m := n - S k) in *.
        assert (Hn : S n = S k + S m) by lia.
        assert (E1 : fact (S k) = S k * fact k) by reflexivity.
        assert (E2 : fact (S m) = S m * fact m) by reflexivity.
        assert (E3 : fact (S n) = S n * fact n) by reflexivity.
        transitivity (S k * (binomial n k * (fact k * fact (S m)))
                      + S m * (binomial n (S k) * (fact (S k) * fact m))).
        -- rewrite E2, E1. ring.
        -- rewrite H1, H2, E3, Hn. ring.
Qed.

Lemma binomial_quotient (n k : nat) :
  k <= n -> binomial n k = fact n / (fact k * fact (n - k)).
Proof.
  intros Hk. rewrite <- (binomial_fact Hk).
  rewrite Nat.div_mul; [reflexivity|].
  pose proof (fact_neq_0 k). pose proof (fact_neq_0 (n - k)). lia.
Qed.

Lemma binomial_pos (n : nat) : forall k, k <= n -> 0 < binomial n k.
Proof.
  induction n as [|n IH]; intros [|k] Hk; cbn [binomial]; try lia.
  destruct (Nat.eq_dec k n) as [->|Hne].
  - rewrite binomial_all. lia.
  - pose proof (IH k ltac:(lia)). lia.
Qed.

(** ** Properties of [choose] *)

Section ChooseProps.
Context {A : Type}.

Lemma choose_count (l : list A) :
  forall k, length (choose k l) = binomial (length l) k.
Proof.
  induction l as [|x l IH]; intros [|k]; try reflexivity.
  cbn [choose length binomial].
  rewrite length_app, !length_map, !IH. reflexivity.
Qed.

Lemma choose_natural {B : Type} (f : A -> B) (l : list A) :
  forall k,
    choose k (map f l)
    = map (fun cr => (map f (fst cr), map f (snd cr))) (choose k l).
Proof.
  induction l as [|x l IH]; intros [|k]; try reflexivity.
  cbn [choose map]. rewrite !IH, map_app, !map_map. reflexivity.
Qed.

(** A sublist of length [k], and what it leaves out. *)
Lemma choose_In (l : list A) :
  forall k c r,
    In (c, r) (choose k l) ->
    length c = k /\ Permutation (c ++ r) l /\ incl c l.
Proof.
  induction l as [|x l IH]; intros [|k] c r Hin.
  - destruct Hin as [[= <- <-]|[]].
    repeat split; auto using incl_refl.
  - destruct Hin.
  - destruct Hin as [[= <- <-]|[]].
    repeat split; auto. intros y [].
  - cbn [choose] in Hin. apply in_app_or in Hin as [Hin|Hin];
      apply in_map_iff in Hin as ([c' r'] & [= <- <-] & Hin);
      apply IH in Hin as (Hlen & Hperm & Hincl); cbn [fst snd].
    + repeat split.
      * cbn. lia.
      * cbn. constructor. exact Hperm.
      * intros y [->|Hy]; [left; reflexivity | right; auto].
    + repeat split.
      * exact Hlen.
      * rewrite <- Hperm. symmetry. apply Permutation_middle.
      * intros y Hy. right; auto.
Qed.

Lemma choose_nonempty (l : list A) (k : nat) :
  k <= length l -> choose k l <> [].
Proof.
  intros Hk Hnil. pose proof (binomial_pos Hk) as Hpos.
  rewrite <- choose_count, Hnil in Hpos. inversion Hpos.
Qed.

End ChooseProps.

(** ** Order of the index vectors *)

Lemma StronglySorted_app_between {T : Type} (R : T -> T -> Prop)
  (l1 l2 : list T) :
  StronglySorted R l1 -> StronglySorted R l2 ->
  (forall a b, In a l1 -> In b l2 -> R a b) ->
  StronglySorted R (l1 ++ l2).
Proof.
  intros H1 H2 Hcross. induction H1 as [|a l1 Hs IH Hall]; [exact H2|].
  cbn. constructor.
  - apply IH. intros; apply Hcross; [right|]; assumption.
  - apply Forall_app; split; [exact Hall|].
    apply Forall_forall. intros b Hb. apply Hcross; [left; reflexivity|exact Hb].
Qed.

Lemma lex_sorted_cons (x : nat) (ivs : list (list nat)) :
  StronglySorted lex_lt ivs -> StronglySorted lex_lt (map (cons x) ivs).
Proof.
  induction 1 as [|iv ivs Hs IH Hall]; cbn; constructor; [exact IH|].
  apply Forall_map. revert Hall. apply Forall_impl. auto.
Qed.

Lemma lex_lt_irrefl (iv : list nat) : ~ lex_lt iv iv.
Proof.
  induction iv as [|x iv IH]; intros H; inversion H; subst; [lia|auto].
Qed.

Lemma lex_sorted_NoDup (ivs : list (list nat)) :
  StronglySorted lex_lt ivs -> NoDup ivs.
Proof.
  induction 1 as [|iv ivs Hs IH Hall]; constructor; [|exact IH].
  intros Hin. rewrite Forall_forall in Hall.
  exact (lex_lt_irrefl (Hall _ Hin)).
Qed.

(** The sublists of a strictly increasing list are strictly increasing, and
    [choose] yields them in lexicographic order. *)
Lemma choose_increasing (l : list nat) (k : nat) (c r : list nat) :
  StronglySorted lt l -> In (c, r) (choose k l) -> StronglySorted lt c.
Proof.
  intros Hl. revert k c r.
  induction Hl as [|x l Hs IH Hall]; intros [|k] c r Hin.
  - destruct Hin as [[= <- <-]|[]]. constructor.
  - destruct Hin.
  - destruct Hin as [[= <- <-]|[]]. constructor.
  - cbn [choose] in Hin. apply in_app_or in Hin as [Hin|Hin];
      apply in_map_iff in Hin as ([c' r'] & [= <- <-] & Hin); cbn [fst snd].
    + constructor; [exact (IH _ _ _ Hin)|].
      apply choose_In in Hin as (_ & _ & Hincl).
      rewrite Forall_forall in *. auto.
    + exact (IH _ _ _ Hin).
Qed.

Lemma choose_lex_sorted (l : list nat) :
  StronglySorted lt l ->
  forall k, StronglySorted lex_lt (map fst (choose k l)).
Proof.
  induction 1 as [|x l Hs IH Hall]; intros [|k]; cbn [choose map];
    try (repeat constructor).
  rewrite map_app, !map_map. cbn [fst].
  apply StronglySorted_app_between.
  - rewrite <- (map_map fst (cons x)). apply lex_sorted_cons, IH.
  - apply IH.
  - intros a b Ha Hb.
    apply in_map_iff in Ha as ([c r] & <- & Ha).
    apply in_map_iff in Hb as ([c' r'] & <- & Hb). cbn [fst].
    apply choose_In in Hb as (Hlen & _ & Hincl).
    destruct c' as [|y c']; [discriminate|].
    apply lex_lt_head. rewrite Forall_forall in Hall.
    apply Hall, Hincl. left; reflexivity.
Qed.

Lemma seq_increasing (len start : nat) : StronglySorted lt (seq start len).
Proof.
  revert start. induction len as [|len IH]; intros start; cbn; constructor.
  - apply IH.
  - apply Forall_forall. intros y Hy. apply in_seq in Hy. lia.
Qed.

Lemma pick_seq {A : Type} (undefined : A) (pool : list A) :
  pick undefined pool (seq 0 (length pool)) = pool.
Proof.
  unfold pick. apply nth_ext with (d := undefined) (d' := undefined).
  - rewrite length_map, length_seq. reflexivity.
  - intros i Hi. rewrite length_map, length_seq in Hi.
    rewrite (nth_indep _ undefined (nth (length pool) pool undefined))
      by (rewrite length_map, length_seq; exact Hi).
    rewrite (map_nth (fun i => nth i pool undefined)), seq_nth by exact Hi.
    reflexivity.
Qed.

(** ** [combinations] *)

Section CombinationsProps.
Context {A : Type}.
Variable undefined : A.

Lemma spread_holds (i : iterable A) (pool : list A) :
  holds i pool -> spread i = Done pool.
Proof. intros [-> | ->]; reflexivity. Qed.

Lemma with_array_holds {B : Type} (i : iterable A) (pool : list A)
  (g : list A -> trace B unit) :
  holds i pool -> with_array i g = g pool.
Proof.
  intros Hi. unfold with_array. rewrite (spread_holds Hi). reflexivity.
Qed.

Lemma array_combinations_out_of_range (fuel : nat) (array : list A)
  (n : Z) (unused : option (list A)) :
  (n <= 0 \/ Z.of_nat (length array) < n)%Z ->
  array_combinations undefined (S fuel) array (Int n) unused
  = ([], Threw (RangeError range_message)).
Proof.
  intros Hn. cbn [array_combinations].
  assert (Hguard : Num.le (Int n) (Int 0)
                   || Num.gt (Int n) (Num.length array) = true).
  { unfold Num.gt, Num.lt, Num.le, Num.length.
    apply orb_true_iff. destruct Hn; [left|right]; lia. }
  rewrite Hguard. reflexivity.
Qed.


Lemma combinations_run (fuel : nat) (i : iterable A) (pool : list A)
  (r : Z) (return_unused : bool) :
  holds i pool ->
  (1 <= r <= Z.of_nat (length pool))%Z ->
  length pool < fuel ->
  combinations undefined fuel i (Int r) return_unused
  = (map (as_combo (if return_unused then Some [] else None))
       (choose (Z.to_nat r) pool), Done tt).
Proof.
  intros Hi Hr Hfuel. unfold combinations.
  rewrite (with_array_holds _ Hi). unfold G.run.
  rewrite array_combinations_run by assumption.
  reflexivity.
Qed.

Lemma combinations_out_of_range (fuel : nat) (i : iterable A)
  (pool : list A) (r : Z) (return_unused : bool) :
  holds i pool ->
  (r <= 0 \/ Z.of_nat (length pool) < r)%Z ->
  0 < fuel ->
  combinations undefined fuel i (Int r) return_unused
  = ([], Threw (RangeError range_message)).
Proof.
  intros Hi Hr Hfuel. destruct fuel as [|fuel]; [inversion Hfuel|].
  unfold combinations. rewrite (with_array_holds _ Hi). unfold G.run.
  rewrite array_combinations_out_of_range by assumption.
  reflexivity.
Qed.

End CombinationsProps.

(** C1, for [1 <= r <= n]: [combinations(pool, r)] yields the items of the
    pool at the index vectors that it yields for the pool of the positions
    [0 .. n-1]; there are n!/(r!(n-r)!) of them, each of length [r],
    strictly increasing and within the pool, and they come in strictly
    increasing lexicographic order, hence are pairwise distinct;
    [combinations([a,b,c,d], 2)] yields [a,b], [a,c], [a,d], [b,c], [b,d],
    [c,d] in this order. *)
Theorem combinations_index_vectors {A : Type} (undefined : A)
  (i : iterable A) (pool : list A) (r : Z) (fuel : nat) :
  holds i pool ->
  (1 <= r <= Z.of_nat (length pool))%Z ->
  length pool < fuel ->
  let n := length pool in
  let k := Z.to_nat r in
  let ivs :=
    map picked (yielded (combinations 0 fuel (Arr (seq 0 n)) (Int r) false)) in
  combinations undefined fuel i (Int r) false
  = (map (fun iv => Combo (pick undefined pool iv) None) ivs, Done tt)
  /\ length ivs * (fact k * fact (n - k)) = fact n
  /\ length ivs = fact n / (fact k * fact (n - k))
  /\ Forall (fun iv => length iv = k /\ increasing_below n iv) ivs
  /\ StronglySorted lex_lt ivs
  /\ NoDup ivs
  /\ (forall a b c d : A,
        combinations undefined 5 (Arr [a; b; c; d]) (Int 2) false
        = ([Combo [a; b] None; Combo [a; c] None; Combo [a; d] None;
            Combo [b; c] None; Combo [b; d] None; Combo [c; d] None],
           Done tt)).
Proof.
  intros Hi Hr Hfuel n k ivs.
  assert (Hk : k <= n) by (subst k n; lia).
  assert (Hivs : ivs = map fst (choose k (seq 0 n))).
  { subst ivs. rewrite (combinations_run 0 false (pool := seq 0 n));
      [ | left; reflexivity | rewrite length_seq; exact Hr
        | rewrite length_seq; exact Hfuel ].
    unfold yielded. cbn [fst]. rewrite map_map. reflexivity. }
  assert (Hsorted : StronglySorted lex_lt ivs).
  { rewrite Hivs. apply choose_lex_sorted, seq_increasing. }
  assert (Hcount : length ivs = binomial n k).
  { rewrite Hivs, length_map, choose_count, length_seq. reflexivity. }
  split; [|split; [|split; [|split; [|split; [|split]]]]].
  - rewrite (combinations_run undefined false Hi Hr Hfuel), Hivs, map_map.
    rewrite <- (pick_seq undefined pool) at 1.
    unfold pick at 1. fold n. fold k. rewrite choose_natural, map_map.
    reflexivity.
  - rewrite Hcount. apply binomial_fact, Hk.
  - rewrite Hcount. apply binomial_quotient, Hk.
  - rewrite Hivs. apply Forall_forall. intros iv Hiv.
    apply in_map_iff in Hiv as ([c rest] & <- & Hin). cbn [fst].
    pose proof (choose_increasing _ _ _ (seq_increasing n 0) Hin) as Hinc.
    apply choose_In in Hin as (Hlen & _ & Hincl).
    split; [exact Hlen|]. split; [exact Hinc|].
    apply Forall_forall. intros j Hj. apply Hincl, in_seq in Hj. lia.
  - exact Hsorted.
  - apply lex_sorted_NoDup, Hsorted.
  - reflexivity.
Qed.

Lemma combinations_index_vectors_witness :
  holds (Arr [10; 20; 30]%Z) [10; 20; 30]%Z
  /\ (1 <= 2 <= Z.of_nat (length [10; 20; 30]%Z))%Z
  /\ length [10; 20; 30]%Z < 4
  /\ combinations 0%Z 4 (Arr [10; 20; 30]%Z) (Int 2) false
     = (map (fun iv => Combo (pick 0%Z [10; 20; 30]%Z iv) None)
          (map picked
             (yielded (combinations 0 4 (Arr (seq 0 3)) (Int 2) false))),
        Done tt).
Proof.
  assert (H1 : holds (Arr [10; 20; 30]%Z) [10; 20; 30]%Z)
    by (left; reflexivity).
  assert (H2 : (1 <= 2 <= Z.of_nat (length [10; 20; 30]%Z))%Z)
    by (simpl; lia).
  assert (H3 : length [10; 20; 30]%Z < 4) by (simpl; lia).
  refine (conj H1 (conj H2 (conj H3 _))).
  exact (proj1 (combinations_index_vectors 0%Z H1 H2 H3)).
Defined.

(** The claim as written also covers [r = 0], where it asks for one output;
    [combinations] throws there, whatever the budget. *)
Lemma combinations_zero_counterexample :
  ~ (exists fuel : nat,
       length (yielded (combinations 0%Z fuel (Arr [7%Z]) (Int 0) false))
       = fact 1 / (fact 0 * fact (1 - 0))).
Proof.
  intros [fuel H]. destruct fuel as [|fuel]; cbv in H; discriminate.
Qed.

(** C6: [combinations(pool, r)] throws a RangeError, before it yields
    anything, exactly when [r <= 0] or [r > |pool|]; for [1 <= r <= |pool|]
    the run ends by returning, with no error at any point. *)
Theorem combinations_range_error {A : Type} (undefined : A)
  (i : iterable A) (pool : list A) (r : Z) (return_unused : bool)
  (fuel : nat) :
  holds i pool ->
  length pool < fuel ->
  let run := combinations undefined fuel i (Int r) return_unused in
  ((r <= 0 \/ Z.of_nat (length pool) < r)%Z ->
     run = ([], Threw (RangeError range_message)))
  /\ ((1 <= r <= Z.of_nat (length pool))%Z -> ending run = Done tt)
  /\ ((exists e, ending run = Threw e)
      <-> (r <= 0 \/ Z.of_nat (length pool) < r)%Z).
Proof.
  intros Hi Hfuel run.
  assert (Hout : (r <= 0 \/ Z.of_nat (length pool) < r)%Z ->
                 run = ([], Threw (RangeError range_message))).
  { intros Hr.
    apply (combinations_out_of_range undefined return_unused Hi Hr). lia. }
  assert (Hin : (1 <= r <= Z.of_nat (length pool))%Z -> ending run = Done tt).
  { intros Hr. subst run.
    rewrite (combinations_run undefined return_unused Hi Hr Hfuel).
    reflexivity. }
  split; [exact Hout|]. split; [exact Hin|]. split.
  - intros [e He].
    destruct (Z_le_gt_dec r 0) as [|Hpos]; [left; assumption|].
    destruct (Z_lt_le_dec (Z.of_nat (length pool)) r) as [|Hle];
      [right; assumption|].
    rewrite Hin in He by lia. discriminate.
  - intros Hr. rewrite (Hout Hr). eexists. reflexivity.
Qed.

Lemma combinations_range_error_witness :
  holds (Arr [10; 20; 30]%Z) [10; 20; 30]%Z
  /\ length [10; 20; 30]%Z < 4
  /\ ending (combinations 0%Z 4 (Arr [10; 20; 30]%Z) (Int 2) true) = Done tt.
Proof.
  assert (H1 : holds (Arr [10; 20; 30]%Z) [10; 20; 30]%Z)
    by (left; reflexivity).
  assert (H2 : length [10; 20; 30]%Z < 4) by (simpl; lia).
  refine (conj H1 (conj H2 _)).
  apply (combinations_range_error 0%Z 2%Z true H1 H2). simpl; lia.
Defined.

(** ** List facts used below *)

Lemma flat_map_ext_in {T U : Type} (f g : T -> list U) (l : list T) :
  (forall x, In x l -> f x = g x) -> flat_map f l = flat_map g l.
Proof.
  induction l as [|x l IH]; intros H; [reflexivity|].
  cbn. rewrite H by (left; reflexivity). rewrite IH; [reflexivity|].
  intros y Hy. apply H. right; exact Hy.
Qed.

Lemma map_flat_map {T U W : Type} (g : U -> W) (f : T -> list U)
  (l : list T) :
  map g (flat_map f l) = flat_map (fun x => map g (f x)) l.
Proof.
  induction l as [|x l IH]; [reflexivity|].
  cbn. rewrite map_app, IH. reflexivity.
Qed.

Lemma NoDup_map_cons {T : Type} (a : T) (ls : list (list T)) :
  NoDup ls -> NoDup (map (cons a) ls).
Proof.
  induction 1 as [|l ls Hnotin Hnd IH]; cbn; constructor; [|exact IH].
  intros Hin. apply in_map_iff in Hin as (l' & [= ->] & Hin). auto.
Qed.

Lemma NoDup_flat_map {T U : Type} (f : T -> list U) (l : list T) :
  (forall x, In x l -> NoDup (f x)) ->
  (forall x y z, In x l -> In y l -> In z (f x) -> In z (f y) -> x = y) ->
  NoDup l -> NoDup (flat_map f l).
Proof.
  intros Heach Hcross Hnd. induction Hnd as [|x l Hnotin Hnd IH]; cbn.
  - constructor.
  - apply NoDup_app.
    + apply Heach. left; reflexivity.
    + apply IH.
      * intros y Hy. apply Heach. right; exact Hy.
      * intros y y' z Hy Hy'. apply Hcross; right; assumption.
    + intros z Hz Hz'. apply in_flat_map in Hz' as (y & Hy & Hz').
      assert (x = y) by
        (apply (Hcross x y z); [left; reflexivity | right; exact Hy | | ];
         assumption).
      subst y. auto.
Qed.

(** ** [array.splice] and [array.toSpliced] *)

Section Splice.
Context {A : Type}.
Variable undefined : A.

Lemma toSpliced_split (l : list A) :
  forall i, i < length l ->
    l = firstn i l ++ nth i l undefined :: skipn (i + 1) l.
Proof.
  induction l as [|x l IH]; intros [|i] Hi; cbn in Hi; try lia.
  - reflexivity.
  - cbn. f_equal. apply IH. lia.
Qed.

Lemma toSpliced_length (l : list A) (i : nat) :
  i < length l -> length (toSpliced i l) = length l - 1.
Proof.
  intros Hi. unfold toSpliced.
  rewrite length_app, length_firstn, length_skipn. lia.
Qed.

Lemma toSpliced_Permutation (l : list A) (i : nat) :
  i < length l -> Permutation (nth i l undefined :: toSpliced i l) l.
Proof.
  intros Hi. rewrite (toSpliced_split l Hi) at 3.
  apply Permutation_middle.
Qed.

Lemma splice_out_item (l : list A) :
  forall i, i < length l ->
    hd undefined (firstn 1 (skipn i l)) = nth i l undefined.
Proof.
  induction l as [|x l IH]; intros [|i] Hi; cbn in Hi; try lia.
  - reflexivity.
  - cbn [skipn nth]. apply IH. lia.
Qed.

Lemma splice_in_toSpliced (l : list A) :
  forall i, i < length l ->
    splice_in i (nth i l undefined) (toSpliced i l) = l.
Proof.
  induction l as [|x l IH]; intros [|i] Hi; cbn in Hi; try lia.
  - reflexivity.
  - unfold splice_in, toSpliced in *. cbn. f_equal. apply IH. lia.
Qed.

Lemma toSpliced_map {B : Type} (f : B -> A) (l : list B) (i : nat) :
  toSpliced i (map f l) = map f (toSpliced i l).
Proof.
  unfold toSpliced. rewrite map_app, firstn_map, skipn_map. reflexivity.
Qed.

End Splice.

(** ** [arrangements] and the run of [array_permutations] *)

Section PermutationsProps.
Context {A : Type}.
Variable undefined : A.

Lemma for_index_run {B : Type} (body : nat -> Gen (list A) B unit)
  (array : list A) (out : nat -> list B) :
  (forall j, j < length array -> body j array = (out j, Done (tt, array))) ->
  forall k i fuel,
    i + k = length array -> k < fuel ->
    for_index fuel i body array = (flat_map out (seq i k), Done (tt, array)).
Proof.
  intros Hbody. induction k as [|k IH]; intros i fuel Hik Hfuel;
    (destruct fuel as [|fuel]; [lia|]); cbn [for_index]; rewrite bind_get.
  - replace (i <? length array) with false
      by (symmetry; apply Nat.ltb_ge; lia).
    reflexivity.
  - replace (i <? length array) with true
      by (symmetry; apply Nat.ltb_lt; lia).
    erewrite bind_done; [|apply Hbody; lia]. cbv beta.
    rewrite IH by lia. cbn [fst snd seq flat_map].
    rewrite Nat.add_1_r. reflexivity.
Qed.

(** [array_permutations] yields the arrangements of the array, returns,
    and leaves the array as it was. *)
Lemma array_permutations_run (fuel : nat) :
  forall array,
    length array < fuel ->
    array_permutations undefined fuel array
    = (arrangements undefined fuel array, Done (tt, array)).
Proof.
  induction fuel as [|fuel IH]; intros array Hfuel; [lia|].
  cbn [array_permutations arrangements]. rewrite bind_get.
  destruct (length array <=? 1) eqn:Hlen; [reflexivity|].
  apply Nat.leb_gt in Hlen.
  apply for_index_run with
    (out := fun j => map (cons (nth j array undefined))
                       (arrangements undefined fuel (toSpliced j array)));
    [|lia|lia].
  intros j Hj. rewrite bind_get. unfold splice_out.
  fold (toSpliced j array).
  rewrite bind_modify, (splice_out_item undefined array Hj).
  erewrite bind_done;
    [|apply prefix_done, IH; rewrite toSpliced_length by exact Hj; lia].
  unfold G.modify. cbn [fst snd].
  rewrite app_nil_r, splice_in_toSpliced by exact Hj. reflexivity.
Qed.

Lemma arrangements_count (d : nat) :
  forall l, length l <= S d ->
    length (arrangements undefined d l) = fact (length l).
Proof.
  induction d as [|d IH]; intros l Hl.
  - destruct l as [|x [|y l]]; cbn in Hl; try lia; reflexivity.
  - cbn [arrangements]. destruct (length l <=? 1) eqn:Hlen.
    + apply Nat.leb_le in Hlen.
      destruct l as [|x [|y l]]; cbn in Hlen; try lia; reflexivity.
    + apply Nat.leb_gt in Hlen.
      rewrite flat_map_constant_length with (c := fact (length l - 1)).
      * rewrite length_seq.
        destruct (length l) as [|m]; [lia|].
        rewrite Nat.sub_succ, Nat.sub_0_r. reflexivity.
      * intros i Hi. apply in_seq in Hi.
        rewrite length_map, IH; rewrite toSpliced_length; lia.
Qed.

Lemma arrangements_Permutation (d : nat) :
  forall l p, In p (arrangements undefined d l) -> Permutation p l.
Proof.
  induction d as [|d IH]; intros l p Hp.
  - destruct Hp as [<-|[]]. reflexivity.
  - cbn [arrangements] in Hp. destruct (length l <=? 1).
    + destruct Hp as [<-|[]]. reflexivity.
    + apply in_flat_map in Hp as (i & Hi & Hp). apply in_seq in Hi.
      apply in_map_iff in Hp as (p' & <- & Hp').
      rewrite (IH _ _ Hp'). apply toSpliced_Permutation. lia.
Qed.

Lemma arrangements_NoDup (d : nat) :
  forall l, NoDup l -> NoDup (arrangements undefined d l).
Proof.
  induction d as [|d IH]; intros l Hl.
  - repeat constructor. intros [].
  - cbn [arrangements]. destruct (length l <=? 1).
    + repeat constructor. intros [].
    + apply NoDup_flat_map.
      * intros i Hi. apply in_seq in Hi.
        apply NoDup_map_cons, IH.
        assert (Hperm : Permutation (nth i l undefined :: toSpliced i l) l)
          by (apply toSpliced_Permutation; lia).
        pose proof (Permutation_NoDup (Permutation_sym Hperm) Hl) as Hnd.
        inversion Hnd; assumption.
      * intros i j p Hi Hj Hpi Hpj.
        apply in_seq in Hi. apply in_seq in Hj.
        apply in_map_iff in Hpi as (pi & <- & _).
        apply in_map_iff in Hpj as (pj & [= Heq _] & _).
        apply (proj1 (NoDup_nth l undefined) Hl); [lia|lia|].
        symmetry; exact Heq.
      * apply seq_NoDup.
Qed.

End PermutationsProps.

Lemma arrangements_natural {A B : Type} (f : B -> A) (undefined : A)
  (u0 : B) (d : nat) :
  forall l,
    arrangements undefined d (map f l)
    = map (map f) (arrangements u0 d l).
Proof.
  induction d as [|d IH]; intros l; [reflexivity|].
  cbn [arrangements]. rewrite length_map.
  destruct (length l <=? 1); [reflexivity|].
  rewrite map_flat_map. apply flat_map_ext_in. intros i Hi.
  apply in_seq in Hi.
  rewrite toSpliced_map, IH, !map_map.
  apply map_ext. intros p. cbn [map]. f_equal.
  rewrite (nth_indep _ undefined (f u0)) by (rewrite length_map; lia).
  apply map_nth.
Qed.

(** C2, for the full case: [permutations(pool)], which takes no [r],
    yields the items of the pool at the index tuples that it yields for
    the pool of the positions [0 .. n-1]; there are n! of them, each an
    arrangement of all the positions, pairwise distinct;
    [permutations([1,2,3])] yields [1,2,3], [1,3,2], [2,1,3], [2,3,1],
    [3,1,2], [3,2,1] in this order. *)
Theorem permutations_index_tuples {A : Type} (undefined : A)
  (i : iterable A) (pool : list A) (fuel : nat) :
  holds i pool ->
  length pool < fuel ->
  let n := length pool in
  let ts := yielded (permutations 0 fuel (Arr (seq 0 n))) in
  permutations undefined fuel i = (map (pick undefined pool) ts, Done tt)
  /\ length ts = fact n
  /\ NoDup ts
  /\ Forall (fun t => Permutation t (seq 0 n)) ts
  /\ (forall a b c : A,
        permutations undefined 4 (Arr [a; b; c])
        = ([[a; b; c]; [a; c; b]; [b; a; c]; [b; c; a]; [c; a; b]; [c; b; a]],
           Done tt)).
Proof.
  intros Hi Hfuel n ts.
  assert (Hts : ts = arrangements 0 fuel (seq 0 n)).
  { subst ts. unfold permutations, with_array, G.run. cbn [spread].
    rewrite array_permutations_run by (rewrite length_seq; exact Hfuel).
    reflexivity. }
  split; [|split; [|split; [|split]]].
  - unfold permutations. rewrite (with_array_holds _ Hi). unfold G.run.
    rewrite array_permutations_run by exact Hfuel.
    rewrite Hts. f_equal.
    rewrite <- (pick_seq undefined pool) at 1. unfold pick at 1. fold n.
    apply arrangements_natural.
  - rewrite Hts, arrangements_count; rewrite length_seq; [reflexivity|].
    subst n. lia.
  - rewrite Hts. apply arrangements_NoDup, seq_NoDup.
  - rewrite Hts. apply Forall_forall. intros t Ht.
    exact (arrangements_Permutation _ _ _ _ Ht).
  - reflexivity.
Qed.

Lemma permutations_index_tuples_witness :
  holds (Arr [10; 20; 30]%Z) [10; 20; 30]%Z
  /\ length [10; 20; 30]%Z < 4
  /\ length (yielded (permutations 0 4 (Arr (seq 0 3)))) = fact 3.
Proof.
  assert (H1 : holds (Arr [10; 20; 30]%Z) [10; 20; 30]%Z)
    by (left; reflexivity).
  assert (H2 : length [10; 20; 30]%Z < 4) by (simpl; lia).
  refine (conj H1 (conj H2 _)).
  exact (proj1 (proj2 (permutations_index_tuples 0%Z H1 H2))).
Defined.

(** The claim as written counts n!/(n-r)! outputs for every [r]; the
    generator has no such parameter (a second argument of a call is
    dropped), and for [n = 3], [r = 1] it yields 6 outputs; whatever the
    budget of the run, it does not yield 3. *)
Lemma permutations_r_counterexample :
  permutations 0%Z 4 (Arr [1; 2; 3]%Z)
  = ([[1; 2; 3]; [1; 3; 2]; [2; 1; 3]; [2; 3; 1]; [3; 1; 2]; [3; 2; 1]]%Z,
     Done tt)
  /\ ~ (exists fuel : nat,
          length (yielded (permutations 0%Z fuel (Arr [1; 2; 3]%Z)))
          = fact 3 / fact (3 - 1)).
Proof.
  split; [reflexivity|].
  intros [fuel H]. destruct fuel as [|[|[|[|fuel]]]]; cbv in H; discriminate.
Qed.

(** ** [splits] and the run of [array_partitions] *)

Section Loops.
Context {St A B : Type}.

Lemma for_each_run (body : A -> Gen St B unit) (out : A -> list B)
  (s : St) (array : list A) :
  (forall x, In x array -> body x s = (out x, Done (tt, s))) ->
  for_each array body s = (flat_map out array, Done (tt, s)).
Proof.
  induction array as [|x array IH]; intros Hbody; [reflexivity|].
  cbn [for_each flat_map].
  erewrite bind_done; [|apply Hbody; left; reflexivity]. cbv beta.
  rewrite IH; [reflexivity|]. intros y Hy. apply Hbody. right; exact Hy.
Qed.

Lemma for_each_threw (body : A -> Gen St B unit) (s : St) (x : A)
  (array : list A) (out : list B) (e : error) :
  body x s = (out, Threw e) ->
  for_each (x :: array) body s = (out, Threw e).
Proof. intros Hbody. cbn [for_each]. apply bind_threw, Hbody. Qed.

End Loops.

Lemma flat_map_map {T U W : Type} (g : T -> U) (f : U -> list W)
  (l : list T) :
  flat_map f (map g l) = flat_map (fun x => f (g x)) l.
Proof.
  induction l as [|x l IH]; [reflexivity|]. cbn. rewrite IH. reflexivity.
Qed.

Lemma total_nonneg (sizes : list Z) :
  Forall (fun s => (1 <= s)%Z) (removelast sizes) ->
  (0 <= last sizes 0)%Z ->
  (0 <= total sizes)%Z.
Proof.
  induction sizes as [|s [|s2 rest] IH]; intros Hfront Hlast.
  - cbn. lia.
  - cbn in *. lia.
  - change (removelast (s :: s2 :: rest))
      with (s :: removelast (s2 :: rest)) in Hfront.
    change (last (s :: s2 :: rest) 0%Z) with (last (s2 :: rest) 0%Z) in Hlast.
    inversion Hfront as [|? ? Hs Hfront']; subst.
    specialize (IH Hfront' Hlast).
    change (total (s :: s2 :: rest)) with (s + total (s2 :: rest))%Z. lia.
Qed.

Lemma proper_sizes_tail (s s2 : Z) (rest : list Z) :
  proper_sizes (s :: s2 :: rest) ->
  (1 <= s)%Z /\ proper_sizes (s2 :: rest).
Proof.
  intros (_ & Hfront & Hlast).
  change (removelast (s :: s2 :: rest))
    with (s :: removelast (s2 :: rest)) in Hfront.
  inversion Hfront; subst.
  split; [assumption|]. split; [discriminate|]. split; assumption.
Qed.

Lemma proper_sizes_nonneg (sizes : list Z) :
  proper_sizes sizes -> Forall (fun s => (0 <= s)%Z) sizes.
Proof.
  induction sizes as [|s [|s2 rest] IH]; intros Hp.
  - constructor.
  - destruct Hp as (_ & _ & Hlast). cbn in Hlast. repeat constructor; lia.
  - apply proper_sizes_tail in Hp as (Hs & Hp). constructor; [lia|auto].
Qed.

Section PartitionsProps.
Context {A : Type}.
Variable undefined : A.

Lemma choose_rest_length (array : list A) (k : nat) (c r : list A) :
  In (c, r) (choose k array) ->
  k <= length array /\ length r = length array - k.
Proof.
  intros Hin. apply choose_In in Hin as (Hlen & Hperm & _).
  apply Permutation_length in Hperm. rewrite length_app in Hperm. lia.
Qed.

(** For proper sizes that sum to the length of the array,
    [array_partitions] yields the splits of the array and returns. *)
Lemma array_partitions_run (sizes : list Z) :
  forall (array : list A) (fuel : nat),
    proper_sizes sizes ->
    total sizes = Z.of_nat (length array) ->
    length array + length sizes < fuel ->
    array_partitions undefined fuel array sizes tt
    = (splits (map Z.to_nat sizes) array, Done (tt, tt)).
Proof.
  induction sizes as [|s sizes IH]; intros array fuel Hp Hsum Hfuel.
  - destruct Hp as (Hne & _). contradiction.
  - destruct fuel as [|fuel]; [lia|].
    destruct sizes as [|s2 rest].
    + cbn in Hsum. cbn [array_partitions length Nat.eqb first_size].
      unfold Num.length. cbn [Num.eq].
      replace (s =? Z.of_nat (length array))%Z with true
        by (symmetry; apply Z.eqb_eq; lia).
      reflexivity.
    + apply proper_sizes_tail in Hp as (Hs & Hp).
      pose proof (total_nonneg _ (proj1 (proj2 Hp)) (proj2 (proj2 Hp)))
        as Hrest.
      change (total (s :: s2 :: rest)) with (s + total (s2 :: rest))%Z
        in Hsum.
      cbn [length] in Hfuel.
      cbn [array_partitions length Nat.eqb first_size tl].
      rewrite (combinations_run undefined true (pool := array));
        [|left; reflexivity|lia|lia].
      unfold for_of, yielded, ending. cbn [fst snd].
      erewrite bind_done.
      2:{ apply for_each_run with
            (out := fun c => map (cons (picked c))
                       (splits (map Z.to_nat (s2 :: rest))
                          (match last_unused c with
                           | Some unused => unused
                           | None => []
                           end))).
          intros x Hx. apply in_map_iff in Hx as ([c r] & <- & Hin).
          cbn [as_combo last_unused picked fst snd option_map app].
          apply choose_rest_length in Hin as (Hk & Hr).
          apply prefix_done, IH; [exact Hp|lia|cbn [length]; lia]. }
      cbn [fst snd G.ret]. rewrite app_nil_r, flat_map_map. reflexivity.
Qed.


(** When the sizes do not sum to the length of the array, the first thing
    that [array_partitions] does is to throw a RangeError, from its own
    check or from [combinations]. *)
Lemma array_partitions_mismatch (sizes : list Z) :
  forall (array : list A) (fuel : nat),
    sizes <> [] ->
    total sizes <> Z.of_nat (length array) ->
    length array + length sizes < fuel ->
    exists msg,
      array_partitions undefined fuel array sizes tt
      = ([], Threw (RangeError msg)).
Proof.
  induction sizes as [|s sizes IH]; intros array fuel Hne Hsum Hfuel;
    [contradiction|].
  destruct fuel as [|fuel]; [lia|].
  destruct sizes as [|s2 rest].
  - cbn in Hsum. cbn [array_partitions length Nat.eqb first_size].
    unfold Num.length. cbn [Num.eq].
    replace (s =? Z.of_nat (length array))%Z with false
      by (symmetry; apply Z.eqb_neq; lia).
    eexists. reflexivity.
  - change (total (s :: s2 :: rest)) with (s + total (s2 :: rest))%Z in Hsum.
    cbn [length] in Hfuel.
    cbn [array_partitions length Nat.eqb first_size tl].
    destruct (Z_le_gt_dec s 0) as [Hs|Hs];
      [|destruct (Z_lt_le_dec (Z.of_nat (length array)) s) as [Hs'|Hs']].
    + rewrite (combinations_out_of_range undefined true (pool := array));
        [|left; reflexivity|lia|lia].
      eexists. reflexivity.
    + rewrite (combinations_out_of_range undefined true (pool := array));
        [|left; reflexivity|lia|lia].
      eexists. reflexivity.
    + rewrite (combinations_run undefined true (pool := array));
        [|left; reflexivity|lia|lia].
      destruct (choose (Z.to_nat s) array) as [|[c r] crs] eqn:Hchoose.
      { exfalso. revert Hchoose. apply choose_nonempty. lia. }
      assert (Hin : In (c, r) (choose (Z.to_nat s) array))
        by (rewrite Hchoose; left; reflexivity).
      apply choose_rest_length in Hin as (Hk & Hr).
      destruct (IH r fuel) as [msg Hmsg];
        [discriminate|lia|cbn [length]; lia|].
      exists msg. unfold for_of, yielded. cbn [fst map].
      apply bind_threw, for_each_threw.
      cbn [as_combo last_unused picked fst snd option_map app].
      unfold prefix. rewrite Hmsg. reflexivity.
Qed.

Lemma splits_count (sizes : list nat) :
  forall l : list A,
    length (splits sizes l) = split_count sizes (length l).
Proof.
  induction sizes as [|s [|s2 rest] IH]; intros l; try reflexivity.
  change (length (flat_map
            (fun cr => map (cons (fst cr)) (splits (s2 :: rest) (snd cr)))
            (choose s l))
          = binomial (length l) s
            * split_count (s2 :: rest) (length l - s)).
  rewrite flat_map_constant_length
    with (c := split_count (s2 :: rest) (length l - s)).
  - rewrite choose_count. reflexivity.
  - intros [c r] Hin. apply choose_rest_length in Hin as (_ & Hr).
    cbn [fst snd]. rewrite length_map, IH, Hr. reflexivity.
Qed.

Lemma splits_groups (sizes : list nat) :
  forall (l : list A) (p : list (list A)),
    list_sum sizes = length l ->
    In p (splits sizes l) ->
    map (@length A) p = sizes /\ Permutation (concat p) l.
Proof.
  induction sizes as [|s [|s2 rest] IH]; intros l p Hsum Hp.
  - destruct Hp.
  - destruct Hp as [<-|[]]. cbn in *. rewrite app_nil_r.
    split; [f_equal; lia|reflexivity].
  - change (In p (flat_map
              (fun cr => map (cons (fst cr)) (splits (s2 :: rest) (snd cr)))
              (choose s l))) in Hp.
    apply in_flat_map in Hp as ([c r] & Hin & Hp). cbn [fst snd] in Hp.
    apply in_map_iff in Hp as (p' & <- & Hp').
    pose proof (choose_rest_length _ _ _ _ Hin) as (Hk & Hr).
    apply choose_In in Hin as (Hlen & Hperm & _).
    change (list_sum (s :: s2 :: rest)) with (s + list_sum (s2 :: rest))
      in Hsum.
    destruct (IH r p' ltac:(lia) Hp') as (Hlens & Hperm').
    split.
    + cbn [map]. rewrite Hlens, Hlen. reflexivity.
    + cbn [concat]. rewrite Hperm'. exact Hperm.
Qed.

End PartitionsProps.

Lemma splits_natural {A B : Type} (f : A -> B) (sizes : list nat) :
  forall l : list A,
    splits sizes (map f l) = map (map (map f)) (splits sizes l).
Proof.
  induction sizes as [|s [|s2 rest] IH]; intros l; try reflexivity.
  change (flat_map
            (fun cr => map (cons (fst cr)) (splits (s2 :: rest) (snd cr)))
            (choose s (map f l))
          = map (map (map f))
              (flat_map
                 (fun cr => map (cons (fst cr)) (splits (s2 :: rest) (snd cr)))
                 (choose s l))).
  rewrite choose_natural, flat_map_map, map_flat_map.
  apply flat_map_ext. intros [c r]. cbn [fst snd].
  rewrite IH, !map_map. reflexivity.
Qed.

Lemma split_count_fact (sizes : list nat) :
  forall n,
    sizes <> [] -> list_sum sizes = n ->
    split_count sizes n * fact_product sizes = fact n.
Proof.
  induction sizes as [|s [|s2 rest] IH]; intros n Hne Hsum.
  - contradiction.
  - change (list_sum [s]) with (s + 0) in Hsum.
    rewrite Nat.add_0_r in Hsum. subst n.
    cbn [split_count fact_product]. lia.
  - change (list_sum (s :: s2 :: rest)) with (s + list_sum (s2 :: rest))
      in Hsum.
    change (binomial n s * split_count (s2 :: rest) (n - s)
            * (fact s * fact_product (s2 :: rest)) = fact n).
    pose proof (IH (n - s) ltac:(discriminate) ltac:(lia)) as Hrest.
    rewrite <- (@binomial_fact n s) by lia. rewrite <- Hrest. ring.
Qed.

Lemma total_nonneg_all (sizes : list Z) :
  Forall (fun s => (0 <= s)%Z) sizes -> (0 <= total sizes)%Z.
Proof.
  induction 1 as [|s sizes Hs Hall IH]; [cbn; lia|].
  change (total (s :: sizes)) with (s + total sizes)%Z. lia.
Qed.

Lemma list_sum_to_nat (sizes : list Z) :
  Forall (fun s => (0 <= s)%Z) sizes ->
  list_sum (map Z.to_nat sizes) = Z.to_nat (total sizes).
Proof.
  induction sizes as [|s sizes IH]; intros Hall; [reflexivity|].
  inversion Hall as [|? ? Hs Hall']; subst.
  change (list_sum (map Z.to_nat (s :: sizes)))
    with (Z.to_nat s + list_sum (map Z.to_nat sizes)).
  change (total (s :: sizes)) with (s + total sizes)%Z.
  rewrite (IH Hall'). pose proof (total_nonneg_all Hall'). lia.
Qed.

(** ** [partitions] *)

Lemma partitions_unfold {A : Type} (undefined : A) (fuel : nat)
  (i : iterable A) (pool : list A) (sizes : list Z) :
  holds i pool ->
  partitions undefined fuel i sizes
  = G.run (array_partitions undefined fuel pool sizes) tt.
Proof.
  intros Hi. unfold partitions. rewrite (with_array_holds _ Hi). reflexivity.
Qed.

Lemma fact_product_neq_0 (sizes : list nat) : fact_product sizes <> 0.
Proof.
  induction sizes as [|s sizes IH]; cbn [fact_product]; [lia|].
  pose proof (fact_neq_0 s). lia.
Qed.

(** C3, for proper size vectors: when the sizes sum to the length of the
    pool, are not empty, and every size but the last is at least 1,
    [partitions(pool, sizes)] yields the items of the pool at the index
    groups that it yields for the pool of the positions [0 .. n-1]; there
    are n!/(s1! ... sk!) of them; in each, the groups have the lengths
    given by [sizes], share no position, and together hold every position
    once; [partitions([1,2,3,4],[2,2])] yields 6 items, the first
    [[1,2],[3,4]] and the last [[3,4],[1,2]]. *)
Theorem partitions_index_groups {A : Type} (undefined : A)
  (i : iterable A) (pool : list A) (sizes : list Z) (fuel : nat) :
  holds i pool ->
  proper_sizes sizes ->
  total sizes = Z.of_nat (length pool) ->
  length pool + length sizes < fuel ->
  let n := length pool in
  let ips := yielded (partitions 0 fuel (Arr (seq 0 n)) sizes) in
  partitions undefined fuel i sizes
  = (map (map (pick undefined pool)) ips, Done tt)
  /\ length ips * fact_product (map Z.to_nat sizes) = fact n
  /\ length ips = fact n / fact_product (map Z.to_nat sizes)
  /\ Forall (fun ip =>
       map (@length nat) ip = map Z.to_nat sizes
       /\ Permutation (concat ip) (seq 0 n)
       /\ NoDup (concat ip)) ips
  /\ (forall a b c d : A,
        partitions undefined 7 (Arr [a; b; c; d]) [2; 2]%Z
        = ([[[a; b]; [c; d]]; [[a; c]; [b; d]]; [[a; d]; [b; c]];
            [[b; c]; [a; d]]; [[b; d]; [a; c]]; [[c; d]; [a; b]]],
           Done tt)).
Proof.
  intros Hi Hp Hsum Hfuel n ips.
  assert (Hips : ips = splits (map Z.to_nat sizes) (seq 0 n)).
  { subst ips. rewrite (partitions_unfold 0 fuel sizes (pool := seq 0 n))
      by (left; reflexivity).
    unfold G.run. rewrite array_partitions_run;
      [reflexivity | exact Hp | | ]; rewrite length_seq; assumption. }
  assert (Hnat : list_sum (map Z.to_nat sizes) = n).
  { rewrite list_sum_to_nat by (apply proper_sizes_nonneg, Hp).
    rewrite Hsum. apply Nat2Z.id. }
  assert (Hcount : length ips * fact_product (map Z.to_nat sizes) = fact n).
  { rewrite Hips, splits_count, length_seq. apply split_count_fact.
    - destruct Hp as (Hne & _). destruct sizes; [contradiction|discriminate].
    - exact Hnat. }
  split; [|split; [|split; [|split]]].
  - rewrite (partitions_unfold undefined fuel sizes Hi). unfold G.run.
    rewrite array_partitions_run by assumption.
    rewrite Hips. f_equal.
    rewrite <- (pick_seq undefined pool) at 1. unfold pick at 1. fold n.
    apply splits_natural.
  - exact Hcount.
  - rewrite <- Hcount. symmetry. apply Nat.div_mul, fact_product_neq_0.
  - rewrite Hips. apply Forall_forall. intros ip Hip.
    apply splits_groups in Hip as (Hlens & Hperm);
      [|rewrite length_seq; exact Hnat].
    split; [exact Hlens|]. split; [exact Hperm|].
    apply (Permutation_NoDup (Permutation_sym Hperm)), seq_NoDup.
  - reflexivity.
Qed.

Lemma partitions_index_groups_witness :
  holds (Arr [10; 20; 30]%Z) [10; 20; 30]%Z
  /\ proper_sizes [2; 1]%Z
  /\ total [2; 1]%Z = Z.of_nat (length [10; 20; 30]%Z)
  /\ length [10; 20; 30]%Z + length [2; 1]%Z < 6
  /\ length (yielded (partitions 0 6 (Arr (seq 0 3)) [2; 1]%Z))
     * fact_product (map Z.to_nat [2; 1]%Z) = fact 3.
Proof.
  assert (H1 : holds (Arr [10; 20; 30]%Z) [10; 20; 30]%Z)
    by (left; reflexivity).
  assert (H2 : proper_sizes [2; 1]%Z).
  { split; [discriminate|]. split; [repeat constructor; lia|simpl; lia]. }
  assert (H3 : total [2; 1]%Z = Z.of_nat (length [10; 20; 30]%Z))
    by reflexivity.
  assert (H4 : length [10; 20; 30]%Z + length [2; 1]%Z < 6) by (simpl; lia).
  refine (conj H1 (conj H2 (conj H3 (conj H4 _)))).
  exact (proj1 (proj2 (partitions_index_groups 0%Z H1 H2 H3 H4))).
Defined.

(** The claim as written covers every size vector that sums to the length
    of the pool; for the sizes [0, 2] and a pool of two, it asks for
    2!/(0! 2!) = 1 output, and [partitions] yields none, whatever the
    budget. *)
Lemma partitions_zero_size_counterexample :
  total [0; 2]%Z = Z.of_nat (length [1; 2]%Z)
  /\ ~ (exists fuel : nat,
          length (yielded (partitions 0%Z fuel (Arr [1; 2]%Z) [0; 2]%Z))
          = fact 2 / fact_product (map Z.to_nat [0; 2]%Z)).
Proof.
  split; [reflexivity|].
  intros [fuel H]. destruct fuel as [|[|fuel]]; cbv in H; discriminate.
Qed.

(** A size vector that does not sum to the length of the pool, and is not
    empty, makes [partitions] throw a RangeError before it yields
    anything. *)
Lemma partitions_mismatch {A : Type} (undefined : A) (i : iterable A)
  (pool : list A) (sizes : list Z) (fuel : nat) :
  holds i pool ->
  sizes <> [] ->
  total sizes <> Z.of_nat (length pool) ->
  length pool + length sizes < fuel ->
  exists msg,
    partitions undefined fuel i sizes = ([], Threw (RangeError msg)).
Proof.
  intros Hi Hne Hsum Hfuel.
  destruct (@array_partitions_mismatch _ undefined sizes pool fuel
              Hne Hsum Hfuel) as [msg Hmsg].
  exists msg. rewrite (partitions_unfold undefined fuel sizes Hi).
  unfold G.run. rewrite Hmsg. reflexivity.
Qed.



(** C9: for every pool and every size vector of length at least 2 whose
    first entry is at most 0, [partitions] throws the RangeError of
    [combinations] before it yields anything, also when the sizes sum to
    the length of the pool: [partitions([1,2],[0,2])] throws, while
    [partitions([1,2],[2,0])] yields the one partition [[1,2],[]]. *)
Theorem partitions_first_size_not_positive {A : Type} (undefined : A)
  (i : iterable A) (pool : list A) (sizes : list Z) (fuel : nat) :
  holds i pool ->
  2 <= length sizes ->
  (nth 0 sizes 0 <= 0)%Z ->
  2 <= fuel ->
  partitions undefined fuel i sizes
  = ([], Threw (RangeError range_message))
  /\ (total [0; 2]%Z = Z.of_nat (length [1; 2]%Z)
      /\ partitions 0%Z fuel (Arr [1; 2]%Z) [0; 2]%Z
         = ([], Threw (RangeError range_message)))
  /\ partitions 0%Z 5 (Arr [1; 2]%Z) [2; 0]%Z = ([[[1; 2]; []]]%Z, Done tt).
Proof.
  intros Hi Hlen Hfirst Hfuel.
  assert (Hthrow : forall (B : Type) (u : B) (array : list B) (ss : list Z),
             2 <= length ss -> (nth 0 ss 0 <= 0)%Z ->
             array_partitions u fuel array ss tt
             = ([], Threw (RangeError range_message))).
  { intros B u array ss Hss Hs.
    destruct fuel as [|[|fuel']]; [lia|lia|].
    destruct ss as [|s [|s2 rest]]; cbn [length] in Hss; [lia|lia|].
    cbn [nth] in Hs.
    cbn [array_partitions length Nat.eqb first_size].
    rewrite (combinations_out_of_range u true (pool := array));
      [reflexivity|left; reflexivity|lia|lia]. }
  split; [|split; [split|]].
  - rewrite (partitions_unfold undefined fuel sizes Hi). unfold G.run.
    rewrite Hthrow by assumption. reflexivity.
  - reflexivity.
  - rewrite (partitions_unfold 0%Z fuel [0; 2]%Z (pool := [1; 2]%Z))
      by (left; reflexivity).
    unfold G.run. rewrite Hthrow; [reflexivity|cbn; lia|cbn; lia].
  - reflexivity.
Qed.

Lemma partitions_first_size_not_positive_witness :
  holds (Arr [1; 2; 3]%Z) [1; 2; 3]%Z
  /\ 2 <= length [0; 1; 2]%Z
  /\ (nth 0 [0; 1; 2] 0 <= 0)%Z
  /\ 2 <= 4
  /\ partitions 0%Z 4 (Arr [1; 2; 3]%Z) [0; 1; 2]%Z
     = ([], Threw (RangeError range_message)).
Proof.
  assert (H1 : holds (Arr [1; 2; 3]%Z) [1; 2; 3]%Z) by (left; reflexivity).
  assert (H2 : 2 <= length [0; 1; 2]%Z) by (simpl; lia).
  assert (H3 : (nth 0 [0; 1; 2] 0 <= 0)%Z) by (simpl; lia).
  assert (H4 : 2 <= 4) by lia.
  refine (conj H1 (conj H2 (conj H3 (conj H4 _)))).
  exact (proj1 (@partitions_first_size_not_positive Z 0%Z _ _ [0; 1; 2]%Z 4
                  H1 H2 H3 H4)).
Defined.

(** ** [product] *)

Section ProductProps.
Context {A : Type}.

Lemma map_gen_spread {St B : Type} (iterables : list (iterable A))
  (seqs : list (list A)) (s : St) :
  Forall2 holds iterables seqs ->
  map_gen (fun i => G.lift (B := B) (spread i)) iterables s
= ([], Done (seqs, s)).
Proof.
  induction 1 as [|i pool iterables seqs Hi Hall IH]; [reflexivity|].
  cbn [map_gen].
  erewrite bind_done; [|rewrite (spread_holds Hi); reflexivity]. cbv beta.
  erewrite bind_done; [|exact IH]. reflexivity.
Qed.

Lemma array_product_run (arrays : list (list A)) :
  arrays <> [] ->
  array_product arrays tt = (product_reference arrays, Done (tt, tt)).
Proof.
  induction arrays as [|array0 [|array1 slice2] IH]; intros Hne.
  - contradiction.
  - reflexivity.
  - change (for_each array0
              (fun item => prefix item (array_product (array1 :: slice2))) tt
            = (flat_map (fun a => map (cons a)
                          (product_reference (array1 :: slice2))) array0,
               Done (tt, tt))).
    apply for_each_run. intros item _.
    apply prefix_done, IH. discriminate.
Qed.

Lemma product_reference_count (seqs : list (list A)) :
  seqs <> [] ->
  length (product_reference seqs)
  = fold_right Nat.mul 1 (map (@length A) seqs).
Proof.
  induction seqs as [|seq1 [|seq2 remaining] IH]; intros Hne.
  - contradiction.
  - cbn. rewrite length_map. lia.
  - change (length (flat_map (fun a => map (cons a)
                      (product_reference (seq2 :: remaining))) seq1)
            = length seq1
              * fold_right Nat.mul 1 (map (@length A) (seq2 :: remaining))).
    rewrite <- IH by discriminate.
    apply flat_map_constant_length. intros a _. apply length_map.
Qed.

End ProductProps.

(** C5: for [k >= 1] finite sequences, [product] yields what the recursive
    definition gives, as many tuples as the product of the lengths
    |seq_i|, and returns; with more than one
    sequence the tuples come in blocks, one for each element of the first
    sequence in order, so the first coordinate varies slowest. *)
Theorem product_recursive_definition {A : Type}
  (iterables : list (iterable A)) (seqs : list (list A)) :
  Forall2 holds iterables seqs ->
  1 <= length iterables ->
  product iterables = (product_reference seqs, Done tt)
  /\ length (yielded (product iterables))
     = fold_right Nat.mul 1 (map (@length A) seqs)
  /\ (forall seq1 seq2 remaining,
        seqs = seq1 :: seq2 :: remaining ->
        yielded (product iterables)
        = flat_map (fun a => map (cons a)
                     (product_reference (seq2 :: remaining))) seq1)
  /\ (forall a b c d : A,
        product [Arr [a; b]; Arr [c; d]]
        = ([[a; c]; [a; d]; [b; c]; [b; d]], Done tt)).
Proof.
  intros Hall Hk.
  assert (Hne : seqs <> []).
  { intros ->. inversion Hall; subst. cbn in Hk. lia. }
  assert (Hrun : product iterables = (product_reference seqs, Done tt)).
  { unfold product, G.run.
    erewrite bind_done; [|apply map_gen_spread, Hall]. cbv beta.
    rewrite array_product_run by exact Hne. reflexivity. }
  split; [exact Hrun|]. rewrite Hrun. unfold yielded. cbn [fst].
  split; [apply product_reference_count, Hne|].
  split; [intros seq1 seq2 remaining ->; reflexivity | reflexivity].
Qed.

Lemma product_recursive_definition_witness :
  Forall2 holds [Arr [1; 2]%Z; Iter (Finite [3; 4; 5]%Z)]
    [[1; 2]; [3; 4; 5]]%Z
  /\ 1 <= length [Arr [1; 2]%Z; Iter (Finite [3; 4; 5]%Z)]
  /\ product [Arr [1; 2]%Z; Iter (Finite [3; 4; 5]%Z)]
     = (product_reference [[1; 2]; [3; 4; 5]]%Z, Done tt).
Proof.
  assert (H1 : Forall2 holds [Arr [1; 2]%Z; Iter (Finite [3; 4; 5]%Z)]
                 [[1; 2]; [3; 4; 5]]%Z).
  { constructor; [left; reflexivity|].
    constructor; [right; reflexivity|constructor]. }
  assert (H2 : 1 <= length [Arr [1; 2]%Z; Iter (Finite [3; 4; 5]%Z)])
    by (simpl; lia).
  refine (conj H1 (conj H2 _)).
  exact (proj1 (product_recursive_definition H1 H2)).
Defined.

(** ** [take] *)

Lemma flat_map_nil {T U : Type} (f : T -> list U) (l : list T) :
  (forall x, In x l -> f x = []) -> flat_map f l = [].
Proof.
  induction l as [|x l IH]; intros H; [reflexivity|].
  cbn. rewrite H by (left; reflexivity). apply IH.
  intros y Hy. apply H. right; exact Hy.
Qed.

Lemma count_nth (start step : Z) (k : nat) :
  Nat.iter k (fun s => (s + step)%Z) start = (start + Z.of_nat k * step)%Z.
Proof.
  induction k as [|k IH]; [cbn; lia|].
  rewrite Nat.iter_succ, IH. lia.
Qed.

Lemma increasing_bound (f : nat -> Z) :
  (forall k, (f k < f (S k))%Z) ->
  forall k, (f O + Z.of_nat k <= f k)%Z.
Proof.
  intros Hf. induction k as [|k IH]; [lia|]. specialize (Hf k). lia.
Qed.

Lemma leading_shift (f : nat -> Z) (m : nat) :
  map f (seq 0 (S m)) = f 0 :: map (fun k => f (S k)) (seq 0 m).
Proof. cbn [seq map]. rewrite <- seq_shift, map_map. reflexivity. Qed.

Lemma ascending_above (idx : Z) (indices : cursor Z) (m : nat) (i : Z) :
  ascending idx indices -> In i (leading m indices) -> (idx < i)%Z.
Proof.
  destruct indices as [l|f]; cbn [ascending leading].
  - intros Hs Hi. apply StronglySorted_inv in Hs as (_ & Hall).
    rewrite Forall_forall in Hall. auto.
  - intros (H0 & Hf) Hi. apply in_map_iff in Hi as (k & <- & _).
    pose proof (increasing_bound f Hf k). lia.
Qed.

Section TakeProps.
Context {A : Type}.

Lemma element_at_shift (v : A) (rest : list A) (pos i : Z) :
  (pos < i)%Z ->
  element_at (v :: rest) (i - pos) = element_at rest (i - (pos + 1)).
Proof.
  intros Hi. unfold element_at.
  replace (i - pos <? 0)%Z with false by lia.
  replace (i - (pos + 1) <? 0)%Z with false by lia.
  replace (Z.to_nat (i - pos)) with (S (Z.to_nat (i - (pos + 1)))) by lia.
  reflexivity.
Qed.

Lemma element_at_beyond (src : list A) (i : Z) :
  (Z.of_nat (length src) <= i)%Z -> element_at src i = [].
Proof.
  intros Hi. unfold element_at. destruct (i <? 0)%Z; [reflexivity|].
  replace (nth_error src (Z.to_nat i)) with (@None A); [reflexivity|].
  symmetry. apply nth_error_None. lia.
Qed.

Lemma elements_shift (v : A) (rest : list A) (pos : Z) (l : list Z) :
  (forall i, In i l -> (pos < i)%Z) ->
  flat_map (fun i => element_at (v :: rest) (i - pos)) l
  = flat_map (fun i => element_at rest (i - (pos + 1))) l.
Proof.
  intros Hl. apply flat_map_ext_in. intros i Hi.
  apply element_at_shift, Hl, Hi.
Qed.

(** The loop of [take] at position [pos] of a finite source, of which
    [rest] is left: the index waited for is not below [pos]. *)
Lemma take_loop_finite (rest : list A) :
  forall (fuel : nat) (g : nat -> Z + A) (pos idx : Z) (indices : cursor Z),
    (forall k, g k = inl (pos + Z.of_nat k)%Z) ->
    length rest < fuel ->
    (pos <= idx)%Z ->
    ascending idx indices ->
    take_loop fuel [Infinite g; Finite (map inr rest)] idx indices
    = (flat_map (fun i => element_at rest (i - pos))
         (idx :: leading (length rest) indices),
       Done tt).
Proof.
  induction rest as [|v rest IH];
    intros fuel g pos idx indices Hg Hfuel Hpos Hasc;
    (destruct fuel as [|fuel]; [cbn in Hfuel; lia|]).
  - cbn [take_loop zip_next map next fst snd forallb is_done negb andb].
    f_equal. symmetry. apply flat_map_nil.
    intros i _. unfold element_at.
    destruct (i - pos <? 0)%Z; [reflexivity|].
    destruct (Z.to_nat (i - pos)); reflexivity.
  - cbn [length] in Hfuel.
    assert (Hg' : forall k, g (S k) = inl (pos + 1 + Z.of_nat k)%Z)
      by (intros k; rewrite Hg; f_equal; lia).
    set (expected := flat_map _ _).
    cbn [take_loop zip_next map next fst snd forallb is_done negb andb
         values flat_map app].
    rewrite (Hg 0), Z.add_0_r. subst expected.
    change (flat_map (fun i => element_at (v :: rest) (i - pos))
              (idx :: leading (length (v :: rest)) indices))
      with (element_at (v :: rest) (idx - pos)
            ++ flat_map (fun i => element_at (v :: rest) (i - pos))
                 (leading (S (length rest)) indices)).
    destruct (Z.eqb_spec pos idx) as [<-|Hne].
    + rewrite Z.sub_diag. change (element_at (v :: rest) 0) with [v].
      cbn [app].
      destruct indices as [[|idx' l]|f]; cbn [next leading].
      * reflexivity.
      * assert (Hlt : (pos < idx')%Z)
          by (apply (@ascending_above pos _ 0 idx' Hasc); left; reflexivity).
        apply StronglySorted_inv in Hasc as (Hasc & _).
        rewrite (IH fuel (fun k => g (S k)) (pos + 1)%Z idx' (Finite l));
          [|exact Hg'|lia|lia|exact Hasc].
        f_equal. f_equal. symmetry. apply elements_shift.
        intros i [<-|Hi]; [exact Hlt|].
        apply StronglySorted_inv in Hasc as (_ & Hall).
        rewrite Forall_forall in Hall. specialize (Hall _ Hi). lia.
      * destruct Hasc as (H0 & Hf).
        rewrite (IH fuel (fun k => g (S k)) (pos + 1)%Z (f 0)
                   (Infinite (fun k => f (S k))));
          [|exact Hg'|lia|lia|split; [apply Hf|intros k; apply Hf]].
        cbn [leading]. rewrite leading_shift.
        f_equal. f_equal. symmetry. apply elements_shift.
        intros i [<-|Hi]; [exact H0|].
        apply in_map_iff in Hi as (k & <- & _).
        pose proof (increasing_bound f Hf (S k)). lia.
    + assert (Hlt : (pos < idx)%Z) by lia.
      rewrite (IH fuel (fun k => g (S k)) (pos + 1)%Z idx indices);
        [|exact Hg'|lia|lia|exact Hasc].
      f_equal.
      change (flat_map (fun i => element_at rest (i - (pos + 1)))
                (idx :: leading (length rest) indices))
        with (element_at rest (idx - (pos + 1))
              ++ flat_map (fun i => element_at rest (i - (pos + 1)))
                   (leading (length rest) indices)).
      rewrite <- (element_at_shift v rest Hlt). f_equal.
      destruct indices as [l|f]; cbn [leading].
      * symmetry. apply elements_shift. intros i Hi.
        pose proof (@ascending_above _ _ 0 i Hasc Hi). lia.
      * destruct Hasc as (H0 & Hf).
        rewrite seq_S, map_app, flat_map_app. cbn [map flat_map Nat.add].
        rewrite (element_at_beyond (v :: rest)), !app_nil_r.
        -- symmetry. apply elements_shift. intros i Hi.
           apply in_map_iff in Hi as (k & <- & _).
           pose proof (increasing_bound f Hf k). lia.
        -- pose proof (increasing_bound f Hf (length rest)).
           cbn [length]. lia.
Qed.

(** The loop of [take] at position [pos] of a source without end, for
    finitely many indices: it returns once the last index is served. *)
Lemma take_loop_endless (fuel : nat) :
  forall (g : nat -> Z + A) (src : nat -> A) (h : nat -> Z + A) (pos : nat)
    (idx : Z) (idxs : list Z),
    (forall k, g k = inl (Z.of_nat (pos + k))) ->
    (forall k, h k = inr (src (pos + k))) ->
    (Z.of_nat pos <= idx)%Z ->
    StronglySorted Z.lt (idx :: idxs) ->
    Forall (fun i => (i < Z.of_nat (pos + fuel))%Z) (idx :: idxs) ->
    take_loop fuel [Infinite g; Infinite h] idx (Finite idxs)
    = (map (fun i => src (Z.to_nat i)) (idx :: idxs), Done tt).
Proof.
  induction fuel as [|fuel IH];
    intros g src h pos idx idxs Hg Hh Hpos Hsorted Hbound.
  - inversion Hbound; subst. lia.
  - cbn [take_loop zip_next map next fst snd forallb is_done negb andb
         values flat_map app].
    rewrite (Hg 0), (Hh 0), Nat.add_0_r.
    assert (Hg' : forall k, g (S k) = inl (Z.of_nat (S pos + k)))
      by (intros k; rewrite Hg; do 2 f_equal; lia).
    assert (Hh' : forall k, h (S k) = inr (src (S pos + k)))
      by (intros k; rewrite Hh; do 2 f_equal; lia).
    assert (Hbound' : Forall (fun i => (i < Z.of_nat (S pos + fuel))%Z)
                        (idx :: idxs)).
    { revert Hbound. apply Forall_impl. intros i Hi. lia. }
    destruct (Z.eqb_spec (Z.of_nat pos) idx) as [<-|Hne].
    + destruct idxs as [|idx' idxs]; cbn [next map].
      * rewrite Nat2Z.id. reflexivity.
      * apply StronglySorted_inv in Hsorted as (Hsorted & Hall).
        inversion Hall; subst. inversion Hbound'; subst.
        rewrite (IH (fun k => g (S k)) src (fun k => h (S k)) (S pos)
                   idx' idxs);
          [|exact Hg'|exact Hh'|lia|exact Hsorted|assumption].
        rewrite Nat2Z.id. reflexivity.
    + apply (IH (fun k => g (S k)) src (fun k => h (S k)) (S pos) idx idxs);
        [exact Hg'|exact Hh'|lia|exact Hsorted|exact Hbound'].
Qed.

(** With a source and indices without end the loop of [take] does not
    return. *)
Lemma take_loop_forever (fuel : nat) :
  forall (g : nat -> Z + A) (src : nat -> A) (h : nat -> Z + A) (pos : nat)
    (idx : Z) (f : nat -> Z),
    (forall k, g k = inl (Z.of_nat (pos + k))) ->
    (forall k, h k = inr (src (pos + k))) ->
    ending (take_loop fuel [Infinite g; Infinite h] idx (Infinite f))
    = Timeout.
Proof.
  induction fuel as [|fuel IH]; intros g src h pos idx f Hg Hh;
    [reflexivity|].
  cbn [take_loop zip_next map next fst snd forallb is_done negb andb
       values flat_map app].
  rewrite (Hg 0), (Hh 0).
  assert (Hg' : forall k, g (S k) = inl (Z.of_nat (S pos + k)))
    by (intros k; rewrite Hg; do 2 f_equal; lia).
  assert (Hh' : forall k, h (S k) = inr (src (S pos + k)))
    by (intros k; rewrite Hh; do 2 f_equal; lia).
  destruct (Z.of_nat (pos + 0) =? idx)%Z.
  - pose proof (IH (fun k => g (S k)) src (fun k => h (S k)) (S pos)
                  (f 0) (fun k => f (S k)) Hg' Hh') as Hrec.
    destruct (take_loop fuel _ (f 0) _) as [out r]. exact Hrec.
  - exact (IH (fun k => g (S k)) src (fun k => h (S k)) (S pos) idx f Hg' Hh').
Qed.

End TakeProps.

(** C4, for strictly increasing indices: [take] walks the source once and
    yields, in order, the element at every index that lies within the
    source; for an index at or beyond the end of the source it yields
    nothing, no "missing" value; it returns when the indices or the source
    are used up, and runs without end only when both are without end;
    [take([a], [0,1,2])] yields [a] and nothing else. *)
Theorem take_increasing_indices {A : Type} (i : iterable A)
  (indices : iterable Z) :
  increasing_indices (iterator indices) ->
  (forall (src : list A) (fuel : nat),
     iterator i = Finite src ->
     length src < fuel ->
     take fuel i indices
     = (flat_map (element_at src) (leading (length src) (iterator indices)),
        Done tt))
  /\ (forall (src : nat -> A) (idxs : list Z) (fuel : nat),
        iterator i = Infinite src ->
        iterator indices = Finite idxs ->
        Forall (fun idx => (idx < Z.of_nat fuel)%Z) idxs ->
        take fuel i indices
        = (map (fun idx => src (Z.to_nat idx)) idxs, Done tt))
  /\ (forall (src : nat -> A) (f : nat -> Z) (fuel : nat),
        iterator i = Infinite src ->
        iterator indices = Infinite f ->
        ending (take fuel i indices) = Timeout)
  /\ (forall a : A, take 2 (Arr [a]) (Arr [0; 1; 2]%Z) = ([a], Done tt)).
Proof.
  intros Hinc.
  assert (Hcount : forall k,
            inl (B := A) (Nat.iter k (fun s => (s + 1)%Z) 0%Z)
            = inl (Z.of_nat (0 + k))).
  { intros k. rewrite count_nth. f_equal. lia. }
  split; [|split; [|split]].
  - intros src fuel Hsrc Hfuel. unfold take, enumerate. rewrite Hsrc.
    cbn [cursor_map count].
    destruct (iterator indices) as [[|idx l]|f];
      unfold increasing_indices in Hinc; cbn [ascending] in Hinc;
      cbn [next leading].
    + reflexivity.
    + apply StronglySorted_inv in Hinc as (Hsorted & Hall).
      inversion Hall; subst.
      rewrite (@take_loop_finite A src fuel _ 0%Z idx (Finite l));
        [|intros k; rewrite Hcount; f_equal; lia|exact Hfuel|lia
         |exact Hsorted].
      f_equal. apply flat_map_ext. intros j. rewrite Z.sub_0_r. reflexivity.
    + destruct Hinc as (H0 & Hf).
      rewrite (@take_loop_finite A src fuel _ 0%Z (f 0)
                 (Infinite (fun k => f (S k))));
        [|intros k; rewrite Hcount; f_equal; lia|exact Hfuel|lia
         |split; [apply Hf|intros k; apply Hf]].
      f_equal. cbn [leading]. rewrite <- leading_shift, seq_S, map_app.
      rewrite flat_map_app. cbn [map flat_map Nat.add].
      rewrite Z.sub_0_r, element_at_beyond, !app_nil_r.
      * apply flat_map_ext. intros j. rewrite Z.sub_0_r. reflexivity.
      * pose proof (increasing_bound f Hf (length src)). lia.
  - intros src idxs fuel Hsrc Hidxs Hbound. unfold take, enumerate.
    rewrite Hsrc, Hidxs. rewrite Hidxs in Hinc.
    unfold increasing_indices in Hinc. cbn [ascending] in Hinc.
    cbn [cursor_map count].
    destruct idxs as [|idx l]; cbn [next]; [reflexivity|].
    apply StronglySorted_inv in Hinc as (Hsorted & Hall).
    inversion Hall; subst.
    apply (@take_loop_endless A fuel _ src (fun k => inr (src k)) 0 idx l);
      [exact Hcount|reflexivity|lia|exact Hsorted|exact Hbound].
  - intros src f fuel Hsrc Hf. unfold take, enumerate. rewrite Hsrc, Hf.
    cbn [cursor_map count next].
    apply (@take_loop_forever A fuel _ src (fun k => inr (src k)) 0);
      [exact Hcount|reflexivity].
  - reflexivity.
Qed.

Lemma take_increasing_indices_witness :
  increasing_indices (iterator (Arr [0; 2; 5]%Z))
  /\ take 4 (Arr [10; 20; 30]%Z) (Arr [0; 2; 5]%Z)
     = (flat_map (element_at [10; 20; 30]%Z)
          (leading (length [10; 20; 30]%Z) (iterator (Arr [0; 2; 5]%Z))),
        Done tt).
Proof.
  assert (H1 : increasing_indices (iterator (Arr [0; 2; 5]%Z)))
    by (repeat constructor; lia).
  refine (conj H1 _).
  apply (proj1 (take_increasing_indices (Arr [10; 20; 30]%Z) _ H1));
    [reflexivity|simpl; lia].
Defined.

(** The claim as written has [take([a], [0,1,2])] yield three values, the
    last two "missing"; it yields one, and three for no budget of the run.
    It also has an index that occurs twice served twice, and [take] run on
    as long as there are indices: the second [1] of [[1, 1]] is skipped,
    and with the indices 0, 1, 2, ... without end [take] returns when the
    source is used up. *)
Lemma take_missing_counterexample :
  take 2 (Arr ["a"%string]) (Arr [0; 1; 2]%Z) = (["a"%string], Done tt)
  /\ ~ (exists fuel : nat,
          length (yielded (take fuel (Arr ["a"%string]) (Arr [0; 1; 2]%Z)))
          = 3)
  /\ take 4 (Arr ["a"; "b"; "c"]%string) (Arr [1; 1]%Z)
     = (["b"%string], Done tt)
  /\ take 2 (Arr ["a"%string]) (Iter (count 0 1)) = (["a"%string], Done tt).
Proof.
  split; [reflexivity|]. split; [|split; reflexivity].
  intros [fuel H]. destruct fuel as [|[|fuel]]; cbv in H; discriminate.
Qed.

(** ** [cycle] *)

Section CycleProps.
Context {V : Type}.

Lemma cycle_loop_array (l : list V) (t : nat) :
  forall (fuel : nat) (n : Z),
    n = Z.of_nat t -> t < fuel ->
    cycle_loop fuel (Int n) (Arr l)
    = (concat (repeat l t), Done (tt, Arr l)).
Proof.
  induction t as [|t IH]; intros fuel n Hn Hfuel;
    (destruct fuel as [|fuel]; [lia|]); cbn [cycle_loop Num.gt Num.lt Num.pred].
  - replace (0 <? n)%Z with false by lia. reflexivity.
  - replace (0 <? n)%Z with true by lia.
    erewrite bind_done; [|reflexivity]. cbv beta.
    rewrite (IH fuel (n - 1)%Z) by lia. reflexivity.
Qed.

Lemma cycle_loop_exhausted (t : nat) :
  forall (fuel : nat) (n : Z),
    n = Z.of_nat t -> t < fuel ->
    cycle_loop fuel (Int n) (Iter (Finite (@nil V)))
    = ([], Done (tt, Iter (Finite []))).
Proof.
  induction t as [|t IH]; intros fuel n Hn Hfuel;
    (destruct fuel as [|fuel]; [lia|]); cbn [cycle_loop Num.gt Num.lt Num.pred].
  - replace (0 <? n)%Z with false by lia. reflexivity.
  - replace (0 <? n)%Z with true by lia.
    erewrite bind_done; [|reflexivity]. cbv beta.
    rewrite (IH fuel (n - 1)%Z) by lia. reflexivity.
Qed.

Lemma cycle_loop_iterator (l : list V) (fuel : nat) (n : Z) :
  (1 <= n)%Z -> Z.to_nat n < fuel ->
  cycle_loop fuel (Int n) (Iter (Finite l))
  = (l, Done (tt, Iter (Finite []))).
Proof.
  intros Hn Hfuel. destruct fuel as [|fuel]; [lia|].
  cbn [cycle_loop Num.gt Num.lt Num.pred].
  replace (0 <? n)%Z with true by lia.
  erewrite bind_done; [|reflexivity]. cbv beta.
  rewrite (@cycle_loop_exhausted (Z.to_nat (n - 1)) fuel (n - 1)%Z)
    by lia.
  cbn [fst snd]. rewrite app_nil_r. reflexivity.
Qed.

Lemma cycle_loop_forever (l : list V) (fuel : nat) :
  cycle_loop fuel Infinity (Arr l) = (concat (repeat l fuel), Timeout).
Proof.
  induction fuel as [|fuel IH]; [reflexivity|].
  cbn [cycle_loop Num.gt Num.lt Num.pred].
  erewrite bind_done; [|reflexivity]. cbv beta.
  rewrite IH. reflexivity.
Qed.

End CycleProps.

(** C8, for arrays: [cycle(array, t)] with [t >= 1] yields the contents of
    the array, in order, [t] times, [t * |array|] values, and returns; it
    does not copy its argument, and an iterator object, which can be
    walked once, is yielded once whatever [t] is; with the count left out
    an array is replayed without end. *)
Theorem cycle_replays_array {V : Type} (l : list V) (t : Z) (fuel : nat) :
  (1 <= t)%Z ->
  Z.to_nat t < fuel ->
  cycle fuel (Arr l) (Int t) = (concat (repeat l (Z.to_nat t)), Done tt)
  /\ length (yielded (cycle fuel (Arr l) (Int t))) = Z.to_nat t * length l
  /\ cycle fuel (Iter (Finite l)) (Int t) = (l, Done tt)
  /\ (forall rounds : nat,
        cycle rounds (Arr l) Infinity = (concat (repeat l rounds), Timeout)).
Proof.
  intros Ht Hfuel.
  assert (Hrun : cycle fuel (Arr l) (Int t)
                 = (concat (repeat l (Z.to_nat t)), Done tt)).
  { unfold cycle, G.run.
    rewrite (@cycle_loop_array V l (Z.to_nat t) fuel t) by lia.
    reflexivity. }
  split; [exact Hrun|]. split; [|split].
  - rewrite Hrun. unfold yielded. cbn [fst].
    generalize (Z.to_nat t). intros k.
    induction k as [|k IH]; [reflexivity|].
    cbn [repeat concat]. rewrite length_app, IH. lia.
  - unfold cycle, G.run. rewrite cycle_loop_iterator by assumption.
    reflexivity.
  - intros rounds. unfold cycle, G.run. rewrite cycle_loop_forever.
    reflexivity.
Qed.

Lemma cycle_replays_array_witness :
  (1 <= 2)%Z
  /\ Z.to_nat 2 < 3
  /\ cycle 3 (Arr [1; 2; 3]%Z) (Int 2)
     = (concat (repeat [1; 2; 3]%Z (Z.to_nat 2)), Done tt).
Proof.
  assert (H1 : (1 <= 2)%Z) by lia.
  assert (H2 : Z.to_nat 2 < 3) by (simpl; lia).
  refine (conj H1 (conj H2 _)).
  exact (proj1 (cycle_replays_array [1; 2; 3]%Z H1 H2)).
Defined.

(** The claim as written covers single-use iterators: for one that yields
    0, 1, 2 and [t = 2] it asks for 6 values; [cycle] yields the three
    values once; whatever the budget of the run, it does not yield 6. *)
Lemma cycle_iterator_counterexample :
  cycle 3 (Iter (Finite [0; 1; 2]%Z)) (Int 2) = ([0; 1; 2]%Z, Done tt)
  /\ ~ (exists fuel : nat,
          length (yielded (cycle fuel (Iter (Finite [0; 1; 2]%Z)) (Int 2)))
          = 2 * length [0; 1; 2]%Z).
Proof.
  split; [reflexivity|].
  intros [fuel H]. destruct fuel as [|[|[|fuel]]]; cbv in H; discriminate.
Qed.

(** ** [zip] *)

Lemma zip_loop_nil (V : Type) (fuel : nat) :
  zip_loop fuel (@nil (cursor V)) = (repeat [] fuel, Timeout).
Proof.
  induction fuel as [|fuel IH]; [reflexivity|].
  cbn [zip_loop]. unfold zip_next. cbn [map forallb values flat_map].
  rewrite IH. reflexivity.
Qed.

(** C10: [zip()] with no arguments never terminates: the check of a round
    holds for no iterators, so the round yields the empty tuple and leaves
    the generator running; after any number of rounds it has yielded that
    many empty tuples and has not returned. *)
Theorem zip_no_arguments_never_returns (V : Type) (rounds : nat) :
  zip_next (@nil (cursor V)) = (Some [], [])
  /\ zip rounds (@nil (iterable V)) = (repeat [] rounds, Timeout).
Proof.
  split; [reflexivity|]. unfold zip. cbn [map]. apply zip_loop_nil.
Qed.

(** ** Sums of doubles that are integers *)

Lemma double_exact_pos : (0 < Double.exact)%Z.
Proof. vm_compute. reflexivity. Qed.

Lemma double_exact_beyond : (Double.exact < Double.beyond)%Z.
Proof. vm_compute. reflexivity. Qed.

(** Up to [2^53] in magnitude a sum is the sum of the integers. *)
Lemma double_add_exact (a b : Z) :
  (- Double.exact <= a + b <= Double.exact)%Z ->
  Double.add (Double.Num a) b = Double.Num (a + b).
Proof.
  intros Hab. pose proof double_exact_beyond as Hbeyond.
  assert (Hround : Double.round (a + b) = (a + b)%Z).
  { unfold Double.round.
    replace (Z.abs (a + b) <=? Double.exact)%Z with true; [reflexivity|].
    symmetry. apply Z.leb_le. lia. }
  unfold Double.add, Double.of_sum. rewrite Hround.
  replace (Double.beyond <=? Z.abs (a + b))%Z with false; [reflexivity|].
  symmetry. apply Z.leb_gt. lia.
Qed.

(** From [2^53] on, adding 1 moves nothing, and neither does taking 1
    from [-2^53]. *)
Lemma double_add_stuck :
  Double.add (Double.Num Double.exact) 1 = Double.Num Double.exact.
Proof. vm_compute. reflexivity. Qed.

Lemma double_add_stuck_down :
  Double.add (Double.Num (- Double.exact)) (-1)
  = Double.Num (- Double.exact).
Proof. vm_compute. reflexivity. Qed.

(** ** [range] *)

Lemma steps_between_next (distance step : Z) :
  (0 < step)%Z -> (0 < distance)%Z ->
  steps_between distance step = S (steps_between (distance - step) step).
Proof.
  intros Hstep Hd. unfold steps_between.
  replace (distance + step - 1)%Z
    with ((distance - step + step - 1) + 1 * step)%Z by lia.
  rewrite Z.div_add by lia.
  assert (0 <= (distance - step + step - 1) / step)%Z
    by (apply Z.div_pos; lia).
  lia.
Qed.

Lemma steps_between_none (distance step : Z) :
  (0 < step)%Z -> (distance <= 0)%Z -> steps_between distance step = 0.
Proof.
  intros Hstep Hd. unfold steps_between.
  assert ((distance + step - 1) / step < 1)%Z
    by (apply Z.div_lt_upper_bound; lia).
  lia.
Qed.

(** Counting up where every sum is exact: from [-2^53] on, with
    [stop - 1 + step] up to [2^53]. *)
Lemma range_up_run (fuel : nat) :
  forall i stop step : Z,
    (0 < step)%Z ->
    (- Double.exact <= i)%Z ->
    (stop - 1 + step <= Double.exact)%Z ->
    steps_between (stop - i) step < fuel ->
    range_up fuel (Double.Num i) stop step
    = (map (fun k => Double.Num (i + Z.of_nat k * step))
         (seq 0 (steps_between (stop - i) step)),
       Done tt).
Proof.
  induction fuel as [|fuel IH]; intros i stop step Hstep Hlow Hhigh Hfuel;
    [lia|].
  cbn [range_up Double.lt]. destruct (Z.ltb_spec i stop) as [Hlt|Hge].
  - rewrite double_add_exact by lia.
    rewrite steps_between_next in Hfuel |- * by lia.
    replace (stop - i - step)%Z with (stop - (i + step))%Z in * by lia.
    rewrite IH by lia. cbn [seq map]. rewrite <- seq_shift, map_map.
    f_equal. f_equal; [f_equal; lia|].
    apply map_ext. intros k. f_equal. lia.
  - rewrite steps_between_none by lia. reflexivity.
Qed.

(** Counting down where every sum is exact: from [2^53] down, with
    [stop + 1 + step] not below [-2^53]. *)
Lemma range_down_run (fuel : nat) :
  forall i stop step : Z,
    (step < 0)%Z ->
    (i <= Double.exact)%Z ->
    (- Double.exact <= stop + 1 + step)%Z ->
    steps_between (i - stop) (- step) < fuel ->
    range_down fuel (Double.Num i) stop step
    = (map (fun k => Double.Num (i + Z.of_nat k * step))
         (seq 0 (steps_between (i - stop) (- step))),
       Done tt).
Proof.
  induction fuel as [|fuel IH]; intros i stop step Hstep Hhigh Hlow Hfuel;
    [lia|].
  cbn [range_down Double.gt]. destruct (Z.gtb_spec i stop) as [Hgt|Hle].
  - rewrite double_add_exact by lia.
    rewrite steps_between_next in Hfuel |- * by lia.
    replace (i - stop - - step)%Z with (i + step - stop)%Z in * by lia.
    rewrite IH by lia. cbn [seq map]. rewrite <- seq_shift, map_map.
    f_equal. f_equal; [f_equal; lia|].
    apply map_ext. intros k. f_equal. lia.
  - rewrite steps_between_none by lia. reflexivity.
Qed.

Lemma steps_between_bounds (distance step : Z) :
  (0 < step)%Z ->
  (distance <= Z.of_nat (steps_between distance step) * step)%Z
  /\ (forall k, k < steps_between distance step ->
              (Z.of_nat k * step < distance)%Z).
Proof.
  intros Hstep.
  destruct (Z_le_gt_dec distance 0) as [Hd|Hd].
  - rewrite steps_between_none by assumption. split; [lia|intros k Hk; lia].
  - unfold steps_between.
    pose proof (Z.mul_div_le (distance + step - 1) step Hstep) as Hlow.
    pose proof (Z.mul_succ_div_gt (distance + step - 1) step Hstep) as Hhigh.
    assert (Hq : (0 <= (distance + step - 1) / step)%Z)
      by (apply Z.div_pos; lia).
    set (q := ((distance + step - 1) / step)%Z) in *.
    rewrite Z2Nat.id by exact Hq. split; [lia|].
    intros k Hk.
    assert (Z.of_nat k * step <= (q - 1) * step)%Z
      by (apply Z.mul_le_mono_nonneg_r; lia).
    lia.
Qed.

(** Counting up by 1 from [2^53] never gets anywhere, and neither does
    counting down by 1 from [-2^53]. *)
Lemma range_up_stuck (fuel : nat) (stop : Z) :
  (Double.exact < stop)%Z ->
  range_up fuel (Double.Num Double.exact) stop 1
  = (repeat (Double.Num Double.exact) fuel, Timeout).
Proof.
  intros Hstop. induction fuel as [|fuel IH]; [reflexivity|].
  cbn [range_up Double.lt].
  replace (Double.exact <? stop)%Z with true by lia.
  rewrite double_add_stuck, IH. reflexivity.
Qed.

Lemma range_down_stuck_at (fuel : nat) (stop : Z) :
  (stop < - Double.exact)%Z ->
  range_down fuel (Double.Num (- Double.exact)) stop (-1)
  = (repeat (Double.Num (- Double.exact)) fuel, Timeout).
Proof.
  intros Hstop. induction fuel as [|fuel IH]; [reflexivity|].
  cbn [range_down Double.gt].
  replace (- Double.exact >? stop)%Z with true by lia.
  rewrite double_add_stuck_down, IH. reflexivity.
Qed.

(** Counting up by 1 towards a number beyond [2^53] does not return. *)
Lemma range_up_forever (fuel : nat) :
  forall i stop : Z,
    (- Double.exact <= i <= Double.exact)%Z ->
    (Double.exact < stop)%Z ->
    ending (range_up fuel (Double.Num i) stop 1) = Timeout.
Proof.
  induction fuel as [|fuel IH]; intros i stop Hi Hstop; [reflexivity|].
  cbn [range_up Double.lt]. replace (i <? stop)%Z with true by lia.
  assert (Hnext : exists i', Double.add (Double.Num i) 1 = Double.Num i'
                             /\ (- Double.exact <= i' <= Double.exact)%Z).
  { destruct (Z.eq_dec i Double.exact) as [->|Hne].
    - exists Double.exact. split; [apply double_add_stuck|lia].
    - exists (i + 1)%Z. split; [apply double_add_exact; lia|lia]. }
  destruct Hnext as (i' & -> & Hi').
  specialize (IH i' stop Hi' Hstop).
  destruct (range_up fuel (Double.Num i') stop 1) as [out r]. exact IH.
Qed.

(** X1: with a positive step, as long as every sum is exact (from
    [-2^53] on, with [stop - 1 + step] up to [2^53]), [range(start, stop,
    step)] yields [start], [start + step], ... as long as the value is
    below [stop] and returns: it yields the distance over the step,
    rounded up, many values, all of them from [start] up to below [stop],
    and the value after the last is not below [stop]; it yields nothing
    when [stop <= start]. Where the sums are no longer exact it need not
    return: from [2^53] on, adding 1 moves nothing, and [range(2^53, far,
    1)] yields [2^53] without end. *)
Theorem range_ascending (fuel : nat) (start stop step : Z) :
  (0 < step)%Z ->
  (- Double.exact <= start)%Z ->
  (stop - 1 + step <= Double.exact)%Z ->
  steps_between (stop - start) step < fuel ->
  let n := steps_between (stop - start) step in
  range fuel start (Some stop) step
  = (map (fun k => Double.Num (start + Z.of_nat k * step)) (seq 0 n),
     Done tt)
  /\ Forall (fun v => exists z, v = Double.Num z /\ (start <= z < stop)%Z)
       (yielded (range fuel start (Some stop) step))
  /\ (stop <= start + Z.of_nat n * step)%Z
  /\ ((stop <= start)%Z -> n = 0)
  /\ (forall (far : Z) (rounds : nat),
        (Double.exact < far)%Z ->
        range rounds Double.exact (Some far) 1
        = (repeat (Double.Num Double.exact) rounds, Timeout)).
Proof.
  intros Hstep Hlow Hhigh Hfuel n.
  assert (Hrun : range fuel start (Some stop) step
                 = (map (fun k => Double.Num (start + Z.of_nat k * step))
                      (seq 0 n),
                    Done tt)).
  { unfold range. replace (step >? 0)%Z with true by lia.
    apply range_up_run; assumption. }
  destruct (steps_between_bounds (stop - start) Hstep) as (Hupper & Hlower).
  split; [exact Hrun|]. split; [|split; [|split]].
  - rewrite Hrun. unfold yielded. cbn [fst].
    apply Forall_forall. intros v Hv.
    apply in_map_iff in Hv as (k & <- & Hk). apply in_seq in Hk.
    specialize (Hlower k ltac:(lia)).
    assert (0 <= Z.of_nat k * step)%Z by (apply Z.mul_nonneg_nonneg; lia).
    eexists. split; [reflexivity|lia].
  - fold n in Hupper. lia.
  - intros Hle. apply steps_between_none; lia.
  - intros far rounds Hfar. unfold range. cbn [Z.gtb Z.compare].
    apply range_up_stuck, Hfar.
Qed.

Lemma range_ascending_witness :
  (0 < 3)%Z
  /\ (- Double.exact <= 0)%Z
  /\ (10 - 1 + 3 <= Double.exact)%Z
  /\ steps_between (10 - 0) 3 < 5
  /\ range 5 0 (Some 10%Z) 3 = (map Double.Num [0; 3; 6; 9]%Z, Done tt).
Proof.
  assert (H1 : (0 < 3)%Z) by lia.
  assert (H2 : (- Double.exact <= 0)%Z) by (vm_compute; discriminate).
  assert (H3 : (10 - 1 + 3 <= Double.exact)%Z)
    by (vm_compute; discriminate).
  assert (H4 : steps_between (10 - 0) 3 < 5) by (vm_compute; lia).
  refine (conj H1 (conj H2 (conj H3 (conj H4 _)))).
  exact (proj1 (@range_ascending 5 0 10 3 H1 H2 H3 H4)).
Defined.

(** X2: with a negative step, as long as every sum is exact (from [2^53]
    down, with [stop + 1 + step] not below [-2^53]), [range(start, stop,
    step)] counts down: it yields [start], [start + step], ... as long as
    the value is above [stop] and returns; all values are from [start]
    down to above [stop], and it yields nothing when [stop >= start].
    Where the sums are no longer exact it need not return:
    [range(-2^53, far, -1)] yields [-2^53] without end. *)
Theorem range_descending (fuel : nat) (start stop step : Z) :
  (step < 0)%Z ->
  (start <= Double.exact)%Z ->
  (- Double.exact <= stop + 1 + step)%Z ->
  steps_between (start - stop) (- step) < fuel ->
  let n := steps_between (start - stop) (- step) in
  range fuel start (Some stop) step
  = (map (fun k => Double.Num (start + Z.of_nat k * step)) (seq 0 n),
     Done tt)
  /\ Forall (fun v => exists z, v = Double.Num z /\ (stop < z <= start)%Z)
       (yielded (range fuel start (Some stop) step))
  /\ (start + Z.of_nat n * step <= stop)%Z
  /\ ((start <= stop)%Z -> n = 0)
  /\ (forall (far : Z) (rounds : nat),
        (far < - Double.exact)%Z ->
        range rounds (- Double.exact) (Some far) (-1)
        = (repeat (Double.Num (- Double.exact)) rounds, Timeout)).
Proof.
  intros Hstep Hhigh Hlow Hfuel n.
  assert (Hpos : (0 < - step)%Z) by lia.
  assert (Hrun : range fuel start (Some stop) step
                 = (map (fun k => Double.Num (start + Z.of_nat k * step))
                      (seq 0 n),
                    Done tt)).
  { unfold range. replace (step >? 0)%Z with false by lia.
    apply range_down_run; assumption. }
  destruct (steps_between_bounds (start - stop) Hpos) as (Hupper & Hlower).
  split; [exact Hrun|]. split; [|split; [|split]].
  - rewrite Hrun. unfold yielded. cbn [fst].
    apply Forall_forall. intros v Hv.
    apply in_map_iff in Hv as (k & <- & Hk). apply in_seq in Hk.
    specialize (Hlower k ltac:(lia)).
    assert (0 <= Z.of_nat k * - step)%Z by (apply Z.mul_nonneg_nonneg; lia).
    eexists. split; [reflexivity|lia].
  - fold n in Hupper. lia.
  - intros Hle. apply steps_between_none; lia.
  - intros far rounds Hfar. unfold range.
    replace (-1 >? 0)%Z with false by reflexivity.
    apply range_down_stuck_at, Hfar.
Qed.

Lemma range_descending_witness :
  (-1 < 0)%Z
  /\ (2 <= Double.exact)%Z
  /\ (- Double.exact <= -2 + 1 + -1)%Z
  /\ steps_between (2 - -2) (- -1) < 5
  /\ range 5 2 (Some (-2)%Z) (-1) = (map Double.Num [2; 1; 0; -1]%Z, Done tt).
Proof.
  assert (H1 : (-1 < 0)%Z) by lia.
  assert (H2 : (2 <= Double.exact)%Z) by (vm_compute; discriminate).
  assert (H3 : (- Double.exact <= -2 + 1 + -1)%Z)
    by (vm_compute; discriminate).
  assert (H4 : steps_between (2 - -2) (- -1) < 5) by (vm_compute; lia).
  refine (conj H1 (conj H2 (conj H3 (conj H4 _)))).
  exact (proj1 (@range_descending 5 2 (-2) (-1) H1 H2 H3 H4)).
Defined.

Lemma range_down_stuck (fuel : nat) (i stop : Z) :
  Double.of_sum i = Double.Num i ->
  (stop < i)%Z ->
  range_down fuel (Double.Num i) stop 0
  = (repeat (Double.Num i) fuel, Timeout).
Proof.
  intros Hdouble Hi. induction fuel as [|fuel IH]; [reflexivity|].
  cbn [range_down Double.gt Double.add].
  replace (i >? stop)%Z with true by lia.
  rewrite Z.add_0_r, Hdouble, IH. reflexivity.
Qed.

(** X3: with one argument [range(stop)] counts from 0 up to [stop - 1],
    for a [stop] of up to [2^53]; towards a [stop] beyond that it does not
    return, as from [2^53] on adding 1 moves nothing. With a step of 0
    [range] takes the counting-down loop, which never moves: from a
    [start] that is a double it yields [start] without end when
    [start > stop], and nothing otherwise. *)
Theorem range_defaults_and_zero_step (fuel m : nat) (start stop : Z) :
  m < fuel ->
  (Z.of_nat m <= Double.exact)%Z ->
  Double.of_sum start = Double.Num start ->
  range fuel (Z.of_nat m) None 1
  = (map (fun k => Double.Num (Z.of_nat k)) (seq 0 m), Done tt)
  /\ ((stop < start)%Z ->
      forall rounds, range rounds start (Some stop) 0
                     = (repeat (Double.Num start) rounds, Timeout))
  /\ ((start <= stop)%Z -> range fuel start (Some stop) 0 = ([], Done tt))
  /\ (forall (far : Z) (rounds : nat),
        (Double.exact < far)%Z ->
        ending (range rounds far None 1) = Timeout).
Proof.
  intros Hfuel Hm Hdouble.
  assert (Hsteps : steps_between (Z.of_nat m - 0) 1 = m).
  { unfold steps_between. rewrite Z.div_1_r. lia. }
  pose proof double_exact_pos as Hexact.
  split; [|split; [|split]].
  - unfold range. cbn [Z.gtb Z.compare].
    rewrite range_up_run by lia. rewrite Hsteps. f_equal.
    apply map_ext. intros k. f_equal. lia.
  - intros Hlt rounds. unfold range. cbn [Z.gtb Z.compare].
    apply range_down_stuck; assumption.
  - intros Hle. unfold range. cbn [Z.gtb Z.compare].
    destruct fuel as [|fuel]; [lia|]. cbn [range_down Double.gt].
    replace (start >? stop)%Z with false by lia. reflexivity.
  - intros far rounds Hfar. unfold range. cbn [Z.gtb Z.compare].
    apply range_up_forever; lia.
Qed.

Lemma range_defaults_and_zero_step_witness :
  3 < 4
  /\ (Z.of_nat 3 <= Double.exact)%Z
  /\ Double.of_sum 0 = Double.Num 0
  /\ range 4 (Z.of_nat 3) None 1
     = (map (fun k => Double.Num (Z.of_nat k)) (seq 0 3), Done tt).
Proof.
  assert (H1 : 3 < 4) by lia.
  assert (H2 : (Z.of_nat 3 <= Double.exact)%Z) by (vm_compute; discriminate).
  assert (H3 : Double.of_sum 0 = Double.Num 0) by reflexivity.
  refine (conj H1 (conj H2 (conj H3 _))).
  exact (proj1 (@range_defaults_and_zero_step 4 3 0%Z 0%Z H1 H2 H3)).
Defined.

(** ** [repeat] *)

Lemma repeat_run {V : Type} (item : V) (k : nat) :
  forall (fuel : nat) (n : Z),
    n = Z.of_nat k -> k < fuel ->
    Repeat.repeat fuel item (Int n) = (repeat item k, Done tt).
Proof.
  induction k as [|k IH]; intros fuel n Hn Hfuel;
    (destruct fuel as [|fuel]; [lia|]);
    cbn [Repeat.repeat Num.gt Num.lt Num.pred].
  - replace (0 <? n)%Z with false by lia. reflexivity.
  - replace (0 <? n)%Z with true by lia.
    rewrite (IH fuel (n - 1)%Z) by lia. reflexivity.
Qed.

(** X4: [repeat(item, n)] yields [item] exactly [n] times for [n >= 0] and
    returns, and nothing for a negative [n]; without a count it yields
    [item] without end. *)
Theorem repeat_count {V : Type} (item : V) (n : Z) (fuel : nat) :
  Z.to_nat n < fuel ->
  Repeat.repeat fuel item (Int n) = (repeat item (Z.to_nat n), Done tt)
  /\ ((n < 0)%Z -> Repeat.repeat fuel item (Int n) = ([], Done tt))
  /\ (forall rounds,
        Repeat.repeat rounds item Infinity = (repeat item rounds, Timeout)).
Proof.
  intros Hfuel. split; [|split].
  - destruct (Z_lt_le_dec n 0) as [Hneg|Hpos].
    + destruct fuel as [|fuel]; [lia|].
      cbn [Repeat.repeat Num.gt Num.lt].
      replace (0 <? n)%Z with false by lia.
      replace (Z.to_nat n) with 0 by lia. reflexivity.
    + apply repeat_run; lia.
  - intros Hneg. destruct fuel as [|fuel]; [lia|].
    cbn [Repeat.repeat Num.gt Num.lt].
    replace (0 <? n)%Z with false by lia. reflexivity.
  - intros rounds. induction rounds as [|rounds IH]; [reflexivity|].
    cbn [Repeat.repeat Num.gt Num.lt Num.pred]. rewrite IH. reflexivity.
Qed.

Lemma repeat_count_witness :
  Z.to_nat 3 < 4
  /\ Repeat.repeat 4 7%Z (Int 3) = (repeat 7%Z (Z.to_nat 3), Done tt).
Proof.
  assert (H1 : Z.to_nat 3 < 4) by (simpl; lia).
  refine (conj H1 _).
  exact (proj1 (repeat_count 7%Z 3 H1)).
Defined.

(** ** [zip] and [enumerate] *)

Lemma forallb_map_compose {T U : Type} (f : U -> bool) (g : T -> U)
  (l : list T) :
  forallb f (map g l) = forallb (fun x => f (g x)) l.
Proof.
  induction l as [|x l IH]; [reflexivity|]. cbn. rewrite IH. reflexivity.
Qed.

Lemma forallb_ext_all {T : Type} (f g : T -> bool) (l : list T) :
  (forall x, f x = g x) -> forallb f l = forallb g l.
Proof.
  intros H. induction l as [|x l IH]; [reflexivity|].
  cbn. rewrite H, IH. reflexivity.
Qed.

Section ZipProps.
Context {V : Type}.

Lemma next_fst (c : cursor V) : fst (next c) = cursor_nth c 0.
Proof. destruct c as [[|x rest]|f]; reflexivity. Qed.

Lemma next_snd_nth (c : cursor V) (j : nat) :
  cursor_nth (snd (next c)) j = cursor_nth c (S j).
Proof.
  destruct c as [[|x rest]|f]; cbn; try reflexivity.
  destruct j; reflexivity.
Qed.

Lemma zip_next_nth (cs : list (cursor V)) :
  zip_next cs
  = (if forallb (fun c => negb (is_done (cursor_nth c 0))) cs
     then Some (values (map (fun c => cursor_nth c 0) cs))
     else None,
     map (fun c => snd (next c)) cs).
Proof.
  unfold zip_next. rewrite forallb_map_compose, !map_map.
  rewrite (map_ext (fun c => fst (next c)) (fun c => cursor_nth c 0))
    by apply next_fst.
  rewrite (forallb_ext_all (fun c => negb (is_done (fst (next c))))
             (fun c => negb (is_done (cursor_nth c 0))))
    by (intros c; rewrite next_fst; reflexivity).
  destruct (forallb _ cs); reflexivity.
Qed.

Lemma tuple_at_next (cs : list (cursor V)) (j : nat) :
  tuple_at (map (fun c => snd (next c)) cs) j = tuple_at cs (S j).
Proof.
  unfold tuple_at. rewrite map_map. f_equal.
  apply map_ext. intros c. apply next_snd_nth.
Qed.

Lemma zip_loop_shortest (m : nat) :
  forall (cs : list (cursor V)) (fuel : nat),
    (forall j c, j < m -> In c cs -> cursor_nth c j <> None) ->
    (exists c, In c cs /\ cursor_nth c m = None) ->
    m < fuel ->
    zip_loop fuel cs = (map (tuple_at cs) (seq 0 m), Done tt).
Proof.
  induction m as [|m IH]; intros cs fuel Hall (c0 & Hin0 & Hnone) Hfuel;
    (destruct fuel as [|fuel]; [lia|]); cbn [zip_loop];
    rewrite zip_next_nth.
  - replace (forallb (fun c => negb (is_done (cursor_nth c 0))) cs)
      with false; [reflexivity|].
    symmetry. apply not_true_is_false. intros Hf.
    rewrite forallb_forall in Hf. specialize (Hf c0 Hin0).
    rewrite Hnone in Hf. discriminate.
  - replace (forallb (fun c => negb (is_done (cursor_nth c 0))) cs)
      with true.
    2:{ symmetry. apply forallb_forall. intros c Hc.
        specialize (Hall 0 c ltac:(lia) Hc).
        destruct (cursor_nth c 0); [reflexivity|contradiction]. }
    rewrite IH.
    + cbn [seq map]. rewrite <- seq_shift, map_map. f_equal. f_equal.
      apply map_ext. intros j. apply tuple_at_next.
    + intros j c Hj Hc. apply in_map_iff in Hc as (c' & <- & Hc').
      rewrite next_snd_nth. apply Hall; [lia|exact Hc'].
    + exists (snd (next c0)). split.
      * apply in_map_iff. exists c0. split; [reflexivity|exact Hin0].
      * rewrite next_snd_nth. exact Hnone.
    + lia.
Qed.

Lemma zip_loop_endless (fuel : nat) :
  forall cs : list (cursor V),
    (forall j c, In c cs -> cursor_nth c j <> None) ->
    zip_loop fuel cs = (map (tuple_at cs) (seq 0 fuel), Timeout).
Proof.
  induction fuel as [|fuel IH]; intros cs Hall; [reflexivity|].
  cbn [zip_loop]. rewrite zip_next_nth.
  replace (forallb (fun c => negb (is_done (cursor_nth c 0))) cs) with true.
  2:{ symmetry. apply forallb_forall. intros c Hc.
      specialize (Hall 0 c Hc).
      destruct (cursor_nth c 0); [reflexivity|contradiction]. }
  rewrite IH.
  - cbn [seq map]. rewrite <- seq_shift, map_map. f_equal. f_equal.
    apply map_ext. intros j. apply tuple_at_next.
  - intros j c Hc. apply in_map_iff in Hc as (c' & <- & Hc').
    rewrite next_snd_nth. apply Hall, Hc'.
Qed.

Lemma values_all_some (result : list (option V)) :
  Forall (fun r => r <> None) result ->
  length (values result) = length result.
Proof.
  induction 1 as [|r result Hr Hall IH]; [reflexivity|].
  destruct r; [|contradiction]. cbn. rewrite <- IH. reflexivity.
Qed.

End ZipProps.

(** X5: [zip] stops at the shortest sequence: when every sequence has [m]
    values and one of them has no more, [zip] yields [m] tuples and
    returns; the [j]-th tuple holds the [j]-th value of every sequence, in
    the order of the arguments. *)
Theorem zip_stops_at_shortest {V : Type} (iterables : list (iterable V))
  (m fuel : nat) :
  (forall j i, j < m -> In i iterables -> cursor_nth (iterator i) j <> None) ->
  (exists i, In i iterables /\ cursor_nth (iterator i) m = None) ->
  m < fuel ->
  zip fuel iterables
  = (map (tuple_at (map iterator iterables)) (seq 0 m), Done tt)
  /\ length (yielded (zip fuel iterables)) = m
  /\ Forall (fun t => length t = length iterables)
       (yielded (zip fuel iterables)).
Proof.
  intros Hall (i0 & Hin0 & Hnone) Hfuel.
  assert (Hrun : zip fuel iterables
                 = (map (tuple_at (map iterator iterables)) (seq 0 m),
                    Done tt)).
  { unfold zip. apply zip_loop_shortest.
    - intros j c Hj Hc. apply in_map_iff in Hc as (i & <- & Hi). auto.
    - exists (iterator i0). split; [apply in_map, Hin0|exact Hnone].
    - exact Hfuel. }
  split; [exact Hrun|]. rewrite Hrun. unfold yielded. cbn [fst].
  split; [rewrite length_map, length_seq; reflexivity|].
  apply Forall_forall. intros t Ht.
  apply in_map_iff in Ht as (j & <- & Hj). apply in_seq in Hj.
  unfold tuple_at. rewrite values_all_some, !length_map; [reflexivity|].
  apply Forall_forall. intros r Hr.
  apply in_map_iff in Hr as (c & <- & Hc).
  apply in_map_iff in Hc as (i & <- & Hi). apply Hall; [lia|exact Hi].
Qed.

Lemma zip_stops_at_shortest_witness :
  (forall j i, j < 2 -> In i [Arr [1; 2; 3]%Z; Arr [7; 8]%Z] ->
               cursor_nth (iterator i) j <> None)
  /\ (exists i, In i [Arr [1; 2; 3]%Z; Arr [7; 8]%Z]
                /\ cursor_nth (iterator i) 2 = None)
  /\ 2 < 3
  /\ zip 3 [Arr [1; 2; 3]%Z; Arr [7; 8]%Z]
     = (map (tuple_at (map iterator [Arr [1; 2; 3]%Z; Arr [7; 8]%Z]))
          (seq 0 2), Done tt).
Proof.
  assert (H1 : forall j i, j < 2 -> In i [Arr [1; 2; 3]%Z; Arr [7; 8]%Z] ->
                           cursor_nth (iterator i) j <> None).
  { intros j i Hj [<-|[<-|[]]]; destruct j as [|[|j]];
      simpl; try discriminate; lia. }
  assert (H2 : exists i, In i [Arr [1; 2; 3]%Z; Arr [7; 8]%Z]
                         /\ cursor_nth (iterator i) 2 = None).
  { exists (Arr [7; 8]%Z). split; [right; left; reflexivity|reflexivity]. }
  assert (H3 : 2 < 3) by lia.
  refine (conj H1 (conj H2 (conj H3 _))).
  exact (proj1 (zip_stops_at_shortest _ H1 H2 H3)).
Defined.

(** X6: [zip] of sequences none of which ends never returns: after any
    number of rounds it has yielded that many tuples and is still
    running. *)
Theorem zip_endless {V : Type} (iterables : list (iterable V)) :
  (forall j i, In i iterables -> cursor_nth (iterator i) j <> None) ->
  forall rounds,
    zip rounds iterables
    = (map (tuple_at (map iterator iterables)) (seq 0 rounds), Timeout).
Proof.
  intros Hall rounds. unfold zip. apply zip_loop_endless.
  intros j c Hc. apply in_map_iff in Hc as (i & <- & Hi). auto.
Qed.

Lemma zip_endless_witness :
  (forall j i, In i [Iter (count 0 1); Iter (count 5 2)] ->
               cursor_nth (iterator i) j <> None)
  /\ zip 2 [Iter (count 0 1); Iter (count 5 2)]
     = (map (tuple_at (map iterator [Iter (count 0 1); Iter (count 5 2)]))
          (seq 0 2), Timeout).
Proof.
  assert (H1 : forall j i, In i [Iter (count 0 1); Iter (count 5 2)] ->
                           cursor_nth (iterator i) j <> None).
  { intros j i [<-|[<-|[]]]; simpl; discriminate. }
  refine (conj H1 _).
  exact (zip_endless _ H1 2).
Defined.

Lemma enumerate_loop {N A : Type} (number : nat -> N) (l : list A) :
  forall (fuel : nat) (g : nat -> N + A) (a : nat),
    (forall k, k < length l -> g k = inl (number (a + k))) ->
    length l < fuel ->
    zip_loop fuel [Infinite g; Finite (map inr l)]
    = (map (fun jv => [inl (number (fst jv)); inr (snd jv)])
         (combine (seq a (length l)) l),
       Done tt).
Proof.
  induction l as [|v l IH]; intros fuel g a Hg Hfuel;
    (destruct fuel as [|fuel]; [cbn in Hfuel; lia|]).
  - reflexivity.
  - cbn [length] in Hfuel, Hg.
    cbn [zip_loop zip_next map next fst snd forallb is_done negb andb
         values flat_map app].
    rewrite (IH fuel (fun k => g (S k)) (S a)); [|intros k Hk|lia].
    + rewrite (Hg 0), Nat.add_0_r by lia. reflexivity.
    + rewrite Hg by lia. do 2 f_equal. lia.
Qed.

(** The sums of [count] are exact as long as they stay within [2^53] in
    magnitude. *)
Lemma double_count_exact (start step : Z) (k : nat) :
  (forall j, j <= k ->
     (- Double.exact <= start + Z.of_nat j * step <= Double.exact)%Z) ->
  Nat.iter k (fun s => Double.add s step) (Double.Num start)
  = Double.Num (start + Z.of_nat k * step).
Proof.
  induction k as [|k IH]; intros Hj; [cbn; f_equal; lia|].
  rewrite Nat.iter_succ, IH by (intros j Hjk; apply Hj; lia).
  rewrite double_add_exact.
  - f_equal. lia.
  - specialize (Hj (S k) (le_n _)). lia.
Qed.

(** From [2^53] on, [count] by 1 moves nothing. *)
Lemma double_count_stuck (k : nat) :
  Nat.iter k (fun s => Double.add s 1) (Double.Num Double.exact)
  = Double.Num Double.exact.
Proof.
  induction k as [|k IH]; [reflexivity|].
  rewrite Nat.iter_succ, IH. apply double_add_stuck.
Qed.

Lemma between_endpoints (start step : Z) (j k : nat) :
  j <= k ->
  (- Double.exact <= start <= Double.exact)%Z ->
  (- Double.exact <= start + Z.of_nat k * step <= Double.exact)%Z ->
  (- Double.exact <= start + Z.of_nat j * step <= Double.exact)%Z.
Proof.
  intros Hjk Hstart Hend.
  destruct (Z_le_gt_dec 0 step) as [Hstep|Hstep].
  - assert (0 <= Z.of_nat j * step <= Z.of_nat k * step)%Z by nia. lia.
  - assert (Z.of_nat k * step <= Z.of_nat j * step <= 0)%Z by nia. lia.
Qed.

(** X7: [enumerate(iterable, start)] numbers the items of a finite
    sequence: as long as the numbers are exact (from [-2^53] on, the last
    one up to [2^53]) it yields the pairs [[start + j, item_j]] for every
    position [j], in order, and returns, and the numbers are those that
    the sums of integers give; from [2^53] on, adding 1 moves nothing,
    and [enumerate(iterable, 2^53)] gives every item the number [2^53]. *)
Theorem enumerate_numbers_items {A : Type} (i : iterable A) (l : list A)
  (start : Z) (fuel : nat) :
  holds i l ->
  length l < fuel ->
  (- Double.exact <= start)%Z ->
  (start + Z.of_nat (length l) - 1 <= Double.exact)%Z ->
  zip_loop fuel (Double.enumerate i start)
  = (map (fun jv => [inl (Double.Num (start + Z.of_nat (fst jv)));
                     inr (snd jv)])
       (combine (seq 0 (length l)) l),
     Done tt)
  /\ zip_loop fuel (enumerate i start)
     = (map (fun jv => [inl (start + Z.of_nat (fst jv))%Z; inr (snd jv)])
          (combine (seq 0 (length l)) l),
        Done tt)
  /\ zip_loop fuel (Double.enumerate i Double.exact)
     = (map (fun v => [inl (Double.Num Double.exact); inr v]) l, Done tt).
Proof.
  intros Hi Hfuel Hlow Hhigh.
  assert (Hit : iterator i = Finite l) by (destruct Hi; subst; reflexivity).
  split; [|split].
  - unfold Double.enumerate. rewrite Hit. cbn [cursor_map Double.count].
    apply (@enumerate_loop Double.sum A
             (fun j => Double.Num (start + Z.of_nat j)));
      [|exact Hfuel].
    intros k Hk. rewrite double_count_exact; [do 2 f_equal; lia|].
    intros j Hj. nia.
  - unfold enumerate. rewrite Hit. cbn [cursor_map count].
    apply (@enumerate_loop Z A (fun j => (start + Z.of_nat j)%Z));
      [|exact Hfuel].
    intros k _. rewrite count_nth. f_equal. lia.
  - unfold Double.enumerate. rewrite Hit. cbn [cursor_map Double.count].
    rewrite (@enumerate_loop Double.sum A
               (fun _ => Double.Num Double.exact) l fuel _ 0);
      [|intros k _; rewrite double_count_stuck; reflexivity|exact Hfuel].
    f_equal. clear. generalize 0.
    induction l as [|v l IH]; intros a; [reflexivity|].
    cbn [length seq combine map fst snd]. rewrite IH. reflexivity.
Qed.

Lemma enumerate_numbers_items_witness :
  holds (Arr ["A"; "B"; "C"]%string) ["A"; "B"; "C"]%string
  /\ length ["A"; "B"; "C"]%string < 4
  /\ (- Double.exact <= 10)%Z
  /\ (10 + Z.of_nat (length ["A"; "B"; "C"]%string) - 1 <= Double.exact)%Z
  /\ zip_loop 4 (Double.enumerate (Arr ["A"; "B"; "C"]%string) 10)
     = ([[inl (Double.Num 10); inr "A"%string];
         [inl (Double.Num 11); inr "B"%string];
         [inl (Double.Num 12); inr "C"%string]], Done tt).
Proof.
  assert (H1 : holds (Arr ["A"; "B"; "C"]%string) ["A"; "B"; "C"]%string)
    by (left; reflexivity).
  assert (H2 : length ["A"; "B"; "C"]%string < 4) by (simpl; lia).
  assert (H3 : (- Double.exact <= 10)%Z) by (vm_compute; discriminate).
  assert (H4 : (10 + Z.of_nat (length ["A"; "B"; "C"]%string) - 1
                <= Double.exact)%Z) by (vm_compute; discriminate).
  refine (conj H1 (conj H2 (conj H3 (conj H4 _)))).
  exact (proj1 (@enumerate_numbers_items string _ _ 10 4 H1 H2 H3 H4)).
Defined.

(** ** Iterator objects in a store *)

Section StoreLemmas.
Context {V : Type}.

Lemma update_length (h : Shared.store V) :
  forall place c, length (Shared.update place c h) = length h.
Proof.
  induction h as [|c0 h IH]; intros [|place] c; cbn; auto.
Qed.

Lemma update_same (h : Shared.store V) :
  forall place c,
    place < length h -> nth_error (Shared.update place c h) place = Some c.
Proof.
  induction h as [|c0 h IH]; intros [|place] c Hlt; cbn in *; try lia;
    [reflexivity|]. apply IH. lia.
Qed.

Lemma update_other (h : Shared.store V) :
  forall place q c,
    place <> q -> nth_error (Shared.update place c h) q = nth_error h q.
Proof.
  induction h as [|c0 h IH]; intros [|place] [|q] c Hne; cbn;
    try reflexivity; try contradiction. apply IH. congruence.
Qed.

Lemma update_twice (h : Shared.store V) :
  forall place c c',
    Shared.update place c' (Shared.update place c h)
    = Shared.update place c' h.
Proof.
  induction h as [|c0 h IH]; intros [|place] c c'; cbn;
    try reflexivity. rewrite IH. reflexivity.
Qed.

Lemma nth_error_valid (h : Shared.store V) (place : nat) (c : cursor V) :
  nth_error h place = Some c -> place < length h.
Proof. intros H. apply nth_error_Some. rewrite H. discriminate. Qed.

Lemma held_update (h : Shared.store V) (place : nat) (c : cursor V)
  (a : Shared.argument V) :
  ~ In place (objects [a]) ->
  held (Shared.update place c h) a = held h a.
Proof.
  destruct a as [l|q]; cbn; [reflexivity|]. intros Hne.
  rewrite update_other; [reflexivity|]. intros ->. apply Hne. left; reflexivity.
Qed.

End StoreLemmas.

(** ** [chain] *)

Lemma bind_assoc {St B X Y W : Type} (m : Gen St B X)
  (k : X -> Gen St B Y) (k' : Y -> Gen St B W) (s : St) :
  G.bind (G.bind m k) k' s = G.bind m (fun x => G.bind (k x) k') s.
Proof.
  unfold G.bind. destruct (m s) as [out [[x s1]|e|]]; try reflexivity.
  destruct (k x s1) as [out1 [[y s2]|e|]]; try reflexivity.
  destruct (k' y s2) as [out2 r]. rewrite app_assoc. reflexivity.
Qed.

Lemma bind_ext {St B X Y : Type} (m : Gen St B X)
  (k k' : X -> Gen St B Y) (s : St) :
  (forall x s', k x s' = k' x s') -> G.bind m k s = G.bind m k' s.
Proof.
  intros H. unfold G.bind. destruct (m s) as [out [[x s1]|e|]];
    try reflexivity. rewrite H. reflexivity.
Qed.

Lemma for_each_app {St A B : Type} (body : A -> Gen St B unit)
  (l1 l2 : list A) (s : St) :
  for_each (l1 ++ l2) body s
  = G.bind (for_each l1 body) (fun _ => for_each l2 body) s.
Proof.
  revert s. induction l1 as [|x l1 IH]; intros s.
  - cbn [app for_each]. rewrite bind_ret. reflexivity.
  - cbn [app for_each]. rewrite bind_assoc.
    apply bind_ext. intros _ s'. apply IH.
Qed.

Section ChainProps.
Context {V : Type}.

Lemma chain_distinct_run (fuel : nat) (args : list (Shared.argument V)) :
  forall h : Shared.store V,
    NoDup (objects args) ->
    (forall place, In place (objects args) ->
                   exists rest, nth_error h place = Some (Finite rest)) ->
    exists h',
      Shared.chain fuel args h
      = (concat (map (held h) args), Done (tt, h')).
Proof.
  induction args as [|a args IH]; intros h Hnd Hfin.
  - exists h. reflexivity.
  - unfold Shared.chain in *. cbn [for_each map concat].
    destruct a as [l|place].
    + destruct (IH h Hnd) as [h' Hrun].
      { intros q Hq. apply Hfin. exact Hq. }
      exists h'. erewrite bind_done; [|reflexivity]. cbv beta.
      rewrite Hrun. reflexivity.
    + cbn [objects flat_map app] in Hnd, Hfin.
      apply NoDup_cons_iff in Hnd as (Hnotin & Hnd).
      destruct (Hfin place (or_introl eq_refl)) as [rest Hrest].
      destruct (IH (Shared.update place (Finite []) h) Hnd) as [h' Hrun].
      { intros q Hq. destruct (Hfin q (or_intror Hq)) as [r Hr].
        exists r. rewrite update_other; [exact Hr|].
        intros ->. contradiction. }
      exists h'. erewrite bind_done.
      2:{ unfold Shared.drain. rewrite Hrest. reflexivity. }
      cbv beta. rewrite Hrun. cbn [fst snd held]. rewrite Hrest.
      f_equal. f_equal. f_equal. apply map_ext_in. intros a Ha.
      apply held_update. intros Hin. apply Hnotin.
      unfold objects in *. apply in_flat_map. exists a. split; [exact Ha|].
      cbn in Hin. rewrite app_nil_r in Hin. exact Hin.
Qed.

Lemma chain_keeps_exhausted (fuel : nat) (args : list (Shared.argument V)) :
  forall (h h' : Shared.store V) (out : list V) (place : nat),
    Shared.chain fuel args h = (out, Done (tt, h')) ->
    nth_error h place = Some (Finite []) ->
    nth_error h' place = Some (Finite []).
Proof.
  induction args as [|a args IH]; intros h h' out place Hrun Hplace.
  - cbn in Hrun. injection Hrun as _ <-. exact Hplace.
  - unfold Shared.chain in *. cbn [for_each] in Hrun.
    unfold G.bind in Hrun. destruct a as [l|q].
    + cbn [G.of_array] in Hrun.
      destruct (for_each args _ h) as [out2 r2] eqn:Hrest.
      injection Hrun as _ ->. exact (IH _ _ _ _ Hrest Hplace).
    + unfold Shared.drain in Hrun.
      destruct (nth_error h q) as [[rest|f]|] eqn:Hq; try discriminate.
      destruct (for_each args _ (Shared.update q (Finite []) h))
        as [out2 r2] eqn:Hrest.
      injection Hrun as _ ->. apply (IH _ _ _ _ Hrest).
      destruct (Nat.eq_dec q place) as [->|Hne].
      * apply update_same. exact (nth_error_valid _ _ Hq).
      * rewrite update_other by exact Hne. exact Hplace.
Qed.

Lemma chain_exhausts (fuel : nat) (args : list (Shared.argument V)) :
  forall (h h' : Shared.store V) (out : list V) (place : nat),
    Shared.chain fuel args h = (out, Done (tt, h')) ->
    In (Shared.Object place) args ->
    nth_error h' place = Some (Finite []).
Proof.
  induction args as [|a args IH]; intros h h' out place Hrun Hin;
    [destruct Hin|].
  pose proof Hrun as Hrun0.
  unfold Shared.chain in Hrun. cbn [for_each] in Hrun.
  unfold G.bind in Hrun. destruct a as [l|q].
  - cbn [G.of_array] in Hrun.
    destruct (for_each args _ h) as [out2 r2] eqn:Hrest.
    injection Hrun as _ ->.
    destruct Hin as [Heq|Hin]; [discriminate|].
    exact (IH _ _ _ _ Hrest Hin).
  - unfold Shared.drain in Hrun.
    destruct (nth_error h q) as [[rest|f]|] eqn:Hq; try discriminate.
    destruct (for_each args _ (Shared.update q (Finite []) h))
      as [out2 r2] eqn:Hrest.
    injection Hrun as _ ->.
    destruct Hin as [[= ->]|Hin].
    + eapply chain_keeps_exhausted; [exact Hrest|].
      apply update_same. exact (nth_error_valid _ _ Hq).
    + exact (IH _ _ _ _ Hrest Hin).
Qed.

End ChainProps.

(** X8: [chain] of arrays and of finite iterator objects, no object given
    twice, yields everything the first argument holds, then everything the
    second holds, and so on, and returns. *)
Theorem chain_concatenates {V : Type} (fuel : nat)
  (args : list (Shared.argument V)) (h : Shared.store V) :
  NoDup (objects args) ->
  (forall place, In place (objects args) ->
                 exists rest, nth_error h place = Some (Finite rest)) ->
  G.run (Shared.chain fuel args) h = (concat (map (held h) args), Done tt)
  /\ length (yielded (G.run (Shared.chain fuel args) h))
     = list_sum (map (fun a => length (held h a)) args).
Proof.
  intros Hnd Hfin.
  destruct (chain_distinct_run fuel args h Hnd Hfin) as [h' Hrun].
  assert (Hres : G.run (Shared.chain fuel args) h
                 = (concat (map (held h) args), Done tt)).
  { unfold G.run. rewrite Hrun. reflexivity. }
  split; [exact Hres|]. rewrite Hres. unfold yielded. cbn [fst].
  rewrite length_concat, map_map. reflexivity.
Qed.

Lemma chain_concatenates_witness :
  NoDup (objects [Shared.Array ["A"; "B"]%string; Shared.Object 0])
  /\ (forall place,
        In place (objects [Shared.Array ["A"; "B"]%string; Shared.Object 0])
        -> exists rest,
             nth_error [Finite ["x"; "y"]%string] place = Some (Finite rest))
  /\ G.run (Shared.chain 1 [Shared.Array ["A"; "B"]%string; Shared.Object 0])
       [Finite ["x"; "y"]%string]
     = (["A"; "B"; "x"; "y"]%string, Done tt).
Proof.
  assert (H1 : NoDup (objects [Shared.Array ["A"; "B"]%string;
                               Shared.Object 0])).
  { cbn. constructor; [intros []|constructor]. }
  assert (H2 : forall place,
             In place (objects [Shared.Array ["A"; "B"]%string;
                                Shared.Object 0])
             -> exists rest,
                  nth_error [Finite ["x"; "y"]%string] place
                  = Some (Finite rest)).
  { cbn. intros place [<-|[]]. eexists. reflexivity. }
  refine (conj H1 (conj H2 _)).
  exact (proj1 (chain_concatenates 1 _ _ H1 H2)).
Defined.

(** X9: an iterator object that [chain] has walked is used up: given once
    more at the end of the arguments it adds nothing, so that [chain(x, x)]
    yields the items of [x] once. *)
Theorem chain_same_object_again {V : Type} (fuel : nat)
  (args : list (Shared.argument V)) (place : nat) (h : Shared.store V) :
  In (Shared.Object place) args ->
  G.run (Shared.chain fuel (args ++ [Shared.Object place])) h
  = G.run (Shared.chain fuel args) h.
Proof.
  intros Hin. unfold G.run, Shared.chain. rewrite for_each_app.
  unfold G.bind.
  destruct (for_each args _ h) as [out [[[] h']|e|]] eqn:Hrun;
    [|reflexivity|reflexivity].
  pose proof (@chain_exhausts V fuel args h h' out place Hrun Hin) as Hplace.
  cbn [for_each]. unfold G.bind, Shared.drain. rewrite Hplace.
  cbn [G.ret]. rewrite !app_nil_r. reflexivity.
Qed.

Lemma chain_same_object_again_witness :
  In (Shared.Object 0) [@Shared.Object Z 0]
  /\ G.run (Shared.chain 1 ([Shared.Object 0] ++ [Shared.Object 0]))
       [Finite [0; 1; 2]%Z]
     = ([0; 1; 2]%Z, Done tt).
Proof.
  assert (H1 : In (Shared.Object 0) [@Shared.Object Z 0])
    by (left; reflexivity).
  refine (conj H1 _).
  exact (chain_same_object_again 1 [Shared.Object 0] 0
           [Finite [0; 1; 2]%Z] H1).
Defined.

(** ** [zip] with iterator objects *)

Section SharedZipProps.
Context {V : Type}.

Lemma next_at_twice (place : nat) (h : Shared.store V) (c : cursor V) :
  nth_error h place = Some c ->
  map_gen (Shared.next_at (B := list V)) [place; place] h
  = ([], Done ([fst (next c); fst (next (snd (next c)))],
               Shared.update place (snd (next (snd (next c)))) h)).
Proof.
  intros Hc. pose proof (nth_error_valid _ _ Hc) as Hvalid.
  cbn [map_gen]. unfold G.bind, Shared.next_at, G.ret. rewrite Hc.
  destruct (next c) as [r1 c1]. cbn [fst snd].
  rewrite update_same by exact Hvalid.
  destruct (next c1) as [r2 c2]. cbn [fst snd app].
  rewrite update_twice. reflexivity.
Qed.

Lemma zip_same_object_loop (place : nat) (n : nat) :
  forall (l : list V) (fuel : nat) (h : Shared.store V),
    length l <= n ->
    nth_error h place = Some (Finite l) ->
    length l < fuel ->
    Shared.zip_loop fuel [place; place] h
    = (pairs l, Done (tt, Shared.update place (Finite []) h)).
Proof.
  induction n as [|n IH]; intros l fuel h Hn Hl Hfuel;
    (destruct fuel as [|fuel]; [lia|]); cbn [Shared.zip_loop];
    (erewrite bind_done; [|apply next_at_twice; exact Hl]); cbv beta;
    destruct l as [|a [|b l]]; cbn [length] in Hn, Hfuel; try lia;
    cbn [next fst snd forallb is_done negb andb pairs G.ret app];
    try reflexivity.
  erewrite bind_done; [|reflexivity]. cbv beta.
  pose proof (nth_error_valid _ _ Hl) as Hvalid.
  rewrite (IH l fuel (Shared.update place (Finite l) h));
    [|lia|apply update_same; exact Hvalid|lia].
  cbn [fst snd values flat_map app]. rewrite update_twice. reflexivity.
Qed.

End SharedZipProps.

(** X10: [zip(x, x)] with one iterator object in both places takes the
    items of [x] two at a time: it yields the consecutive pairs
    [[x0, x1]], [[x2, x3]], ... and returns, leaving out an odd last item;
    for an [x] that yields 0, 1, 2 it yields [[0, 1]] only. *)
Theorem zip_same_object_twice {V : Type} (place : nat) (l : list V)
  (fuel : nat) (h : Shared.store V) :
  nth_error h place = Some (Finite l) ->
  length l < fuel ->
  G.run (Shared.zip fuel [Shared.Object place; Shared.Object place]) h
  = (pairs l, Done tt).
Proof.
  intros Hl Hfuel. unfold G.run, Shared.zip.
  erewrite bind_done; [|reflexivity]. cbv beta.
  rewrite (@zip_same_object_loop V place (length l) l fuel h);
    [reflexivity|lia|exact Hl|exact Hfuel].
Qed.

Lemma zip_same_object_twice_witness :
  nth_error [Finite [0; 1; 2]%Z] 0 = Some (Finite [0; 1; 2]%Z)
  /\ length [0; 1; 2]%Z < 4
  /\ G.run (Shared.zip 4 [Shared.Object 0; Shared.Object 0])
       [Finite [0; 1; 2]%Z]
     = ([[0; 1]]%Z, Done tt).
Proof.
  assert (H1 : nth_error [Finite [0; 1; 2]%Z] 0 = Some (Finite [0; 1; 2]%Z))
    by reflexivity.
  assert (H2 : length [0; 1; 2]%Z < 4) by (simpl; lia).
  refine (conj H1 (conj H2 _)).
  exact (zip_same_object_twice 0 _ H1 H2).
Defined.

Section SharedZipGeneral.
Context {V : Type}.

Lemma object_at_valid (h : Shared.store V) (place : nat) :
  place < length h -> nth_error h place = Some (object_at h place).
Proof.
  intros Hlt. unfold object_at.
  destruct (nth_error h place) eqn:E; [reflexivity|].
  apply nth_error_None in E. lia.
Qed.

Lemma object_at_app (h news : Shared.store V) (place : nat) :
  place < length h -> object_at (h ++ news) place = object_at h place.
Proof.
  intros Hlt. unfold object_at. rewrite nth_error_app1 by exact Hlt.
  reflexivity.
Qed.

(** The iterators of the arguments: the objects themselves and new objects
    behind the store for the arrays. *)
Lemma iterators_run (args : list (Shared.argument V)) :
  forall h : Shared.store V,
    NoDup (objects args) ->
    (forall place, In place (objects args) -> place < length h) ->
    exists refs news,
      map_gen (Shared.iterator_of (B := list V)) args h
      = ([], Done (refs, h ++ news))
      /\ NoDup refs
      /\ (forall p, In p refs -> p < length (h ++ news))
      /\ map (object_at (h ++ news)) refs = map (cursor_in h) args
      /\ (forall p, In p refs -> p < length h -> In p (objects args))
      /\ (forall p, In p (objects args) -> In p refs).
Proof.
  induction args as [|a args IH]; intros h Hnd Hvalid.
  - exists [], []. rewrite app_nil_r.
    repeat split; auto using NoDup_nil; intros p [].
  - destruct a as [l|place].
    + destruct (IH (h ++ [Finite l]) Hnd) as
        (refs & news & Hrun & Hnd' & Hlt & Hmap & Hold & Hobj).
      { intros p Hp. rewrite length_app. specialize (Hvalid p Hp). lia. }
      exists (length h :: refs), (Finite l :: news).
      assert (Hstore : (h ++ [Finite l]) ++ news = h ++ Finite l :: news)
        by (rewrite <- app_assoc; reflexivity).
      rewrite Hstore in *. split; [|split; [|split; [|split; [|split]]]].
      * cbn [map_gen]. erewrite bind_done; [|reflexivity]. cbv beta.
        erewrite bind_done; [|exact Hrun]. reflexivity.
      * constructor; [|exact Hnd'].
        intros Hin. specialize (Hold _ Hin).
        rewrite length_app in Hold. cbn [length] in Hold.
        specialize (Hold ltac:(lia)). specialize (Hvalid _ Hold). lia.
      * intros p [<-|Hp]; [rewrite length_app; cbn; lia|auto].
      * cbn [map cursor_in]. f_equal.
        -- unfold object_at. rewrite nth_error_app2, Nat.sub_diag by lia.
           reflexivity.
        -- rewrite Hmap. apply map_ext_in. intros [l'|q] Ha; [reflexivity|].
           cbn [cursor_in]. apply object_at_app, Hvalid.
           unfold objects. apply in_flat_map.
           exists (Shared.Object q).
           split; [right; exact Ha|left; reflexivity].
      * intros p [<-|Hp] Hplt; [lia|].
        apply Hold; [exact Hp|rewrite length_app; lia].
      * intros p Hp. right. apply Hobj, Hp.
    + cbn [objects flat_map app] in Hnd, Hvalid.
      apply NoDup_cons_iff in Hnd as (Hnotin & Hnd).
      destruct (IH h Hnd) as
        (refs & news & Hrun & Hnd' & Hlt & Hmap & Hold & Hobj).
      { intros p Hp. apply Hvalid. right; exact Hp. }
      pose proof (Hvalid place (or_introl eq_refl)) as Hplace.
      exists (place :: refs), news.
      split; [|split; [|split; [|split; [|split]]]].
      * cbn [map_gen]. erewrite bind_done; [|reflexivity]. cbv beta.
        erewrite bind_done; [|exact Hrun]. reflexivity.
      * constructor; [|exact Hnd'].
        intros Hin. apply Hnotin, Hold; assumption.
      * intros p [<-|Hp]; [rewrite length_app; lia|auto].
      * cbn [map cursor_in]. f_equal; [|exact Hmap].
        apply object_at_app, Hplace.
      * intros p [<-|Hp] Hplt; [left; reflexivity|].
        right. apply Hold; assumption.
      * intros p [<-|Hp]; [left; reflexivity|right; apply Hobj, Hp].
Qed.

Lemma next_at_run {B : Type} (h : Shared.store V) (place : nat) :
  place < length h ->
  Shared.next_at (B := B) place h
  = ([], Done (fst (next (object_at h place)),
               Shared.update place (snd (next (object_at h place))) h)).
Proof.
  intros Hlt. unfold Shared.next_at. rewrite (object_at_valid h Hlt).
  destruct (next (object_at h place)); reflexivity.
Qed.

(** One round of [zip] on distinct iterator objects. *)
Lemma shared_round (refs : list nat) :
  forall h : Shared.store V,
    NoDup refs ->
    (forall p, In p refs -> p < length h) ->
    exists h',
      map_gen (Shared.next_at (B := list V)) refs h
      = ([], Done (map (fun p => cursor_nth (object_at h p) 0) refs, h'))
      /\ length h' = length h
      /\ (forall p, In p refs -> object_at h' p = snd (next (object_at h p)))
      /\ (forall q, ~ In q refs -> nth_error h' q = nth_error h q).
Proof.
  induction refs as [|p refs IH]; intros h Hnd Hvalid.
  - exists h. repeat split; auto. intros p [].
  - apply NoDup_cons_iff in Hnd as (Hnotin & Hnd).
    pose proof (Hvalid p (or_introl eq_refl)) as Hp.
    set (c1 := snd (next (object_at h p))).
    destruct (IH (Shared.update p c1 h) Hnd) as
      (h' & Hrun & Hlen & Hin & Hout).
    { intros q Hq. rewrite update_length. apply Hvalid. right; exact Hq. }
    assert (Hother : forall q, q <> p ->
              object_at (Shared.update p c1 h) q = object_at h q).
    { intros q Hq. unfold object_at. rewrite update_other by congruence.
      reflexivity. }
    exists h'. split; [|split; [|split]].
    + cbn [map_gen map]. erewrite bind_done; [|apply next_at_run, Hp].
      cbv beta. fold c1. erewrite bind_done; [|exact Hrun].
      cbn [fst snd G.ret app]. rewrite next_fst. do 4 f_equal.
      apply map_ext_in. intros q Hq. rewrite Hother; [reflexivity|].
      intros ->. contradiction.
    + rewrite Hlen. apply update_length.
    + intros q [<-|Hq].
      * unfold object_at at 1. rewrite (Hout p Hnotin).
        rewrite update_same by exact Hp. reflexivity.
      * rewrite (Hin q Hq), Hother; [reflexivity|].
        intros ->. contradiction.
    + intros q Hq. rewrite Hout by (intros H; apply Hq; right; exact H).
      apply update_other. intros ->. apply Hq. left; reflexivity.
Qed.

Lemma shared_zip_loop (refs : list nat) (m : nat) :
  forall (h : Shared.store V) (fuel : nat),
    NoDup refs ->
    (forall p, In p refs -> p < length h) ->
    (forall j p, j < m -> In p refs -> cursor_nth (object_at h p) j <> None) ->
    (exists p, In p refs /\ cursor_nth (object_at h p) m = None) ->
    m < fuel ->
    exists h',
      Shared.zip_loop fuel refs h
      = (map (tuple_at (map (object_at h) refs)) (seq 0 m), Done (tt, h'))
      /\ length h' = length h
      /\ (forall p j, In p refs ->
            cursor_nth (object_at h' p) j
            = cursor_nth (object_at h p) (S m + j))
      /\ (forall q, ~ In q refs -> nth_error h' q = nth_error h q).
Proof.
  induction m as [|m IH]; intros h fuel Hnd Hvalid Hall (p0 & Hp0 & Hnone) Hfuel;
    (destruct fuel as [|fuel]; [lia|]);
    destruct (@shared_round refs h Hnd Hvalid) as (h1 & Hrun & Hlen & Hin & Hout);
    cbn [Shared.zip_loop]; (erewrite bind_done; [|exact Hrun]); cbv beta;
    rewrite forallb_map_compose.
  - replace (forallb (fun p => negb (is_done (cursor_nth (object_at h p) 0)))
               refs) with false.
    2:{ symmetry. apply not_true_is_false. intros Hf.
        rewrite forallb_forall in Hf. specialize (Hf p0 Hp0).
        rewrite Hnone in Hf. discriminate. }
    exists h1. split; [reflexivity|]. split; [exact Hlen|]. split; [|exact Hout].
    intros p j Hp. rewrite (Hin p Hp), next_snd_nth. reflexivity.
  - replace (forallb (fun p => negb (is_done (cursor_nth (object_at h p) 0)))
               refs) with true.
    2:{ symmetry. apply forallb_forall. intros p Hp.
        specialize (Hall 0 p ltac:(lia) Hp).
        destruct (cursor_nth (object_at h p) 0); [reflexivity|contradiction]. }
    assert (Hmap : map (object_at h1) refs
                   = map (fun c => snd (next c)) (map (object_at h) refs)).
    { rewrite map_map. apply map_ext_in. intros p Hp. apply Hin, Hp. }
    destruct (IH h1 fuel Hnd) as (h' & Hloop & Hlen' & Hin' & Hout').
    + intros p Hp. rewrite Hlen. apply Hvalid, Hp.
    + intros j p Hj Hp. rewrite (Hin p Hp), next_snd_nth.
      apply Hall; [lia|exact Hp].
    + exists p0. split; [exact Hp0|].
      rewrite (Hin p0 Hp0), next_snd_nth. exact Hnone.
    + lia.
    + exists h'. split; [|split; [|split]].
      * erewrite bind_done; [|reflexivity]. cbv beta. rewrite Hloop.
        cbn [fst snd app seq map]. rewrite <- seq_shift, map_map.
        f_equal. f_equal.
        -- unfold tuple_at. rewrite map_map. reflexivity.
        -- apply map_ext. intros j. rewrite Hmap. apply tuple_at_next.
      * rewrite Hlen'. exact Hlen.
      * intros p j Hp. rewrite (Hin' p j Hp), (Hin p Hp), next_snd_nth.
        reflexivity.
      * intros q Hq. rewrite (Hout' q Hq). apply Hout, Hq.
Qed.

End SharedZipGeneral.

(** X11: [zip] advances its iterators once more than it yields tuples:
    given arrays and iterator objects, no object twice, of which every one
    has [m] values and one has no more, it yields the [m] tuples of their
    [j]-th values and returns, and every iterator object is left advanced
    by [m + 1] values, so that a longer one has lost one value that was
    never yielded. *)
Theorem zip_advances_objects {V : Type} (args : list (Shared.argument V))
  (h : Shared.store V) (m fuel : nat) :
  NoDup (objects args) ->
  (forall place, In place (objects args) -> place < length h) ->
  (forall j a, j < m -> In a args -> cursor_nth (cursor_in h a) j <> None) ->
  (exists a, In a args /\ cursor_nth (cursor_in h a) m = None) ->
  m < fuel ->
  exists h',
    Shared.zip fuel args h
    = (map (tuple_at (map (cursor_in h) args)) (seq 0 m), Done (tt, h'))
    /\ (forall place j,
          In place (objects args) ->
          cursor_nth (object_at h' place) j
          = cursor_nth (object_at h place) (S m + j)).
Proof.
  intros Hnd Hvalid Hall (a0 & Ha0 & Hnone) Hfuel.
  destruct (@iterators_run V args h Hnd Hvalid) as
    (refs & news & Hrun & Hnd' & Hlt & Hmap & Hold & Hobj).
  assert (Hcur : forall p, In p refs ->
            In (object_at (h ++ news) p) (map (cursor_in h) args)).
  { intros p Hp. rewrite <- Hmap. apply in_map, Hp. }
  destruct (@shared_zip_loop V refs m (h ++ news) fuel Hnd' Hlt)
    as (h' & Hloop & _ & Hadv & _).
  - intros j p Hj Hp. specialize (Hcur p Hp).
    apply in_map_iff in Hcur as (a & <- & Ha). apply Hall; assumption.
  - assert (Hin : In (cursor_in h a0) (map (object_at (h ++ news)) refs))
      by (rewrite Hmap; apply in_map, Ha0).
    apply in_map_iff in Hin as (p & Hp & Hpin).
    exists p. split; [exact Hpin|]. rewrite Hp. exact Hnone.
  - exact Hfuel.
  - exists h'. split.
    + unfold Shared.zip. erewrite bind_done; [|exact Hrun]. cbv beta.
      rewrite Hloop, Hmap. reflexivity.
    + intros place j Hplace.
      rewrite (Hadv place j (Hobj place Hplace)).
      rewrite object_at_app by (apply Hvalid, Hplace). reflexivity.
Qed.

Lemma zip_advances_objects_witness :
  NoDup (objects [Shared.Object 0; Shared.Array [7; 8]%Z])
  /\ (forall place,
        In place (objects [Shared.Object 0; Shared.Array [7; 8]%Z]) ->
        place < length [Finite [0; 1; 2; 3]%Z])
  /\ (forall j a, j < 2 ->
        In a [Shared.Object 0; Shared.Array [7; 8]%Z] ->
        cursor_nth (cursor_in [Finite [0; 1; 2; 3]%Z] a) j <> None)
  /\ (exists a, In a [Shared.Object 0; Shared.Array [7; 8]%Z]
                /\ cursor_nth (cursor_in [Finite [0; 1; 2; 3]%Z] a) 2 = None)
  /\ 2 < 3
  /\ exists h',
       Shared.zip 3 [Shared.Object 0; Shared.Array [7; 8]%Z]
         [Finite [0; 1; 2; 3]%Z]
       = ([[0; 7]; [1; 8]]%Z, Done (tt, h'))
       /\ object_at h' 0 = Finite [3%Z].
Proof.
  assert (H1 : NoDup (objects [Shared.Object 0; Shared.Array [7; 8]%Z])).
  { cbn. constructor; [intros []|constructor]. }
  assert (H2 : forall place,
             In place (objects [Shared.Object 0; Shared.Array [7; 8]%Z]) ->
             place < length [Finite [0; 1; 2; 3]%Z]).
  { cbn. intros place [<-|[]]. lia. }
  assert (H3 : forall j a, j < 2 ->
             In a [Shared.Object 0; Shared.Array [7; 8]%Z] ->
             cursor_nth (cursor_in [Finite [0; 1; 2; 3]%Z] a) j <> None).
  { intros j a Hj [<-|[<-|[]]]; destruct j as [|[|j]];
      simpl; try discriminate; lia. }
  assert (H4 : exists a, In a [Shared.Object 0; Shared.Array [7; 8]%Z]
                 /\ cursor_nth (cursor_in [Finite [0; 1; 2; 3]%Z] a) 2
                    = None).
  { exists (Shared.Array [7; 8]%Z).
    split; [right; left; reflexivity|reflexivity]. }
  assert (H5 : 2 < 3) by lia.
  refine (conj H1 (conj H2 (conj H3 (conj H4 (conj H5 _))))).
  destruct (zip_advances_objects _ _ H1 H2 H3 H4 H5) as (h' & Hrun & _).
  exists h'. split; [exact Hrun|].
  vm_compute in Hrun. injection Hrun as <-. reflexivity.
Defined.

(** ** More on [permutations]: completeness, order, the array in place *)

Lemma toSpliced_cons_succ {A : Type} (x : A) (l : list A) (i : nat) :
  toSpliced (S i) (x :: l) = x :: toSpliced i l.
Proof. reflexivity. Qed.

Lemma toSpliced_incl {A : Type} (l : list A) :
  forall i, incl (toSpliced i l) l.
Proof.
  induction l as [|x l IH]; intros i y Hy.
  - unfold toSpliced in Hy. rewrite firstn_nil, skipn_nil in Hy. exact Hy.
  - destruct i as [|i].
    + right. exact Hy.
    + rewrite toSpliced_cons_succ in Hy. destruct Hy as [<-|Hy].
      * left; reflexivity.
      * right. exact (IH i y Hy).
Qed.

Lemma toSpliced_sorted {T : Type} (R : T -> T -> Prop) (l : list T) :
  StronglySorted R l -> forall i, StronglySorted R (toSpliced i l).
Proof.
  induction 1 as [|x l Hs IH Hall]; intros i.
  - unfold toSpliced. rewrite firstn_nil, skipn_nil. constructor.
  - destruct i as [|i]; [exact Hs|].
    rewrite toSpliced_cons_succ. constructor; [apply IH|].
    apply Forall_forall. intros y Hy. rewrite Forall_forall in Hall.
    apply Hall. exact (@toSpliced_incl _ l i y Hy).
Qed.

Lemma sorted_nth_lt (l : list nat) :
  StronglySorted lt l ->
  forall i j d, i < j -> j < length l -> nth i l d < nth j l d.
Proof.
  induction 1 as [|x l Hs IH Hall]; intros i j d Hij Hj; [cbn in Hj; lia|].
  destruct j as [|j]; [lia|]. cbn [length] in Hj.
  destruct i as [|i]; cbn [nth].
  - rewrite Forall_forall in Hall. apply Hall, nth_In. lia.
  - apply IH; lia.
Qed.

Lemma lex_sorted_blocks (f : nat -> list (list nat)) (len : nat) :
  forall start,
    (forall i, start <= i < start + len -> StronglySorted lex_lt (f i)) ->
    (forall i j a b,
       start <= i -> i < j -> j < start + len ->
       In a (f i) -> In b (f j) -> lex_lt a b) ->
    StronglySorted lex_lt (flat_map f (seq start len)).
Proof.
  induction len as [|len IH]; intros start Hin Hcross; [constructor|].
  cbn [seq flat_map]. apply StronglySorted_app_between.
  - apply Hin. lia.
  - apply IH.
    + intros i Hi. apply Hin. lia.
    + intros i j a b Hi Hij Hj. apply Hcross; lia.
  - intros a b Ha Hb. apply in_flat_map in Hb as (j & Hj & Hb).
    apply in_seq in Hj. apply (Hcross start j); auto; lia.
Qed.

Section PermutationsMore.
Context {A : Type}.
Variable undefined : A.

Lemma short_Permutation (l p : list A) :
  length l <= 1 -> Permutation p l -> p = l.
Proof.
  intros Hl Hp. destruct l as [|x [|y l]]; cbn in Hl; [| |lia].
  - apply Permutation_sym, Permutation_nil in Hp. exact Hp.
  - apply Permutation_sym, Permutation_length_1_inv in Hp. exact Hp.
Qed.

(** Every arrangement of the array is among those yielded. *)
Lemma arrangements_complete (d : nat) :
  forall l p,
    length l <= S d -> Permutation p l ->
    In p (arrangements undefined d l).
Proof.
  induction d as [|d IH]; intros l p Hl Hp.
  - left. symmetry. apply short_Permutation; assumption.
  - cbn [arrangements]. destruct (length l <=? 1) eqn:Hlen.
    + apply Nat.leb_le in Hlen.
      left. symmetry. apply short_Permutation; assumption.
    + apply Nat.leb_gt in Hlen.
      pose proof (Permutation_length Hp) as Hplen.
      destruct p as [|x p]; [cbn in Hplen; lia|].
      assert (Hx : In x l)
        by (apply (Permutation_in _ Hp); left; reflexivity).
      destruct (In_nth l x undefined Hx) as (i & Hi & Hnth).
      apply in_flat_map. exists i. split; [apply in_seq; lia|].
      rewrite Hnth. apply in_map. apply IH.
      * rewrite toSpliced_length by exact Hi. lia.
      * apply Permutation_cons_inv with (a := x).
        rewrite Hp. symmetry. rewrite <- Hnth at 1.
        apply toSpliced_Permutation, Hi.
Qed.

End PermutationsMore.

(** The arrangements of a strictly increasing array come in strictly
    increasing lexicographic order. *)
Lemma arrangements_lex_sorted (d : nat) :
  forall l : list nat,
    StronglySorted lt l -> StronglySorted lex_lt (arrangements 0 d l).
Proof.
  induction d as [|d IH]; intros l Hl.
  - repeat constructor.
  - cbn [arrangements]. destruct (length l <=? 1); [repeat constructor|].
    apply lex_sorted_blocks.
    + intros i _. apply lex_sorted_cons, IH, toSpliced_sorted, Hl.
    + intros i j a b _ Hij Hj Ha Hb.
      apply in_map_iff in Ha as (a' & <- & _).
      apply in_map_iff in Hb as (b' & <- & _).
      apply lex_lt_head. apply sorted_nth_lt; [exact Hl|exact Hij|].
      cbn in Hj. exact Hj.
Qed.

(** X12: [permutations] yields exactly the arrangements of its pool: every
    value yielded is a rearrangement of all the items, and every
    rearrangement of the items is yielded. *)
Theorem permutations_complete {A : Type} (undefined : A)
  (i : iterable A) (pool p : list A) (fuel : nat) :
  holds i pool ->
  length pool < fuel ->
  In p (yielded (permutations undefined fuel i)) <-> Permutation p pool.
Proof.
  intros Hi Hfuel. unfold permutations.
  rewrite (with_array_holds _ Hi). unfold G.run.
  rewrite array_permutations_run by exact Hfuel.
  unfold yielded. cbn [fst]. split.
  - apply arrangements_Permutation.
  - apply arrangements_complete. lia.
Qed.

Lemma permutations_complete_witness :
  holds (Iter (Finite [1; 2; 3]%Z)) [1; 2; 3]%Z
  /\ length [1; 2; 3]%Z < 4
  /\ In [3; 1; 2]%Z
       (yielded (permutations 0%Z 4 (Iter (Finite [1; 2; 3]%Z)))).
Proof.
  assert (H1 : holds (Iter (Finite [1; 2; 3]%Z)) [1; 2; 3]%Z)
    by (right; reflexivity).
  assert (H2 : length [1; 2; 3]%Z < 4) by (simpl; lia).
  refine (conj H1 (conj H2 _)).
  apply (proj2 (permutations_complete 0%Z [3; 1; 2]%Z H1 H2)).
  apply Permutation_cons_app with (l1 := [1; 2]%Z) (l2 := []).
  reflexivity.
Defined.

(** X13: on a pool of strictly increasing numbers, as the positions
    [0 .. n-1] are, [permutations] yields its values in strictly
    increasing lexicographic order. *)
Theorem permutations_lexicographic (i : iterable nat) (pool : list nat)
  (fuel : nat) :
  holds i pool ->
  StronglySorted lt pool ->
  length pool < fuel ->
  StronglySorted lex_lt (yielded (permutations 0 fuel i))
  /\ hd_error (yielded (permutations 0 fuel i)) = Some pool.
Proof.
  intros Hi Hpool Hfuel. unfold permutations.
  rewrite (with_array_holds _ Hi). unfold G.run.
  rewrite array_permutations_run by exact Hfuel.
  unfold yielded. cbn [fst]. split.
  - apply arrangements_lex_sorted, Hpool.
  - clear Hi Hpool. revert pool Hfuel.
    induction fuel as [|fuel IH]; intros pool Hfuel; [lia|].
    cbn [arrangements]. destruct (length pool <=? 1) eqn:Hlen; [reflexivity|].
    apply Nat.leb_gt in Hlen.
    destruct pool as [|x pool]; [cbn in Hlen; lia|].
    cbn [length seq flat_map nth].
    change (toSpliced 0 (x :: pool)) with pool.
    cbn [length] in Hfuel. specialize (IH pool ltac:(lia)).
    destruct (arrangements 0 fuel pool) as [|q qs]; [discriminate|].
    injection IH as ->. reflexivity.
Qed.

Lemma permutations_lexicographic_witness :
  holds (Arr (seq 0 3)) (seq 0 3)
  /\ StronglySorted lt (seq 0 3)
  /\ length (seq 0 3) < 4
  /\ StronglySorted lex_lt (yielded (permutations 0 4 (Arr (seq 0 3)))).
Proof.
  assert (H1 : holds (Arr (seq 0 3)) (seq 0 3)) by (left; reflexivity).
  assert (H2 : StronglySorted lt (seq 0 3)) by apply seq_increasing.
  assert (H3 : length (seq 0 3) < 4) by (simpl; lia).
  refine (conj H1 (conj H2 (conj H3 _))).
  exact (proj1 (permutations_lexicographic H1 H2 H3)).
Defined.

(** X14: [array_permutations] takes items out of the array it is given and
    puts them back: when it returns, the array holds what it held when the
    call began, in the same order. *)
Theorem permutations_restores_array {A : Type} (undefined : A)
  (array : list A) (fuel : nat) :
  length array < fuel ->
  ending (array_permutations undefined fuel array) = Done (tt, array)
  /\ length (yielded (array_permutations undefined fuel array))
     = fact (length array).
Proof.
  intros Hfuel. rewrite array_permutations_run by exact Hfuel.
  split; [reflexivity|].
  unfold yielded. cbn [fst]. apply arrangements_count. lia.
Qed.

Lemma permutations_restores_array_witness :
  length [3; 1; 2]%Z < 4
  /\ ending (array_permutations 0%Z 4 [3; 1; 2]%Z) = Done (tt, [3; 1; 2]%Z).
Proof.
  assert (H1 : length [3; 1; 2]%Z < 4) by (simpl; lia).
  refine (conj H1 _).
  exact (proj1 (permutations_restores_array 0%Z [3; 1; 2]%Z H1)).
Defined.

(** ** More on [combinations]: completeness and the unused items *)

(** Every strictly increasing vector of [k] positions of [seq start len]
    is among the sublists chosen. *)
Lemma choose_seq_complete (len : nat) :
  forall (start k : nat) (iv : list nat),
    StronglySorted lt iv ->
    Forall (fun i => start <= i < start + len) iv ->
    length iv = k ->
    In iv (map fst (choose k (seq start len))).
Proof.
  induction len as [|len IH]; intros start k iv Hs Hall Hk.
  - destruct iv as [|i iv].
    + subst k. left; reflexivity.
    + inversion Hall; subst. lia.
  - destruct iv as [|i iv].
    + subst k. left; reflexivity.
    + destruct k as [|k]; [discriminate|]. injection Hk as Hk.
      apply StronglySorted_inv in Hs as (Hs & Hlt).
      inversion Hall as [|? ? Hi Hall']; subst.
      cbn [seq choose]. rewrite map_app, !map_map. cbn [fst].
      apply in_or_app.
      assert (Htail : Forall (fun j => S start <= j < S start + len) iv).
      { rewrite Forall_forall in *. intros j Hj.
        specialize (Hlt j Hj). specialize (Hall' j Hj). lia. }
      destruct (Nat.eq_dec i start) as [->|Hne].
      * left. rewrite <- (map_map fst (cons start)). apply in_map.
        apply IH; [exact Hs|exact Htail|reflexivity].
      * right. apply IH; [constructor; assumption| |reflexivity].
        constructor; [lia|].
        rewrite Forall_forall in *. intros j Hj.
        specialize (Hlt j Hj). specialize (Hall' j Hj). lia.
Qed.

(** Both parts of a choice keep the order of the list. *)
Lemma choose_sorted {T : Type} (R : T -> T -> Prop) (l : list T) :
  StronglySorted R l ->
  forall k c r,
    In (c, r) (choose k l) -> StronglySorted R c /\ StronglySorted R r.
Proof.
  induction 1 as [|x l Hs IH Hall]; intros [|k] c r Hin.
  - destruct Hin as [[= <- <-]|[]]. split; constructor.
  - destruct Hin.
  - destruct Hin as [[= <- <-]|[]].
    split; constructor; assumption.
  - cbn [choose] in Hin. apply in_app_or in Hin as [Hin|Hin];
      apply in_map_iff in Hin as ([c' r'] & [= <- <-] & Hin); cbn [fst snd];
      destruct (IH _ _ _ Hin) as (Hc & Hr);
      apply choose_In in Hin as (_ & Hperm & Hincl);
      rewrite Forall_forall in Hall.
    + split; [|exact Hr]. constructor; [exact Hc|].
      apply Forall_forall. auto.
    + split; [exact Hc|]. constructor; [exact Hr|].
      apply Forall_forall. intros y Hy. apply Hall.
      apply (Permutation_in _ Hperm). apply in_or_app. right; exact Hy.
Qed.

(** The last choice takes the last [k] items. *)
Lemma choose_last {T : Type} (l : list T) :
  forall k, k <= length l ->
    exists front,
      choose k l
      = front ++ [(skipn (length l - k) l, firstn (length l - k) l)].
Proof.
  induction l as [|x l IH]; intros k Hk.
  - cbn in Hk. assert (k = 0) as -> by lia. exists []. reflexivity.
  - destruct k as [|k].
    + exists []. cbn [choose app].
      rewrite Nat.sub_0_r, skipn_all, firstn_all. reflexivity.
    + cbn [length] in Hk. cbn [choose length Nat.sub].
      destruct (Nat.eq_dec k (length l)) as [->|Hne].
      * rewrite choose_all, choose_too_many by lia.
        rewrite Nat.sub_diag. exists []. reflexivity.
      * destruct (IH (S k) ltac:(lia)) as [front Hfront].
        rewrite Hfront, map_app. cbn [map fst snd].
        exists (map (fun cr => (x :: fst cr, snd cr)) (choose k l)
                ++ map (fun cr => (fst cr, x :: snd cr)) front).
        rewrite <- app_assoc. do 3 f_equal.
        replace (length l - k) with (S (length l - S k)) by lia.
        reflexivity.
Qed.

(** X15: on the pool of the positions [0 .. n-1], [combinations] with
    [1 <= r <= n] yields exactly the strictly increasing vectors of [r]
    positions: each of them is yielded, and nothing else is. *)
Theorem combinations_complete (n : nat) (r : Z) (fuel : nat)
  (iv : list nat) :
  (1 <= r <= Z.of_nat n)%Z ->
  n < fuel ->
  In iv (map picked
           (yielded (combinations 0 fuel (Arr (seq 0 n)) (Int r) false)))
  <-> length iv = Z.to_nat r /\ increasing_below n iv.
Proof.
  intros Hr Hfuel.
  rewrite (combinations_run 0 false (pool := seq 0 n));
    [ | left; reflexivity | rewrite length_seq; exact Hr
      | rewrite length_seq; exact Hfuel ].
  unfold yielded. cbn [fst]. rewrite map_map. cbn [as_combo picked].
  split.
  - intros Hin. apply in_map_iff in Hin as ([c rest] & <- & Hin). cbn [fst].
    pose proof (choose_increasing _ _ _ (seq_increasing n 0) Hin) as Hinc.
    apply choose_In in Hin as (Hlen & _ & Hincl).
    split; [exact Hlen|]. split; [exact Hinc|].
    apply Forall_forall. intros j Hj. apply Hincl, in_seq in Hj. lia.
  - intros (Hlen & Hs & Hall).
    apply choose_seq_complete; [exact Hs| |exact Hlen].
    revert Hall. apply Forall_impl. intros j Hj. lia.
Qed.

Lemma combinations_complete_witness :
  (1 <= 2 <= Z.of_nat 4)%Z
  /\ 4 < 5
  /\ In [1; 3]
       (map picked
          (yielded (combinations 0 5 (Arr (seq 0 4)) (Int 2) false))).
Proof.
  assert (H1 : (1 <= 2 <= Z.of_nat 4)%Z) by (simpl; lia).
  assert (H2 : 4 < 5) by lia.
  refine (conj H1 (conj H2 _)).
  apply (proj2 (combinations_complete [1; 3] H1 H2)).
  split; [reflexivity|]. split.
  - repeat constructor.
  - repeat constructor.
Defined.

(** X16: with [return_unused] set, [combinations] yields the same
    selections as without it, each followed by the array of the items it
    leaves out, as that array is when the value is yielded: the [n - r]
    other items of the pool, and, like the selection, in the order of the
    pool (in every order in which the pool is sorted). *)
Theorem combinations_unused_complement {A : Type} (undefined : A)
  (i : iterable A) (pool : list A) (r : Z) (fuel : nat) :
  holds i pool ->
  (1 <= r <= Z.of_nat (length pool))%Z ->
  length pool < fuel ->
  let outs := yielded (combinations undefined fuel i (Int r) true) in
  ending (combinations undefined fuel i (Int r) true) = Done tt
  /\ map picked outs
     = map picked (yielded (combinations undefined fuel i (Int r) false))
  /\ Forall (fun c =>
       exists unused,
         last_unused c = Some unused
         /\ length unused = length pool - Z.to_nat r
         /\ Permutation (picked c ++ unused) pool
         /\ (forall R : A -> A -> Prop,
               StronglySorted R pool ->
               StronglySorted R (picked c) /\ StronglySorted R unused))
     outs.
Proof.
  intros Hi Hr Hfuel outs. subst outs.
  rewrite (combinations_run undefined true Hi Hr Hfuel).
  rewrite (combinations_run undefined false Hi Hr Hfuel).
  unfold yielded, ending. cbn [fst snd].
  split; [reflexivity|]. split.
  - rewrite !map_map. reflexivity.
  - apply Forall_forall. intros c Hc.
    apply in_map_iff in Hc as ([p u] & <- & Hin).
    exists u. cbn [as_combo picked last_unused fst snd option_map app].
    split; [reflexivity|].
    pose proof (choose_In _ _ _ _ Hin) as (Hlen & Hperm & _).
    split; [|split; [exact Hperm|]].
    + apply Permutation_length in Hperm. rewrite length_app in Hperm. lia.
    + intros R HR. exact (choose_sorted HR _ _ _ Hin).
Qed.

Lemma combinations_unused_complement_witness :
  holds (Arr [1; 2; 3; 4]%Z) [1; 2; 3; 4]%Z
  /\ (1 <= 2 <= Z.of_nat (length [1; 2; 3; 4]%Z))%Z
  /\ length [1; 2; 3; 4]%Z < 5
  /\ map picked
       (yielded (combinations 0%Z 5 (Arr [1; 2; 3; 4]%Z) (Int 2) true))
     = map picked
         (yielded (combinations 0%Z 5 (Arr [1; 2; 3; 4]%Z) (Int 2) false)).
Proof.
  assert (H1 : holds (Arr [1; 2; 3; 4]%Z) [1; 2; 3; 4]%Z)
    by (left; reflexivity).
  assert (H2 : (1 <= 2 <= Z.of_nat (length [1; 2; 3; 4]%Z))%Z)
    by (simpl; lia).
  assert (H3 : length [1; 2; 3; 4]%Z < 5) by (simpl; lia).
  refine (conj H1 (conj H2 (conj H3 _))).
  exact (proj1 (proj2 (combinations_unused_complement 0%Z H1 H2 H3))).
Defined.

(** ** [combinations]: the array [unused] inside the values yielded *)

Lemma Forall2_map_both {T U T' U' : Type} (P : T -> U -> Prop)
  (Q : T' -> U' -> Prop) (f : T -> T') (g : U -> U') (l1 : list T)
  (l2 : list U) :
  (forall a b, P a b -> Q (f a) (g b)) ->
  Forall2 P l1 l2 -> Forall2 Q (map f l1) (map g l2).
Proof.
  intros HPQ. induction 1; cbn; constructor; auto.
Qed.

Lemma Forall2_map_left {T U : Type} (P : T -> U -> Prop) (f : U -> T)
  (l : list U) :
  (forall x, P (f x) x) -> Forall2 P (map f l) l.
Proof.
  intros HP. induction l; cbn; constructor; auto.
Qed.

Lemma mapi_from_map {T U W : Type} (f : T -> nat -> U) (g : U -> W)
  (l : list T) :
  forall i,
    mapi_from i (fun item j => g (f item j)) l = map g (mapi_from i f l).
Proof.
  induction l as [|x l IH]; intros i; [reflexivity|].
  cbn [mapi_from map]. rewrite IH. reflexivity.
Qed.

Section AliasedRun.
Context {A : Type}.
Variable undefined : A.

Lemma aliased_run (array : list A) :
  forall (fuel : nat) (n : Z) (u : list A),
    (1 <= n <= Z.of_nat (length array))%Z ->
    length array < fuel ->
    exists outs,
      Aliased.array_combinations undefined fuel array (Int n) (Some u)
      = (outs, Done (tt, Some u))
      /\ Forall2 (carries u) outs (choose (Z.to_nat n) array)
      /\ ((2 <= n)%Z ->
          exists front,
            outs = front
                   ++ [Aliased.Value
                         (skipn (length array - Z.to_nat n) array)
                         (Some Aliased.TheUnused)]).
Proof.
  induction array as [|x rest IH]; intros fuel n u Hn Hfuel.
  - simpl in Hn. lia.
  - destruct fuel as [|fuel']; [lia|].
    cbn [Aliased.array_combinations].
    assert (Hguard : Num.le (Int n) (Int 0)
                     || Num.gt (Int n) (Num.length (x :: rest)) = false).
    { unfold Num.gt, Num.lt, Num.le, Num.length.
      apply orb_false_iff; split; lia. }
    rewrite Hguard, bind_get.
    cbn [length] in Hn, Hfuel.
    destruct (Z.eq_dec n 1) as [->|Hn1].
    + cbn [Num.eq]. rewrite Z.eqb_refl.
      change (Z.to_nat 1) with 1.
      eexists. split; [reflexivity|]. split; [|lia].
      set (mark := fun s : combo A =>
             Aliased.Value (picked s)
               (option_map Aliased.Copied (last_unused s))).
      assert (Hmark :
        mapi (fun item i =>
                Aliased.Value [item]
                  (Some (Aliased.Copied (u ++ toSpliced i (x :: rest)))))
             (x :: rest)
        = map mark (map (as_combo (Some u)) (choose 1 (x :: rest)))).
      { pose proof (choose_one_unused u (x :: rest) []) as H.
        cbn [length app] in H. rewrite app_nil_r in H. rewrite <- H.
        unfold mapi. rewrite <- mapi_from_map. reflexivity. }
      rewrite Hmark, map_map. apply Forall2_map_left.
      intros cr. split; [reflexivity|right; reflexivity].
    + assert (Hne : Num.eq (Int n) (Int 1) = false).
      { cbn [Num.eq]. lia. }
      rewrite Hne.
      destruct (Z.eq_dec n (Z.of_nat (length (x :: rest)))) as [->|Hlen].
      * unfold Num.length. cbn [Num.eq]. rewrite Z.eqb_refl.
        rewrite Nat2Z.id, choose_all, Nat.sub_diag.
        eexists. split; [reflexivity|]. split.
        -- constructor; [|constructor].
           split; [reflexivity|left; reflexivity].
        -- intros _. exists []. reflexivity.
      * assert (Hne' : Num.eq (Int n) (Num.length (x :: rest)) = false).
        { unfold Num.length. cbn [Num.eq]. lia. }
        rewrite Hne'. cbn [hd tl Num.pred]. cbn [length] in Hlen.
        assert (Hk : Z.to_nat n = S (Z.to_nat (n - 1))) by lia.
        assert (Hn' : (1 <= n - 1 <= Z.of_nat (length rest))%Z) by lia.
        assert (Hn'' : (1 <= n <= Z.of_nat (length rest))%Z) by lia.
        assert (Hfuel' : length rest < fuel') by lia.
        destruct (IH fuel' (n - 1)%Z u Hn' Hfuel')
          as (outs1 & Hrun1 & Hall1 & _).
        destruct (IH fuel' n (u ++ [x]) Hn'' Hfuel')
          as (outs2 & Hrun2 & Hall2 & Hlast2).
        exists (map (spread_cons x) outs1 ++ outs2).
        split; [|split].
        -- erewrite bind_done; [|apply prefix_done; exact Hrun1].
           cbv beta. rewrite bind_modify. cbn [option_map].
           erewrite bind_done; [|exact Hrun2].
           unfold G.modify. cbn [fst snd option_map].
           rewrite removelast_last, app_nil_r. reflexivity.
        -- rewrite Hk. cbn [choose]. rewrite <- Hk.
           apply Forall2_app.
           ++ revert Hall1. apply Forall2_map_both.
              intros c cr (Hitems & Hunused). split.
              ** cbn. rewrite Hitems. reflexivity.
              ** exact Hunused.
           ++ rewrite <- (map_id outs2). revert Hall2.
              apply Forall2_map_both.
              intros c cr (Hitems & Hunused). split; [exact Hitems|].
              cbn [snd]. rewrite <- app_assoc in Hunused. exact Hunused.
        -- intros Hn2. destruct (Hlast2 Hn2) as [front ->].
           exists (map (spread_cons x) outs1 ++ front).
           rewrite <- app_assoc. do 3 f_equal.
           replace (length (x :: rest) - Z.to_nat n)
             with (S (length rest - Z.to_nat n)) by (cbn [length]; lia).
           reflexivity.
Qed.

End AliasedRun.

(** X17: with [return_unused] set and [r >= 2], the values that
    [combinations] yields do not all keep what they showed when they were
    yielded: the last element of a value is a new array or the array
    [unused] that the calls share, and that array is empty again when the
    generator returns. Read after the run, every value has the selection
    it was yielded with and either the unused items it was yielded with or
    none at all; the last value always has none, although it was yielded
    with the first [n - r] items of the pool as its unused items. *)
Theorem combinations_unused_shared {A : Type} (undefined : A)
  (i : iterable A) (pool : list A) (r : Z) (fuel : nat) :
  holds i pool ->
  (2 <= r <= Z.of_nat (length pool))%Z ->
  length pool < fuel ->
  let n := length pool in
  let k := Z.to_nat r in
  let seen := yielded (combinations undefined fuel i (Int r) true) in
  exists kept,
    Aliased.spread_combinations undefined fuel i (Int r) true = Done kept
    /\ Forall2 (fun c s =>
         picked c = picked s
         /\ (last_unused c = last_unused s \/ last_unused c = Some []))
       kept seen
    /\ (exists front,
          seen = front ++ [Combo (skipn (n - k) pool)
                             (Some (firstn (n - k) pool))])
    /\ (exists front,
          kept = front ++ [Combo (skipn (n - k) pool) (Some [])]).
Proof.
  intros Hi Hr Hfuel n k seen. subst seen n k.
  assert (Hr1 : (1 <= r <= Z.of_nat (length pool))%Z) by lia.
  assert (Hk : Z.to_nat r <= length pool) by lia.
  rewrite (combinations_run undefined true Hi Hr1 Hfuel).
  unfold yielded. cbn [fst].
  destruct (@aliased_run A undefined pool fuel r [] Hr1 Hfuel)
    as (outs & Hrun & Hall & Hlast).
  exists (map (Aliased.read (Some [])) outs).
  split; [|split; [|split]].
  - unfold Aliased.spread_combinations.
    rewrite (spread_holds Hi), Hrun. reflexivity.
  - revert Hall. apply Forall2_map_both.
    intros c cr (Hitems & [Hunused|Hunused]);
      unfold Aliased.read, as_combo; rewrite Hunused;
      cbn [picked last_unused option_map app].
    + split; [exact Hitems|right; reflexivity].
    + split; [exact Hitems|left; reflexivity].
  - destruct (@choose_last A pool (Z.to_nat r) Hk) as [front ->].
    exists (map (as_combo (Some [])) front).
    rewrite map_app. reflexivity.
  - destruct (Hlast (proj1 Hr)) as [front ->].
    exists (map (Aliased.read (Some [])) front).
    rewrite map_app. reflexivity.
Qed.

Lemma combinations_unused_shared_witness :
  holds (Arr [1; 2; 3; 4]%Z) [1; 2; 3; 4]%Z
  /\ (2 <= 2 <= Z.of_nat (length [1; 2; 3; 4]%Z))%Z
  /\ length [1; 2; 3; 4]%Z < 5
  /\ exists kept,
       Aliased.spread_combinations 0%Z 5 (Arr [1; 2; 3; 4]%Z) (Int 2) true
       = Done kept
       /\ exists front, kept = front ++ [Combo [3; 4]%Z (Some [])].
Proof.
  assert (H1 : holds (Arr [1; 2; 3; 4]%Z) [1; 2; 3; 4]%Z)
    by (left; reflexivity).
  assert (H2 : (2 <= 2 <= Z.of_nat (length [1; 2; 3; 4]%Z))%Z)
    by (simpl; lia).
  assert (H3 : length [1; 2; 3; 4]%Z < 5) by (simpl; lia).
  refine (conj H1 (conj H2 (conj H3 _))).
  destruct (combinations_unused_shared 0%Z H1 H2 H3)
    as (kept & Hrun & _ & _ & Hlast).
  exists kept. split; [exact Hrun|exact Hlast].
Defined.

(** ** More on [partitions]: the size check, distinct outputs *)

Section PartitionsMore.
Context {A : Type}.
Variable undefined : A.

(** When every size but the last is at least 1 and those sizes fit into
    the array, a sum that is not the length of the array is found by the
    check of [array_partitions] itself, at the last size. *)
Lemma array_partitions_sum_message (sizes : list Z) :
  forall (array : list A) (fuel : nat),
    sizes <> [] ->
    Forall (fun s => (1 <= s)%Z) (removelast sizes) ->
    (total (removelast sizes) <= Z.of_nat (length array))%Z ->
    total sizes <> Z.of_nat (length array) ->
    length array + length sizes < fuel ->
    array_partitions undefined fuel array sizes tt
    = ([], Threw (RangeError sum_message)).
Proof.
  induction sizes as [|s sizes IH];
    intros array fuel Hne Hpos Hfit Hsum Hfuel; [contradiction|].
  destruct fuel as [|fuel]; [lia|].
  destruct sizes as [|s2 rest].
  - cbn in Hsum. cbn [array_partitions length Nat.eqb first_size].
    unfold Num.length. cbn [Num.eq].
    replace (s =? Z.of_nat (length array))%Z with false
      by (symmetry; apply Z.eqb_neq; lia).
    reflexivity.
  - change (removelast (s :: s2 :: rest))
      with (s :: removelast (s2 :: rest)) in Hpos, Hfit.
    change (total (s :: removelast (s2 :: rest)))
      with (s + total (removelast (s2 :: rest)))%Z in Hfit.
    change (total (s :: s2 :: rest)) with (s + total (s2 :: rest))%Z in Hsum.
    inversion Hpos as [|? ? Hs Hpos']; subst.
    assert (Hnonneg : (0 <= total (removelast (s2 :: rest)))%Z).
    { apply total_nonneg_all. revert Hpos'. apply Forall_impl.
      intros z Hz. lia. }
    cbn [length] in Hfuel.
    cbn [array_partitions length Nat.eqb first_size tl].
    rewrite (combinations_run undefined true (pool := array));
      [|left; reflexivity|lia|lia].
    destruct (choose (Z.to_nat s) array) as [|[c r] crs] eqn:Hchoose.
    { exfalso. revert Hchoose. apply choose_nonempty. lia. }
    assert (Hin : In (c, r) (choose (Z.to_nat s) array))
      by (rewrite Hchoose; left; reflexivity).
    apply choose_rest_length in Hin as (Hk & Hr).
    unfold for_of, yielded. cbn [fst map].
    apply bind_threw, for_each_threw.
    cbn [as_combo last_unused picked fst snd option_map app].
    unfold prefix.
    rewrite (IH r fuel);
      [reflexivity|discriminate|exact Hpos'|lia|lia|cbn [length]; lia].
Qed.

Lemma NoDup_map_injective {T U : Type} (f : T -> U) (l : list T) :
  NoDup (map f l) ->
  forall x y, In x l -> In y l -> f x = f y -> x = y.
Proof.
  induction l as [|a l IH]; intros Hnd x y Hx Hy Hf; [destruct Hx|].
  cbn [map] in Hnd. apply NoDup_cons_iff in Hnd as (Hnotin & Hnd).
  destruct Hx as [<-|Hx], Hy as [<-|Hy].
  - reflexivity.
  - exfalso. apply Hnotin. rewrite Hf. apply in_map, Hy.
  - exfalso. apply Hnotin. rewrite <- Hf. apply in_map, Hx.
  - apply IH; assumption.
Qed.

(** The groups of a split keep the order of the list. *)
Lemma splits_sorted (R : A -> A -> Prop) (sizes : list nat) :
  forall (l : list A) (p : list (list A)),
    StronglySorted R l ->
    In p (splits sizes l) -> Forall (StronglySorted R) p.
Proof.
  induction sizes as [|s [|s2 rest] IH]; intros l p Hl Hp.
  - destruct Hp.
  - destruct Hp as [<-|[]]. constructor; [exact Hl|constructor].
  - change (In p (flat_map (fun cr => map (cons (fst cr))
                                        (splits (s2 :: rest) (snd cr)))
                     (choose s l))) in Hp.
    apply in_flat_map in Hp as ([c r] & Hin & Hp). cbn [fst snd] in Hp.
    apply in_map_iff in Hp as (p' & <- & Hp').
    destruct (choose_sorted Hl _ _ _ Hin) as (Hc & Hr).
    constructor; [exact Hc|]. exact (IH r p' Hr Hp').
Qed.

End PartitionsMore.

(** The splits of a strictly increasing list of numbers are pairwise
    distinct. *)
Lemma splits_NoDup (sizes : list nat) :
  forall l : list nat, StronglySorted lt l -> NoDup (splits sizes l).
Proof.
  induction sizes as [|s [|s2 rest] IH]; intros l Hl.
  - constructor.
  - repeat constructor. intros [].
  - change (NoDup (flat_map (fun cr => map (cons (fst cr))
                                         (splits (s2 :: rest) (snd cr)))
                      (choose s l))).
    assert (Hfst : NoDup (map fst (choose s l)))
      by (apply lex_sorted_NoDup, choose_lex_sorted, Hl).
    apply NoDup_flat_map.
    + intros [c r] Hin. cbn [fst snd].
      apply NoDup_map_cons, IH. exact (proj2 (choose_sorted Hl _ _ _ Hin)).
    + intros x y z Hx Hy Hzx Hzy.
      apply in_map_iff in Hzx as (px & <- & _).
      apply in_map_iff in Hzy as (py & [= Heq _] & _).
      apply (NoDup_map_injective fst _ Hfst); [exact Hx|exact Hy|].
      symmetry; exact Heq.
    + exact (NoDup_map_inv _ _ Hfst).
Qed.

(** X18: for a size vector that is not empty and does not sum to the
    length of the pool, [partitions] throws a RangeError before it yields
    anything; when every size but the last is at least 1 and those sizes
    together do not exceed the pool, it is the error of its own check,
    "sum of sizes must be equal to the iterator length". *)
Theorem partitions_size_mismatch {A : Type} (undefined : A)
  (i : iterable A) (pool : list A) (sizes : list Z) (fuel : nat) :
  holds i pool ->
  sizes <> [] ->
  total sizes <> Z.of_nat (length pool) ->
  length pool + length sizes < fuel ->
  (exists msg,
     partitions undefined fuel i sizes = ([], Threw (RangeError msg)))
  /\ (Forall (fun s => (1 <= s)%Z) (removelast sizes) ->
      (total (removelast sizes) <= Z.of_nat (length pool))%Z ->
      partitions undefined fuel i sizes
      = ([], Threw (RangeError sum_message))).
Proof.
  intros Hi Hne Hsum Hfuel.
  rewrite (partitions_unfold undefined fuel sizes Hi). unfold G.run.
  split.
  - destruct (@array_partitions_mismatch _ undefined sizes pool fuel
                Hne Hsum Hfuel) as [msg Hmsg].
    exists msg. rewrite Hmsg. reflexivity.
  - intros Hpos Hfit.
    rewrite (@array_partitions_sum_message _ undefined sizes pool fuel)
      by assumption.
    reflexivity.
Qed.

Lemma partitions_size_mismatch_witness :
  holds (Arr [1; 2; 3; 4]%Z) [1; 2; 3; 4]%Z
  /\ [2; 1]%Z <> []
  /\ total [2; 1]%Z <> Z.of_nat (length [1; 2; 3; 4]%Z)
  /\ length [1; 2; 3; 4]%Z + length [2; 1]%Z < 7
  /\ partitions 0%Z 7 (Arr [1; 2; 3; 4]%Z) [2; 1]%Z
     = ([], Threw (RangeError sum_message)).
Proof.
  assert (H1 : holds (Arr [1; 2; 3; 4]%Z) [1; 2; 3; 4]%Z)
    by (left; reflexivity).
  assert (H2 : [2; 1]%Z <> []) by discriminate.
  assert (H3 : total [2; 1]%Z <> Z.of_nat (length [1; 2; 3; 4]%Z))
    by (simpl; lia).
  assert (H4 : length [1; 2; 3; 4]%Z + length [2; 1]%Z < 7)
    by (simpl; lia).
  refine (conj H1 (conj H2 (conj H3 (conj H4 _)))).
  apply (proj2 (partitions_size_mismatch 0%Z H1 H2 H3 H4)).
  - repeat constructor. lia.
  - simpl. lia.
Defined.

(** X19: on the pool of the positions [0 .. n-1], the partitions that
    [partitions] yields for proper sizes are pairwise distinct, and every
    group of every partition lists its positions in increasing order. *)
Theorem partitions_distinct (n : nat) (sizes : list Z) (fuel : nat) :
  proper_sizes sizes ->
  total sizes = Z.of_nat n ->
  n + length sizes < fuel ->
  let ips := yielded (partitions 0 fuel (Arr (seq 0 n)) sizes) in
  NoDup ips
  /\ Forall (Forall (StronglySorted lt)) ips.
Proof.
  intros Hp Hsum Hfuel ips.
  assert (Hips : ips = splits (map Z.to_nat sizes) (seq 0 n)).
  { subst ips. rewrite (partitions_unfold 0 fuel sizes (pool := seq 0 n))
      by (left; reflexivity).
    unfold G.run. rewrite array_partitions_run;
      [reflexivity | exact Hp | | ]; rewrite length_seq; assumption. }
  rewrite Hips. split.
  - apply splits_NoDup, seq_increasing.
  - apply Forall_forall. intros ip Hip.
    exact (splits_sorted _ _ (seq_increasing n 0) Hip).
Qed.

Lemma partitions_distinct_witness :
  proper_sizes [2; 1]%Z
  /\ total [2; 1]%Z = Z.of_nat 3
  /\ 3 + length [2; 1]%Z < 6
  /\ NoDup (yielded (partitions 0 6 (Arr (seq 0 3)) [2; 1]%Z)).
Proof.
  assert (H1 : proper_sizes [2; 1]%Z).
  { split; [discriminate|]. split; [repeat constructor; lia|simpl; lia]. }
  assert (H2 : total [2; 1]%Z = Z.of_nat 3) by reflexivity.
  assert (H3 : 3 + length [2; 1]%Z < 6) by (simpl; lia).
  refine (conj H1 (conj H2 (conj H3 _))).
  exact (proj1 (@partitions_distinct 3 [2; 1]%Z 6 H1 H2 H3)).
Defined.

(** ** More on [product] *)

Section ProductMore.
Context {A : Type}.

(** The tuples of the product are those that take one element from each
    sequence, in order. *)
Lemma product_reference_In (seqs : list (list A)) :
  forall t : list A,
    seqs <> [] ->
    (In t (product_reference seqs) <-> member_wise t seqs).
Proof.
  unfold member_wise.
  induction seqs as [|s1 [|s2 rest] IH]; intros t Hne; [contradiction| |].
  - cbn [product_reference]. split.
    + intros Hin. apply in_map_iff in Hin as (a & <- & Ha).
      constructor; [exact Ha|constructor].
    + intros Hall. inversion Hall as [|x s t' ss Hx Hrest]; subst.
      inversion Hrest; subst. apply in_map_iff. exists x. auto.
  - change (product_reference (s1 :: s2 :: rest))
      with (flat_map (fun a => map (cons a) (product_reference (s2 :: rest)))
              s1).
    split.
    + intros Hin. apply in_flat_map in Hin as (a & Ha & Hin).
      apply in_map_iff in Hin as (t' & <- & Ht').
      constructor; [exact Ha|]. apply IH; [discriminate|exact Ht'].
    + intros Hall. inversion Hall as [|x s t' ss Hx Hrest]; subst.
      apply in_flat_map. exists x. split; [exact Hx|].
      apply in_map. apply IH; [discriminate|exact Hrest].
Qed.

Lemma member_wise_nonempty (t : list A) (seqs : list (list A)) :
  member_wise t seqs -> ~ In [] seqs.
Proof.
  unfold member_wise. induction 1 as [|x s t ss Hx Hall IH]; intros Hin.
  - destruct Hin.
  - destruct Hin as [->|Hin]; [destruct Hx|auto].
Qed.

(** Spreading the arguments does not return when one of them is an
    iterator that is never exhausted. *)
Lemma map_gen_spread_endless {St B : Type} (iterables : list (iterable A))
  (s : St) :
  (exists f, In (Iter (Infinite f)) iterables) ->
  map_gen (fun i => G.lift (B := B) (spread i)) iterables s = ([], Timeout).
Proof.
  intros [f Hin]. induction iterables as [|i iterables IH]; [destruct Hin|].
  cbn [map_gen].
  destruct i as [l|[rest|g]].
  - destruct Hin as [Heq|Hin]; [discriminate|].
    erewrite bind_done; [|reflexivity]. cbv beta.
    erewrite bind_timeout; [reflexivity|apply IH, Hin].
  - destruct Hin as [Heq|Hin]; [discriminate|].
    erewrite bind_done; [|reflexivity]. cbv beta.
    erewrite bind_timeout; [reflexivity|apply IH, Hin].
  - apply bind_timeout. reflexivity.
Qed.

End ProductMore.

(** X20: for one or more finite arguments, [product] yields exactly the
    tuples that take one element from each argument, in the order of the
    arguments; so it yields nothing at all when one argument is empty. *)
Theorem product_members {A : Type} (iterables : list (iterable A))
  (seqs : list (list A)) (t : list A) :
  Forall2 holds iterables seqs ->
  1 <= length iterables ->
  (In t (yielded (product iterables)) <-> member_wise t seqs)
  /\ (In [] seqs -> product iterables = ([], Done tt)).
Proof.
  intros Hall Hk.
  assert (Hne : seqs <> []).
  { intros ->. inversion Hall; subst. cbn in Hk. lia. }
  assert (Hrun : product iterables = (product_reference seqs, Done tt)).
  { unfold product, G.run.
    erewrite bind_done; [|apply map_gen_spread, Hall]. cbv beta.
    rewrite array_product_run by exact Hne. reflexivity. }
  rewrite Hrun. unfold yielded. cbn [fst]. split.
  - apply product_reference_In, Hne.
  - intros Hempty. f_equal.
    destruct (product_reference seqs) as [|t' ts] eqn:Href; [reflexivity|].
    exfalso. apply (@member_wise_nonempty A t' seqs); [|exact Hempty].
    apply product_reference_In; [exact Hne|].
    rewrite Href. left; reflexivity.
Qed.

Lemma product_members_witness :
  Forall2 holds [Arr [1; 2]%Z; Iter (Finite [3; 4; 5]%Z)]
    [[1; 2]; [3; 4; 5]]%Z
  /\ 1 <= length [Arr [1; 2]%Z; Iter (Finite [3; 4; 5]%Z)]
  /\ In [2; 4]%Z
       (yielded (product [Arr [1; 2]%Z; Iter (Finite [3; 4; 5]%Z)])).
Proof.
  assert (H1 : Forall2 holds [Arr [1; 2]%Z; Iter (Finite [3; 4; 5]%Z)]
                 [[1; 2]; [3; 4; 5]]%Z).
  { constructor; [left; reflexivity|].
    constructor; [right; reflexivity|constructor]. }
  assert (H2 : 1 <= length [Arr [1; 2]%Z; Iter (Finite [3; 4; 5]%Z)])
    by (simpl; lia).
  refine (conj H1 (conj H2 _)).
  apply (proj2 (proj1 (product_members [2; 4]%Z H1 H2))).
  constructor; [right; left; reflexivity|].
  constructor; [right; left; reflexivity|constructor].
Defined.

(** X21: [product] spreads every iterator among its arguments into an
    array before it yields anything: with an iterator that is never
    exhausted among them it yields nothing and does not return, whatever
    the other arguments are. *)
Theorem product_endless_argument {A : Type} (iterables : list (iterable A))
  (f : nat -> A) :
  In (Iter (Infinite f)) iterables ->
  product iterables = ([], Timeout).
Proof.
  intros Hin. unfold product, G.run.
  erewrite bind_timeout; [reflexivity|].
  apply map_gen_spread_endless. exists f. exact Hin.
Qed.

Lemma product_endless_argument_witness :
  In (Iter (count 0 1)) [Arr [1; 2]%Z; Iter (count 0 1)]
  /\ product [Arr [1; 2]%Z; Iter (count 0 1)] = ([], Timeout).
Proof.
  assert (H1 : In (Iter (count 0 1)) [Arr [1; 2]%Z; Iter (count 0 1)])
    by (right; left; reflexivity).
  refine (conj H1 _).
  exact (product_endless_argument _ _ H1).
Defined.

(** ** More on [cycle] *)

Lemma concat_repeat_nil {V : Type} (k : nat) :
  concat (repeat (@nil V) k) = [].
Proof. induction k as [|k IH]; [reflexivity|exact IH]. Qed.

(** X22: [cycle] tests its count before every round: with a count that is
    not positive it yields nothing and returns, whatever the iterable;
    with an iterator that is never exhausted and a positive count it stays
    in the first round; with the count left out and nothing to yield it
    neither yields nor returns. *)
Theorem cycle_rounds_edge_cases {V : Type} (i : iterable V) (t : Z)
  (fuel : nat) :
  (t <= 0)%Z ->
  0 < fuel ->
  cycle fuel i (Int t) = ([], Done tt)
  /\ (forall (f : nat -> V) (n : number),
        Num.gt n (Int 0) = true ->
        cycle fuel (Iter (Infinite f)) n
        = (map f (seq 0 (fuel - 1)), Timeout))
  /\ (forall rounds : nat,
        cycle rounds (Arr (@nil V)) Infinity = ([], Timeout)).
Proof.
  intros Ht Hfuel. destruct fuel as [|fuel]; [lia|].
  split; [|split].
  - unfold cycle, G.run. cbn [cycle_loop Num.gt Num.lt].
    replace (0 <? t)%Z with false by lia. reflexivity.
  - intros f n Hn. unfold cycle, G.run. cbn [cycle_loop]. rewrite Hn.
    erewrite bind_timeout; [|reflexivity].
    rewrite Nat.sub_succ, Nat.sub_0_r. reflexivity.
  - intros rounds. unfold cycle, G.run.
    rewrite cycle_loop_forever, concat_repeat_nil. reflexivity.
Qed.

Lemma cycle_rounds_edge_cases_witness :
  (0 <= 0)%Z
  /\ 0 < 1
  /\ cycle 1 (Iter (count 0 1)) (Int 0) = ([], Done tt).
Proof.
  assert (H1 : (0 <= 0)%Z) by lia.
  assert (H2 : 0 < 1) by lia.
  refine (conj H1 (conj H2 _)).
  exact (proj1 (cycle_rounds_edge_cases (Iter (count 0 1)) H1 H2)).
Defined.

(** ** More on [take]: indices that are not increasing *)

Lemma last_cons_default {T : Type} (l : list T) :
  forall a d, last (a :: l) d = last l a.
Proof.
  induction l as [|b l IH]; intros a d; [reflexivity|].
  change (last (a :: b :: l) d) with (last (b :: l) d).
  rewrite (IH b d), (IH b a). reflexivity.
Qed.

Section TakeMore.
Context {A : Type}.

(** Past the index waited for, the loop of [take] yields nothing more: it
    walks the source to its end. *)
Lemma take_loop_stuck (rest : list A) :
  forall (fuel : nat) (g : nat -> Z + A) (pos idx : Z) (indices : cursor Z),
    (forall k, g k = inl (pos + Z.of_nat k)%Z) ->
    length rest < fuel ->
    (idx < pos)%Z ->
    take_loop fuel [Infinite g; Finite (map inr rest)] idx indices
    = ([], Done tt).
Proof.
  induction rest as [|v rest IH]; intros fuel g pos idx indices Hg Hfuel Hlt;
    (destruct fuel as [|fuel]; [cbn in Hfuel; lia|]).
  - reflexivity.
  - cbn [length] in Hfuel.
    assert (Hg' : forall k, g (S k) = inl (pos + 1 + Z.of_nat k)%Z)
      by (intros k; rewrite Hg; f_equal; lia).
    cbn [take_loop zip_next map next fst snd forallb is_done negb andb
         values flat_map app].
    rewrite (Hg 0), Z.add_0_r.
    replace (pos =? idx)%Z with false by lia.
    apply (IH fuel (fun k => g (S k)) (pos + 1)%Z idx indices);
      [exact Hg'|lia|lia].
Qed.

(** The loop of [take] on indices that increase up to an index [bad] that
    does not: the indices before [bad] are served, [bad] and what follows
    it are not. *)
Lemma take_loop_blocked (rest : list A) :
  forall (fuel : nat) (g : nat -> Z + A) (pos idx : Z) (pre : list Z)
    (bad : Z) (post : list Z),
    (forall k, g k = inl (pos + Z.of_nat k)%Z) ->
    length rest < fuel ->
    (pos <= idx)%Z ->
    StronglySorted Z.lt (idx :: pre) ->
    (bad <= last pre idx)%Z ->
    take_loop fuel [Infinite g; Finite (map inr rest)] idx
      (Finite (pre ++ bad :: post))
    = (flat_map (fun i => element_at rest (i - pos)) (idx :: pre), Done tt).
Proof.
  induction rest as [|v rest IH];
    intros fuel g pos idx pre bad post Hg Hfuel Hpos Hsorted Hbad;
    (destruct fuel as [|fuel]; [cbn in Hfuel; lia|]).
  - cbn [take_loop zip_next map next fst snd forallb is_done negb andb].
    f_equal. symmetry. apply flat_map_nil.
    intros i _. unfold element_at.
    destruct (i - pos <? 0)%Z; [reflexivity|].
    destruct (Z.to_nat (i - pos)); reflexivity.
  - cbn [length] in Hfuel.
    assert (Hg' : forall k, g (S k) = inl (pos + 1 + Z.of_nat k)%Z)
      by (intros k; rewrite Hg; f_equal; lia).
    assert (Habove : forall i, In i pre -> (idx < i)%Z).
    { apply StronglySorted_inv in Hsorted as (_ & Hall).
      rewrite Forall_forall in Hall. exact Hall. }
    set (expected := flat_map _ _).
    cbn [take_loop zip_next map next fst snd forallb is_done negb andb
         values flat_map app].
    rewrite (Hg 0), Z.add_0_r. subst expected.
    change (flat_map (fun i => element_at (v :: rest) (i - pos)) (idx :: pre))
      with (element_at (v :: rest) (idx - pos)
            ++ flat_map (fun i => element_at (v :: rest) (i - pos)) pre).
    destruct (Z.eqb_spec pos idx) as [<-|Hne].
    + rewrite Z.sub_diag. change (element_at (v :: rest) 0) with [v].
      cbn [app].
      destruct pre as [|idx' pre]; cbn [app next].
      * cbn [last] in Hbad.
        rewrite (@take_loop_stuck rest fuel (fun k => g (S k)) (pos + 1)%Z
                   bad (Finite post)); [reflexivity|exact Hg'|lia|lia].
      * assert (Hlt : (pos < idx')%Z) by (apply Habove; left; reflexivity).
        apply StronglySorted_inv in Hsorted as (Hsorted & _).
        rewrite last_cons_default in Hbad.
        rewrite (IH fuel (fun k => g (S k)) (pos + 1)%Z idx' pre bad post);
          [|exact Hg'|lia|lia|exact Hsorted|exact Hbad].
        f_equal. f_equal. symmetry. apply elements_shift.
        intros i [<-|Hi]; [exact Hlt|].
        apply StronglySorted_inv in Hsorted as (_ & Hall).
        rewrite Forall_forall in Hall. specialize (Hall _ Hi). lia.
    + assert (Hlt : (pos < idx)%Z) by lia.
      rewrite (IH fuel (fun k => g (S k)) (pos + 1)%Z idx pre bad post);
        [|exact Hg'|lia|lia|exact Hsorted|exact Hbad].
      f_equal.
      change (flat_map (fun i => element_at rest (i - (pos + 1))) (idx :: pre))
        with (element_at rest (idx - (pos + 1))
              ++ flat_map (fun i => element_at rest (i - (pos + 1))) pre).
      rewrite <- (element_at_shift v rest Hlt). f_equal.
      symmetry. apply elements_shift. intros i Hi.
      specialize (Habove i Hi). lia.
Qed.

End TakeMore.

(** X23: [take] waits for one index at a time, and an index that is not
    above the one before it (or, as the first, is negative) is never
    found: on a finite source and indices that increase up to such an
    index, [take] yields the elements at the indices before it, skips it
    and all indices behind it, and returns at the end of the source. *)
Theorem take_index_out_of_order {A : Type} (i : iterable A)
  (indices : iterable Z) (src : list A) (pre : list Z) (bad : Z)
  (post : list Z) (fuel : nat) :
  iterator i = Finite src ->
  iterator indices = Finite (pre ++ bad :: post) ->
  StronglySorted Z.lt ((-1)%Z :: pre) ->
  (bad <= last pre (-1))%Z ->
  length src < fuel ->
  take fuel i indices = (flat_map (element_at src) pre, Done tt).
Proof.
  intros Hsrc Hidx Hsorted Hbad Hfuel.
  assert (Hcount : forall k,
            inl (B := A) (Nat.iter k (fun s => (s + 1)%Z) 0%Z)
            = inl (0 + Z.of_nat k)%Z).
  { intros k. rewrite count_nth. f_equal. lia. }
  unfold take, enumerate. rewrite Hsrc, Hidx.
  cbn [cursor_map count].
  destruct pre as [|idx pre]; cbn [app next].
  - cbn [last] in Hbad.
    apply (@take_loop_stuck A src fuel _ 0%Z bad (Finite post));
      [exact Hcount|exact Hfuel|lia].
  - apply StronglySorted_inv in Hsorted as (Hsorted & Hall).
    inversion Hall; subst.
    rewrite last_cons_default in Hbad.
    rewrite (@take_loop_blocked A src fuel _ 0%Z idx pre bad post);
      [|exact Hcount|exact Hfuel|lia|exact Hsorted|exact Hbad].
    f_equal. apply flat_map_ext. intros j. rewrite Z.sub_0_r. reflexivity.
Qed.

Lemma take_index_out_of_order_witness :
  iterator (Arr [10; 20; 30; 40]%Z) = Finite [10; 20; 30; 40]%Z
  /\ iterator (Arr [0; 2; 1; 3]%Z) = Finite ([0; 2] ++ 1 :: [3])%Z
  /\ StronglySorted Z.lt ((-1) :: [0; 2])%Z
  /\ (1 <= last [0; 2] (-1))%Z
  /\ length [10; 20; 30; 40]%Z < 5
  /\ take 5 (Arr [10; 20; 30; 40]%Z) (Arr [0; 2; 1; 3]%Z)
     = ([10; 30]%Z, Done tt).
Proof.
  assert (H1 : iterator (Arr [10; 20; 30; 40]%Z)
               = Finite [10; 20; 30; 40]%Z) by reflexivity.
  assert (H2 : iterator (Arr [0; 2; 1; 3]%Z)
               = Finite ([0; 2] ++ 1 :: [3])%Z) by reflexivity.
  assert (H3 : StronglySorted Z.lt ((-1) :: [0; 2])%Z)
    by (repeat constructor; lia).
  assert (H4 : (1 <= last [0; 2] (-1))%Z) by (simpl; lia).
  assert (H5 : length [10; 20; 30; 40]%Z < 5) by (simpl; lia).
  refine (conj H1 (conj H2 (conj H3 (conj H4 (conj H5 _))))).
  exact (@take_index_out_of_order Z (Arr [10; 20; 30; 40]%Z)
           (Arr [0; 2; 1; 3]%Z) _ _ _ _ 5 H1 H2 H3 H4 H5).
Defined.

(** The test script of the repository has [take] yield a value for every
    index, [undefined] where the source has no element:
    [take('a', range(1,4))] is to give [undefined] three times and
    [take('abcdef', [2,200])] is to give ['c', undefined]. The code yields
    nothing for the first and ['c'] alone for the second; the test's third
    case, [take('abcdef', range(1,4))], it meets. *)
Lemma take_test_cases :
  yielded (range 4 1 (Some 4%Z) 1) = map Double.Num [1; 2; 3]%Z
  /\ take 2 (Arr ["a"%string]) (Iter (Finite [1; 2; 3]%Z)) = ([], Done tt)
  /\ take 7 (Arr ["a"; "b"; "c"; "d"; "e"; "f"]%string) (Arr [2; 200]%Z)
     = (["c"%string], Done tt)
  /\ take 7 (Arr ["a"; "b"; "c"; "d"; "e"; "f"]%string)
       (Iter (Finite [1; 2; 3]%Z))
     = (["b"; "c"; "d"]%string, Done tt).
Proof. repeat split. Qed.

(** ** [take] on a source without end, [count], and all of [partitions] *)

Section TakeEndless.
Context {A : Type}.

(** Past the index waited for, on a source without end, the loop of
    [take] yields nothing and does not return. *)
Lemma take_loop_stuck_endless (fuel : nat) :
  forall (g h : nat -> Z + A) (src : nat -> A) (pos idx : Z)
    (indices : cursor Z),
    (forall k, g k = inl (pos + Z.of_nat k)%Z) ->
    (forall k, h k = inr (src k)) ->
    (idx < pos)%Z ->
    take_loop fuel [Infinite g; Infinite h] idx indices = ([], Timeout).
Proof.
  induction fuel as [|fuel IH]; intros g h src pos idx indices Hg Hh Hlt;
    [reflexivity|].
  cbn [take_loop zip_next map next fst snd forallb is_done negb andb
       values flat_map app].
  rewrite (Hg 0), (Hh 0), Z.add_0_r.
  replace (pos =? idx)%Z with false by lia.
  apply (IH (fun k => g (S k)) (fun k => h (S k)) (fun k => src (S k))
            (pos + 1)%Z idx indices).
  - intros k. rewrite Hg. f_equal. lia.
  - intros k. apply Hh.
  - lia.
Qed.

Lemma take_loop_blocked_endless (fuel : nat) :
  forall (g h : nat -> Z + A) (src : nat -> A) (pos idx : Z)
    (pre : list Z) (bad : Z) (post : list Z),
    (forall k, g k = inl (pos + Z.of_nat k)%Z) ->
    (forall k, h k = inr (src k)) ->
    (pos <= idx)%Z ->
    StronglySorted Z.lt (idx :: pre) ->
    (bad <= last pre idx)%Z ->
    ending (take_loop fuel [Infinite g; Infinite h] idx
              (Finite (pre ++ bad :: post)))
    = Timeout.
Proof.
  induction fuel as [|fuel IH];
    intros g h src pos idx pre bad post Hg Hh Hpos Hsorted Hbad;
    [reflexivity|].
  cbn [take_loop zip_next map next fst snd forallb is_done negb andb
       values flat_map app].
  rewrite (Hg 0), (Hh 0), Z.add_0_r.
  assert (Hg' : forall k, g (S k) = inl (pos + 1 + Z.of_nat k)%Z)
    by (intros k; rewrite Hg; f_equal; lia).
  assert (Hh' : forall k, h (S k) = inr (src (S k)))
    by (intros k; apply Hh).
  destruct (Z.eqb_spec pos idx) as [<-|Hne].
  - destruct pre as [|idx' pre]; cbn [app next].
    + cbn [last] in Hbad.
      rewrite (@take_loop_stuck_endless fuel (fun k => g (S k))
                 (fun k => h (S k)) (fun k => src (S k)) (pos + 1)%Z bad
                 (Finite post) Hg' Hh'); [reflexivity|lia].
    + pose proof (StronglySorted_inv Hsorted) as (Hsorted' & Hall).
      inversion Hall; subst.
      rewrite last_cons_default in Hbad.
      pose proof (IH (fun k => g (S k)) (fun k => h (S k))
                    (fun k => src (S k)) (pos + 1)%Z idx' pre bad post
                    Hg' Hh' ltac:(lia) Hsorted' Hbad) as Hrec.
      destruct (take_loop fuel _ idx' _) as [out r]. exact Hrec.
  - apply (IH (fun k => g (S k)) (fun k => h (S k)) (fun k => src (S k))
              (pos + 1)%Z idx pre bad post Hg' Hh');
      [lia|exact Hsorted|exact Hbad].
Qed.

End TakeEndless.

(** X24: on a source without end, [take] with an index that is not above
    the one before it (or, as the first, is negative) never returns: it
    waits for that index while the source goes on. *)
Theorem take_endless_index_out_of_order {A : Type} (i : iterable A)
  (indices : iterable Z) (src : nat -> A) (pre : list Z) (bad : Z)
  (post : list Z) :
  iterator i = Infinite src ->
  iterator indices = Finite (pre ++ bad :: post) ->
  StronglySorted Z.lt ((-1)%Z :: pre) ->
  (bad <= last pre (-1))%Z ->
  forall fuel : nat, ending (take fuel i indices) = Timeout.
Proof.
  intros Hsrc Hidx Hsorted Hbad fuel.
  assert (Hcount : forall k,
            inl (B := A) (Nat.iter k (fun s => (s + 1)%Z) 0%Z)
            = inl (0 + Z.of_nat k)%Z).
  { intros k. rewrite count_nth. f_equal. lia. }
  unfold take, enumerate. rewrite Hsrc, Hidx.
  cbn [cursor_map count].
  destruct pre as [|idx pre]; cbn [app next].
  - cbn [last] in Hbad.
    rewrite (@take_loop_stuck_endless A fuel _ (fun k => inr (src k)) src
               0%Z bad (Finite post) Hcount);
      [reflexivity|reflexivity|lia].
  - apply StronglySorted_inv in Hsorted as (Hsorted & Hall).
    inversion Hall; subst.
    rewrite last_cons_default in Hbad.
    apply (@take_loop_blocked_endless A fuel _ (fun k => inr (src k)) src
             0%Z idx pre bad post Hcount);
      [reflexivity|lia|exact Hsorted|exact Hbad].
Qed.

Lemma take_endless_index_out_of_order_witness :
  iterator (Iter (count 0 1)) = count 0 1
  /\ iterator (Arr [2; 1]%Z) = Finite ([2] ++ 1 :: [])%Z
  /\ StronglySorted Z.lt ((-1) :: [2])%Z
  /\ (1 <= last [2] (-1))%Z
  /\ ending (take 100 (Iter (count 0 1)) (Arr [2; 1]%Z)) = Timeout.
Proof.
  assert (H1 : iterator (Iter (count 0 1)) = count 0 1) by reflexivity.
  assert (H2 : iterator (Arr [2; 1]%Z) = Finite ([2] ++ 1 :: [])%Z)
    by reflexivity.
  assert (H3 : StronglySorted Z.lt ((-1) :: [2])%Z)
    by (repeat constructor; lia).
  assert (H4 : (1 <= last [2] (-1))%Z) by (simpl; lia).
  refine (conj H1 (conj H2 (conj H3 (conj H4 _)))).
  exact (@take_endless_index_out_of_order Z (Iter (count 0 1))
           (Arr [2; 1]%Z) _ _ _ _ H1 H2 H3 H4 100).
Defined.

(** X25: as long as its values stay within [2^53] in magnitude,
    [count(start, step)] has [start + k * step] as the value of its
    [k]-th round, the sums of the code being exact there, so that the
    sums of integers give the same values; from [2^53] on, adding 1
    moves nothing, and [count(2^53, 1)] yields [2^53] in every round;
    and past the largest double, [count(2^1023, 2^1023)] yields
    [Infinity] from its second round on. *)
Theorem count_arithmetic (start step : Z) (k : nat) :
  (- Double.exact <= start <= Double.exact)%Z ->
  (- Double.exact <= start + Z.of_nat k * step <= Double.exact)%Z ->
  cursor_nth (Double.count start step) k
  = Some (Double.Num (start + Z.of_nat k * step))
  /\ cursor_nth (count start step) k = Some (start + Z.of_nat k * step)%Z
  /\ (forall j : nat,
        cursor_nth (Double.count Double.exact 1) j
        = Some (Double.Num Double.exact))
  /\ (forall j : nat,
        cursor_nth (Double.count (2 ^ 1023) (2 ^ 1023)) (S j)
        = Some (Double.Inf false)).
Proof.
  intros Hstart Hend.
  split; [|split; [|split]].
  - cbn [Double.count cursor_nth]. rewrite double_count_exact; [reflexivity|].
    intros j Hj. exact (@between_endpoints start step j k Hj Hstart Hend).
  - cbn [count cursor_nth]. rewrite count_nth. reflexivity.
  - intros j. cbn [Double.count cursor_nth].
    rewrite double_count_stuck. reflexivity.
  - intros j. cbn [Double.count cursor_nth]. f_equal.
    induction j as [|j IH]; [vm_compute; reflexivity|].
    rewrite Nat.iter_succ, IH. reflexivity.
Qed.

Lemma count_arithmetic_witness :
  (- Double.exact <= 5 <= Double.exact)%Z
  /\ (- Double.exact <= 5 + Z.of_nat 4 * 3 <= Double.exact)%Z
  /\ cursor_nth (Double.count 5 3) 4 = Some (Double.Num 17).
Proof.
  assert (H1 : (- Double.exact <= 5 <= Double.exact)%Z)
    by (split; vm_compute; discriminate).
  assert (H2 : (- Double.exact <= 5 + Z.of_nat 4 * 3 <= Double.exact)%Z)
    by (split; vm_compute; discriminate).
  refine (conj H1 (conj H2 _)).
  exact (proj1 (@count_arithmetic 5 3 4 H1 H2)).
Defined.

(** Every strictly increasing selection from a strictly increasing list
    is among the choices. *)
Lemma choose_complete_sorted (l : list nat) :
  StronglySorted lt l ->
  forall c : list nat,
    StronglySorted lt c -> incl c l ->
    exists r, In (c, r) (choose (length c) l).
Proof.
  induction 1 as [|x l Hs IH Hall]; intros c Hc Hincl.
  - destruct c as [|y c].
    + exists []. left; reflexivity.
    + destruct (Hincl y (or_introl eq_refl)).
  - rewrite Forall_forall in Hall.
    destruct c as [|y c].
    + exists (x :: l). left; reflexivity.
    + pose proof (StronglySorted_inv Hc) as (Hc' & Hy).
      rewrite Forall_forall in Hy.
      cbn [length choose].
      destruct (Nat.eq_dec y x) as [->|Hne].
      * assert (Hincl' : incl c l).
        { intros z Hz. destruct (Hincl z (or_intror Hz)) as [<-|Hzl];
            [|exact Hzl].
          specialize (Hy _ Hz). lia. }
        destruct (IH c Hc' Hincl') as [r Hr].
        exists r. apply in_or_app. left.
        apply in_map_iff. exists (c, r). split; [reflexivity|exact Hr].
      * assert (Hincl' : incl (y :: c) l).
        { intros z Hz. destruct (Hincl z Hz) as [<-|Hzl]; [|exact Hzl].
          destruct Hz as [->|Hz]; [contradiction|].
          exfalso. specialize (Hy _ Hz).
          destruct (Hincl y (or_introl eq_refl)) as [Heq|Hyl];
            [congruence|].
          specialize (Hall _ Hyl). lia. }
        destruct (IH (y :: c) Hc Hincl') as [r Hr].
        exists (x :: r). apply in_or_app. right.
        apply in_map_iff. exists (y :: c, r). split; [reflexivity|exact Hr].
Qed.

(** Every way to split a strictly increasing list into strictly
    increasing groups of the given sizes is among the splits. *)
Lemma splits_complete (sizes : list nat) :
  forall (l : list nat) (p : list (list nat)),
    StronglySorted lt l ->
    sizes <> [] ->
    map (@length nat) p = sizes ->
    Forall (StronglySorted lt) p ->
    Permutation (concat p) l ->
    In p (splits sizes l).
Proof.
  induction sizes as [|s [|s2 rest] IH]; intros l p Hl Hne Hlen Hp Hperm;
    [contradiction| |].
  - destruct p as [|g [|g2 p]]; try discriminate.
    cbn [concat] in Hperm. rewrite app_nil_r in Hperm.
    inversion Hp as [|? ? Hg _]; subst.
    left. f_equal.
    assert (Hsame : forall a, In a l <-> In a g).
    { intros a. split; intros Ha.
      - apply (Permutation_in _ (Permutation_sym Hperm) Ha).
      - apply (Permutation_in _ Hperm Ha). }
    clear - Hl Hg Hsame. revert g Hg Hsame.
    induction Hl as [|x l Hs IH Hall]; intros g Hg Hsame.
    + destruct g as [|y g]; [reflexivity|].
      destruct (proj2 (Hsame y) (or_introl eq_refl)).
    + rewrite Forall_forall in Hall.
      destruct g as [|y g].
      { destruct (proj1 (Hsame x) (or_introl eq_refl)). }
      pose proof (StronglySorted_inv Hg) as (Hg' & Hy).
      rewrite Forall_forall in Hy.
      assert (Hxy : x = y).
      { destruct (proj1 (Hsame x) (or_introl eq_refl)) as [Heq|Hxg];
          [symmetry; exact Heq|].
        destruct (proj2 (Hsame y) (or_introl eq_refl)) as [Heq|Hyl];
          [exact Heq|].
        specialize (Hy _ Hxg). specialize (Hall _ Hyl). lia. }
      subst y. f_equal. apply IH; [exact Hg'|].
      intros a. split; intros Ha.
      * destruct (proj1 (Hsame a) (or_intror Ha)) as [<-|Hag]; [|exact Hag].
        specialize (Hall _ Ha). lia.
      * destruct (proj2 (Hsame a) (or_intror Ha)) as [<-|Hal]; [|exact Hal].
        specialize (Hy _ Ha). lia.
  - destruct p as [|g p]; [discriminate|].
    injection Hlen as Hg Hlen.
    inversion Hp as [|? ? Hgs Hp']; subst.
    cbn [concat] in Hperm.
    assert (Hincl : incl g l).
    { intros a Ha. apply (Permutation_in _ Hperm).
      apply in_or_app. left; exact Ha. }
    destruct (choose_complete_sorted Hl Hgs Hincl) as [r Hr].
    change (In (g :: p)
              (flat_map (fun cr => map (cons (fst cr))
                                     (splits (s2 :: rest) (snd cr)))
                 (choose (length g) l))).
    apply in_flat_map. exists (g, r). split; [exact Hr|]. cbn [fst snd].
    apply in_map.
    apply IH.
    + exact (proj2 (choose_sorted Hl _ _ _ Hr)).
    + discriminate.
    + exact Hlen.
    + exact Hp'.
    + apply choose_In in Hr as (_ & Hperm' & _).
      apply Permutation_app_inv_l with (l := g).
      rewrite Hperm. symmetry. exact Hperm'.
Qed.

(** X26: on the pool of the positions [0 .. n-1], [partitions] with
    proper sizes that sum to [n] yields every partition of the positions
    into groups of those sizes, in the given order of the sizes, each
    group listed in increasing order: every one of them is yielded. *)
Theorem partitions_complete (n : nat) (sizes : list Z) (fuel : nat)
  (ip : list (list nat)) :
  proper_sizes sizes ->
  total sizes = Z.of_nat n ->
  n + length sizes < fuel ->
  map (@length nat) ip = map Z.to_nat sizes ->
  Forall (StronglySorted lt) ip ->
  Permutation (concat ip) (seq 0 n) ->
  In ip (yielded (partitions 0 fuel (Arr (seq 0 n)) sizes)).
Proof.
  intros Hp Hsum Hfuel Hlen Hgroups Hperm.
  rewrite (partitions_unfold 0 fuel sizes (pool := seq 0 n))
    by (left; reflexivity).
  unfold G.run. rewrite array_partitions_run;
    [ | exact Hp | rewrite length_seq; exact Hsum
      | rewrite length_seq; exact Hfuel ].
  unfold yielded. cbn [fst].
  apply splits_complete; [apply seq_increasing| |exact Hlen|exact Hgroups
                          |exact Hperm].
  destruct Hp as (Hne & _). destruct sizes; [contradiction|discriminate].
Qed.

Lemma partitions_complete_witness :
  proper_sizes [2; 1]%Z
  /\ total [2; 1]%Z = Z.of_nat 3
  /\ 3 + length [2; 1]%Z < 6
  /\ map (@length nat) [[0; 2]; [1]] = map Z.to_nat [2; 1]%Z
  /\ Forall (StronglySorted lt) [[0; 2]; [1]]
  /\ Permutation (concat [[0; 2]; [1]]) (seq 0 3)
  /\ In [[0; 2]; [1]] (yielded (partitions 0 6 (Arr (seq 0 3)) [2; 1]%Z)).
Proof.
  assert (H1 : proper_sizes [2; 1]%Z).
  { split; [discriminate|]. split; [repeat constructor; lia|simpl; lia]. }
  assert (H2 : total [2; 1]%Z = Z.of_nat 3) by reflexivity.
  assert (H3 : 3 + length [2; 1]%Z < 6) by (simpl; lia).
  assert (H4 : map (@length nat) [[0; 2]; [1]] = map Z.to_nat [2; 1]%Z)
    by reflexivity.
  assert (H5 : Forall (StronglySorted lt) [[0; 2]; [1]])
    by (repeat constructor).
  assert (H6 : Permutation (concat [[0; 2]; [1]]) (seq 0 3)).
  { cbn. apply perm_skip. apply perm_swap. }
  refine (conj H1 (conj H2 (conj H3 (conj H4 (conj H5 (conj H6 _)))))).
  exact (@partitions_complete 3 [2; 1]%Z 6 [[0; 2]; [1]] H1 H2 H3 H4 H5 H6).
Defined.
